(** * The wheel store: normalizer, weighted spin, bounded history, serial queue

    A shallow embedding of [server/src/store.ts] (the primary [WheelStore]) and
    of the weight normalization of the second store variant, with the
    properties of the repository's specification proved about it. *)

From Stdlib Require Import ZArith QArith Qround Lia Lqa String Ascii.
From stdpp Require Import base option list.

Local Open Scope Z_scope.

(** ** JavaScript numbers

    A [number] is a NaN, an infinity, or a finite value.  A finite binary64
    value is modelled by the rational it denotes, so every double is a
    [Fin q]; [Math.round], [Math.max], [Number.isFinite],
    [Number.isSafeInteger] and the comparisons are exact on doubles and are
    modelled exactly.  [+] is modelled without rounding: it is the [+] of the
    code where the exact sum is a [binary64] value, as it is for integers of
    magnitude up to 2^53, and the statements about sums are made there.  The
    sign of zero is not modelled. *)
Module JS.

Inductive number : Type :=
| Fin (q : Q)
| NaN
| PosInf
| NegInf.

Definition of_Z (z : Z) : number := Fin (inject_Z z).

(** [Number.isFinite(x)] *)
Definition isFinite (x : number) : bool :=
  match x with Fin _ => true | _ => false end.

(** [Math.round(x)]: the integral value closest to [x], the one closer to
    +Infinity on a tie; NaN and the infinities are returned as they are. *)
Definition round (x : number) : number :=
  match x with
  | Fin q => of_Z (Qfloor (q + (1 # 2)))
  | other => other
  end.

(** [Math.max(x, y)]: NaN when either argument is NaN. *)
Definition max (x y : number) : number :=
  match x, y with
  | NaN, _ | _, NaN => NaN
  | PosInf, _ | _, PosInf => PosInf
  | NegInf, other | other, NegInf => other
  | Fin p, Fin q => if Qle_bool p q then Fin q else Fin p
  end.

(** [x + y] *)
Definition add (x y : number) : number :=
  match x, y with
  | NaN, _ | _, NaN => NaN
  | PosInf, NegInf | NegInf, PosInf => NaN
  | PosInf, _ | _, PosInf => PosInf
  | NegInf, _ | _, NegInf => NegInf
  | Fin p, Fin q => Fin (p + q)
  end.

(** [x < y]: false when either side is NaN. *)
Definition lt (x y : number) : bool :=
  match x, y with
  | NaN, _ | _, NaN => false
  | _, NegInf | PosInf, _ => false
  | NegInf, _ | _, PosInf => true
  | Fin p, Fin q => negb (Qle_bool q p)
  end.

(** [x <= y]: false when either side is NaN. *)
Definition le (x y : number) : bool :=
  match x, y with
  | NaN, _ | _, NaN => false
  | NegInf, _ | _, PosInf => true
  | _, NegInf | PosInf, _ => false
  | Fin p, Fin q => Qle_bool p q
  end.

(** The finite binary64 values: a significand of at most 53 bits times a
    power of two in the range of the format. *)
Definition binary64 (q : Q) : Prop :=
  exists m e : Z,
    Z.abs m < 2 ^ 53 /\ -1074 <= e <= 971 /\ (q == inject_Z m * Qpower 2 e)%Q.

(** [Number.isSafeInteger(x)]: an integral value of magnitude at most
    2^53 - 1. *)
Definition isSafeInteger (x : number) : bool :=
  match x with
  | Fin q => Qeq_bool q (inject_Z (Qfloor q)) && (Z.abs (Qfloor q) <=? 2 ^ 53 - 1)
  | _ => false
  end.

(** [x ?? d] *)
Definition nullish {A : Type} (x : option A) (d : A) : A :=
  match x with Some v => v | None => d end.

End JS.

Abbreviation number := JS.number.

(** ** The entity normalizer: weights *)

(** [normalizeWeight(weight)], lines 91-98.  [Number(_)] applied to a number
    is the identity. *)
Definition normalizeWeight (weight : option number) : number :=
  let parsed := JS.nullish weight (JS.of_Z 1) in
  if negb (JS.isFinite parsed) then JS.of_Z 1
  else
    let rounded := JS.round parsed in
    JS.max (JS.of_Z 1) rounded.

(** ** Strings

    A string is a sequence of code units, here the 8-bit ones of [ascii].
    [isWhiteSpace] holds of the code units below 256 that [String.prototype.trim]
    strips: TAB, LF, VT, FF, CR, SPACE and NBSP. *)
Definition isWhiteSpace (c : ascii) : bool :=
  let n := N_of_ascii c in
  (((9 <=? n) && (n <=? 13)) || (n =? 32) || (n =? 160))%N.

Fixpoint trimStart (s : string) : string :=
  match s with
  | EmptyString => EmptyString
  | String c rest => if isWhiteSpace c then trimStart rest else s
  end.

Fixpoint trimEnd (s : string) : string :=
  match s with
  | EmptyString => EmptyString
  | String c rest =>
      match trimEnd rest with
      | EmptyString => if isWhiteSpace c then EmptyString else String c EmptyString
      | kept => String c kept
      end
  end.

(** [s.trim()] *)
Definition trim (s : string) : string := trimEnd (trimStart s).

(** Truthiness of a string: [!s] holds of the empty string only. *)
Definition falsy (s : string) : bool :=
  match s with EmptyString => true | String _ _ => false end.

(** ** The data model ([types.ts]) *)

Record WheelItem := mkWheelItem {
  item_id : string;
  item_label : string;
  item_weight : number;
}.

Record SpinResult := mkSpinResult {
  spin_id : string;
  spin_itemId : string;
  spin_label : string;
  spin_timestamp : string;
}.

Record WheelList := mkWheelList {
  list_id : string;
  list_name : string;
  list_description : option string;
  list_items : list WheelItem;
  list_spins : list SpinResult;
  list_createdAt : string;
  list_updatedAt : string;
}.

Record DataFile := mkDataFile { lists : list WheelList }.

(** [RawItemInput], line 72. *)
Record RawItemInput := mkRawItemInput {
  raw_id : option string;
  raw_label : string;
  raw_weight : option number;
}.

Record CreateListPayload := mkCreateListPayload {
  create_name : string;
  create_description : option string;
  create_items : option (list RawItemInput);
}.

Record UpdateListPayload := mkUpdateListPayload {
  update_name : option string;
  update_description : option string;
  update_items : option (list RawItemInput);
}.

(** ** The entity normalizer: items, names, descriptions *)

(** One round of the [reduce] callback of [normalizeItems], lines 75-88.  The
    accumulator is paired with the number of [nanoid()] calls made so far;
    [nanoid k] is what the [k]-th call returns. *)
Definition normalizeItems_step (nanoid : nat -> string)
    (st : list WheelItem * nat) (item : RawItemInput) : list WheelItem * nat :=
  let '(acc, k) := st in
  let label := trim (raw_label item) in
  if falsy label then (acc, k)
  else
    let '(id, k') :=
      match raw_id item with
      | Some supplied => (supplied, k)
      | None => (nanoid k, S k)
      end in
    (acc ++ [mkWheelItem id label (normalizeWeight (raw_weight item))], k').

(** [normalizeItems(items)], lines 74-89, with the count of ids drawn. *)
Definition normalizeItems (nanoid : nat -> string) (k : nat)
    (items : list RawItemInput) : list WheelItem * nat :=
  fold_left (normalizeItems_step nanoid) items ([], k).

(** [sanitizeName(name)], lines 100-103. *)
Definition sanitizeName (name : option string) : string :=
  let trimmed := JS.nullish (trim <$> name) EmptyString in
  if (0 <? String.length trimmed)%nat then trimmed else "Untitled wheel"%string.

(** [sanitizeDescription(description)], lines 105-112. *)
Definition sanitizeDescription (description : option string) : option string :=
  match description with
  | None => None
  | Some d =>
      let trimmed := trim d in
      if (0 <? String.length trimmed)%nat then Some trimmed else None
  end.

(** ** The second store variant

    Lines 247-410 of the same file hold a second [WheelStore]; its
    [normalizeItems] normalizes the weight in place. *)
Module Variant.

(** The weight expression of line 292:
    [Math.max(1, Math.round(item.weight ?? 1))]. *)
Definition inlineWeight (weight : option number) : number :=
  JS.max (JS.of_Z 1) (JS.round (JS.nullish weight (JS.of_Z 1))).

(** The [map] callback of lines 289-293 over the filtered entries, with the
    count of [nanoid()] calls made so far. *)
Fixpoint mapItems (nanoid : nat -> string) (k : nat) (items : list RawItemInput)
    : list WheelItem :=
  match items with
  | [] => []
  | item :: rest =>
      let weight := inlineWeight (raw_weight item) in
      match raw_id item with
      | Some supplied =>
          mkWheelItem supplied (trim (raw_label item)) weight :: mapItems nanoid k rest
      | None =>
          mkWheelItem (nanoid k) (trim (raw_label item)) weight :: mapItems nanoid (S k) rest
      end
  end.

(** [normalizeItems(items)] of the second variant, lines 286-294. *)
Definition normalizeItems (nanoid : nat -> string) (k : nat)
    (items : list RawItemInput) : list WheelItem :=
  mapItems nanoid k
    (List.filter (fun item => (0 <? String.length (trim (raw_label item)))%nat) items).

End Variant.

(** ** The durable record store

    The data file is modelled by what [JSON.parse] makes of its content: a
    [DataFile], or a syntax error; what [JSON.stringify] writes for a
    [DataFile] parses back to it.  The file system holds this one file and is
    touched by the store only.  [fs.access] rejects when the file is absent;
    [fs.readFile] rejects when the file is absent, and otherwise reads the
    content or rejects, as the [Disk] has it; [fs.mkdir] succeeds or rejects,
    and [fs.writeFile] replaces the content or rejects, as the [Disk] has it.
    A statement that names no disk is about the [reliable] one, on which no
    call is rejected but for an absent file. *)

Inductive WheelStoreErrorCode := NO_ITEMS | DATA_CORRUPT.

(** The calls of the [fs] module the store makes. *)
Inductive FsCall := Mkdir | Access | ReadFile | WriteFile.

Inductive Thrown :=
| WheelStoreError (code : WheelStoreErrorCode)
| FsError (call : FsCall)   (* the rejection of an [fs] call *)
| TypeError      (* a property read on [undefined]; an argument of the wrong type *)
| RangeError.    (* an argument out of range *)

Inductive Result (A : Type) :=
| Returned (a : A)
| Threw (e : Thrown).
Arguments Returned {A} a.
Arguments Threw {A} e.

Inductive FileContent :=
| Json (data : DataFile)
| Unparseable.

(** [dataFileInitialization] is [null], or the promise of the one
    initialization, with the way it settled. *)
Record World := mkWorld {
  file : option FileContent;
  dataFileInitialization : option (Result unit);
}.

(** An [async] function body: [await] is sequencing (the serial queue, below,
    runs one body at a time). *)
Definition Async (A : Type) : Type := World -> Result A * World.

Definition ret {A} (a : A) : Async A := fun w => (Returned a, w).

Definition throw {A} (e : Thrown) : Async A := fun w => (Threw e, w).

Definition bind {A B} (m : Async A) (k : A -> Async B) : Async B :=
  fun w => match m w with
           | (Returned a, w') => k a w'
           | (Threw e, w') => (Threw e, w')
           end.

Definition try_catch {A} (m : Async A) (handler : Async A) : Async A :=
  fun w => match m w with
           | (Returned a, w') => (Returned a, w')
           | (Threw _, w') => handler w'
           end.

#[export] Instance Async_ret : MRet Async := @ret.
#[export] Instance Async_bind : MBind Async := fun A B k m => bind m k.

(** What a rejected [fs.writeFile] has left of the file: the file as it was,
    a content cut short (which does not parse), or the whole new content. *)
Inductive Leftover := Untouched | CutShort | Written.

Inductive Write :=
| Fulfils
| Rejects (left : Leftover).

(** What the file system does at the calls of the store: whether [fs.mkdir],
    line 43, and [fs.readFile] of a file that exists, line 58, are rejected,
    and what becomes of the two [fs.writeFile] calls, the one of the
    initialization, line 48, and the one of [writeDataFile], line 69. *)
Class Disk := mkDisk {
  mkdirRejects : bool;
  readRejects : bool;
  initialWrite : Write;
  dataWrite : Write;
}.

#[export] Instance reliable : Disk := mkDisk false false Fulfils Fulfils.

Definition fs_mkdir {disk : Disk} : Async unit :=
  if mkdirRejects then throw (FsError Mkdir) else ret tt.

Definition fs_access : Async unit :=
  fun w => match file w with
           | Some _ => (Returned tt, w)
           | None => (Threw (FsError Access), w)
           end.

Definition fs_readFile {disk : Disk} : Async FileContent :=
  fun w => match file w with
           | Some content =>
               if readRejects then (Threw (FsError ReadFile), w)
               else (Returned content, w)
           | None => (Threw (FsError ReadFile), w)
           end.

Definition fs_writeFile (how : Write) (content : FileContent) : Async unit :=
  fun w =>
    match how with
    | Fulfils => (Returned tt, mkWorld (Some content) (dataFileInitialization w))
    | Rejects Untouched => (Threw (FsError WriteFile), w)
    | Rejects CutShort =>
        (Threw (FsError WriteFile),
         mkWorld (Some Unparseable) (dataFileInitialization w))
    | Rejects Written =>
        (Threw (FsError WriteFile),
         mkWorld (Some content) (dataFileInitialization w))
    end.

Definition JSON_stringify (data : DataFile) : FileContent := Json data.

Definition JSON_parse (content : FileContent) : option DataFile :=
  match content with
  | Json data => Some data
  | Unparseable => None
  end.

(** [ensureDataFile()], lines 40-54. *)
Definition ensureDataFile {disk : Disk} : Async unit :=
  fun w =>
    match dataFileInitialization w with
    | None =>
        let '(settled, w') :=
          (fs_mkdir;;
           try_catch fs_access
             (fs_writeFile initialWrite (JSON_stringify (mkDataFile [])))) w in
        (settled, mkWorld (file w') (Some settled))
    | Some settled => (settled, w)
    end.

(** [readDataFile()], lines 56-65. *)
Definition readDataFile {disk : Disk} : Async DataFile :=
  ensureDataFile;;
  content ← fs_readFile;
  match JSON_parse content with
  | Some data => ret data
  | None => throw (WheelStoreError DATA_CORRUPT)
  end.

(** [writeDataFile(data)], lines 67-70. *)
Definition writeDataFile {disk : Disk} (data : DataFile) : Async unit :=
  ensureDataFile;;
  fs_writeFile dataWrite (JSON_stringify data).

(** ** The wheel repository

    Each mutation below is the body its method hands to [runSerial]. *)

Definition MAX_SPIN_HISTORY : nat := 20.

(** What one operation draws from its environment: the instant
    [new Date().toISOString()] returns, the results of its [nanoid()] calls in
    order, and the integer [generated] by the random source behind
    [randomInt] for a bound that [randomInt] accepts. *)
Record Env := mkEnv {
  now : string;
  nanoid : nat -> string;
  generated : number -> Z;
}.

(** The widest range [crypto.randomInt] draws from: [0xFFFF_FFFF_FFFF]. *)
Definition RAND_MAX : Z := 2 ^ 48 - 1.

(** The call [randomInt(max)] of line 211, with the argument checks of Node's
    [crypto.randomInt] (the minimum is 0): a [max] that is not a safe integer
    is rejected with a [TypeError] ([ERR_INVALID_ARG_TYPE]), a [max] that is
    not above the minimum or that is above [RAND_MAX] with a [RangeError]
    ([ERR_OUT_OF_RANGE]); otherwise the generator is asked. *)
Definition randomInt (env : Env) (max : number) : Result Z :=
  if negb (JS.isSafeInteger max) then Threw TypeError
  else if JS.le max (JS.of_Z 0) then Threw RangeError
  else if negb (JS.le max (JS.of_Z RAND_MAX)) then Threw RangeError
  else Returned (generated env max).

(** [array.findIndex(p)], with [None] for [-1]. *)
Fixpoint findIndex {A} (p : A -> bool) (l : list A) : option nat :=
  match l with
  | [] => None
  | x :: rest => if p x then Some 0%nat else S <$> findIndex p rest
  end.

(** [list.items.reduce((sum, item) => sum + item.weight, 0)], line 206. *)
Definition totalWeight (items : list WheelItem) : number :=
  fold_left (fun sum item => JS.add sum (item_weight item)) items (JS.of_Z 0).

(** The [for ... of] loop of lines 215-221, from a value of [running]:
    [selected] when the loop ends. *)
Fixpoint scan (target running : number) (items : list WheelItem) : option WheelItem :=
  match items with
  | [] => None
  | item :: rest =>
      let running := JS.add running (item_weight item) in
      if JS.lt target running then Some item else scan target running rest
  end.

(** Lines 212-221. *)
Definition select (target : number) (items : list WheelItem) : option WheelItem :=
  scan target (JS.of_Z 0) items.

(** [selected ?? list.items[list.items.length - 1]], line 223. *)
Definition choose (target : number) (items : list WheelItem) : option WheelItem :=
  match select target items with
  | Some item => Some item
  | None => last items
  end.

(** [getLists()], lines 126-129. *)
Definition getLists {disk : Disk} : Async (list WheelList) :=
  data ← readDataFile;
  ret (lists data).

(** [getList(id)], lines 131-134. *)
Definition getList {disk : Disk} (id : string) : Async (option WheelList) :=
  data ← readDataFile;
  ret (List.find (fun list => String.eqb (list_id list) id) (lists data)).

(** The object literal of lines 139-147. *)
Definition newList (env : Env) (payload : CreateListPayload) : WheelList :=
  {| list_id := nanoid env 0;
     list_name := sanitizeName (Some (create_name payload));
     list_description := sanitizeDescription (create_description payload);
     list_items := fst (normalizeItems (nanoid env) 1 (JS.nullish (create_items payload) []));
     list_spins := [];
     list_createdAt := now env;
     list_updatedAt := now env |}.

(** [createList(payload)], lines 136-154. *)
Definition createList {disk : Disk} (env : Env) (payload : CreateListPayload)
    : Async WheelList :=
  let list := newList env payload in
  data ← readDataFile;
  let data := mkDataFile (lists data ++ [list]) in
  writeDataFile data;;
  ret list.

(** The object literal of lines 165-171: the spread of [list], then the four
    fields written after it. *)
Definition updatedList (env : Env) (payload : UpdateListPayload) (list : WheelList)
    : WheelList :=
  {| list_id := list_id list;
     list_name := match update_name payload with
                  | Some _ => sanitizeName (update_name payload)
                  | None => list_name list
                  end;
     list_description := match update_description payload with
                         | Some _ => sanitizeDescription (update_description payload)
                         | None => list_description list
                         end;
     list_items := match update_items payload with
                   | Some items => fst (normalizeItems (nanoid env) 0 items)
                   | None => list_items list
                   end;
     list_spins := list_spins list;
     list_createdAt := list_createdAt list;
     list_updatedAt := now env |}.

(** [updateList(id, payload)], lines 156-177. *)
Definition updateList {disk : Disk} (env : Env) (id : string)
    (payload : UpdateListPayload) : Async (option WheelList) :=
  data ← readDataFile;
  match findIndex (fun list => String.eqb (list_id list) id) (lists data) with
  | None => ret None
  | Some index =>
      match lists data !! index with
      | None => throw TypeError
      | Some list =>
          let updated := updatedList env payload list in
          let data := mkDataFile (<[index := updated]> (lists data)) in
          writeDataFile data;;
          ret (Some updated)
      end
  end.

(** [deleteList(id)], lines 179-191. *)
Definition deleteList {disk : Disk} (id : string) : Async bool :=
  data ← readDataFile;
  let nextLists := List.filter (fun list => negb (String.eqb (list_id list) id)) (lists data) in
  let changed := negb (length nextLists =? length (lists data))%nat in
  if negb changed then ret false
  else
    writeDataFile (mkDataFile nextLists);;
    ret true.

(** The object literal of lines 225-230. *)
Definition spinOf (env : Env) (chosen : WheelItem) (timestamp : string) : SpinResult :=
  {| spin_id := nanoid env 0;
     spin_itemId := item_id chosen;
     spin_label := item_label chosen;
     spin_timestamp := timestamp |}.

(** The object literal of lines 232-236: the spread of [list], then [spins]
    and [updatedAt]. *)
Definition withSpin (list : WheelList) (spin : SpinResult) (timestamp : string) : WheelList :=
  {| list_id := list_id list;
     list_name := list_name list;
     list_description := list_description list;
     list_items := list_items list;
     list_spins := take MAX_SPIN_HISTORY (spin :: list_spins list);
     list_createdAt := list_createdAt list;
     list_updatedAt := timestamp |}.

(** [recordSpin(id)], lines 193-242. *)
Definition recordSpin {disk : Disk} (env : Env) (id : string)
    : Async (option SpinResult) :=
  data ← readDataFile;
  match findIndex (fun list => String.eqb (list_id list) id) (lists data) with
  | None => ret None
  | Some index =>
      match lists data !! index with
      | None => throw TypeError
      | Some list =>
          if (length (list_items list) =? 0)%nat then throw (WheelStoreError NO_ITEMS)
          else
            let totalWeight := totalWeight (list_items list) in
            if JS.le totalWeight (JS.of_Z 0) then throw (WheelStoreError NO_ITEMS)
            else
              match randomInt env totalWeight with
              | Threw error => throw error
              | Returned drawn =>
                  let target := JS.of_Z drawn in
                  match choose target (list_items list) with
                  | None => throw TypeError
                  | Some chosen =>
                      let timestamp := now env in
                      let spin := spinOf env chosen timestamp in
                      let updated := withSpin list spin timestamp in
                      let data := mkDataFile (<[index := updated]> (lists data)) in
                      writeDataFile data;;
                      ret (Some spin)
                  end
              end
      end
  end.

(** ** The serialization queue

    A promise is modelled by the instant it settles and the way it settles;
    instants are ticks of the event loop.  [began] is the instant the
    computation that settles the promise was started.  An [async] function is
    modelled by what a call at a given instant leads to: the instant its
    promise settles, and how. *)
Module Queue.

Record Promise (T : Type) := mkPromise {
  began : nat;
  settled : nat;
  outcome : Result T;
}.
Arguments mkPromise {T} _ _ _.
Arguments began {T} _.
Arguments settled {T} _.
Arguments outcome {T} _.

Definition Operation (T : Type) : Type := nat -> nat * Result T.

(** [Promise.resolve()] *)
Definition Promise_resolve : Promise unit := mkPromise 0 0 (Returned tt).

(** [p.then(onFulfilled, onRejected)] called at instant [at_]: the handler
    that matches the outcome of [p] is called once [p] has settled, and the
    promise returned follows the promise of that call. *)
Definition then_ {A B} (at_ : nat) (p : Promise A)
    (onFulfilled : A -> Operation B) (onRejected : Thrown -> Operation B) : Promise B :=
  let start := Nat.max at_ (settled p) in
  let '(finish, result) :=
    match outcome p with
    | Returned a => onFulfilled a start
    | Threw e => onRejected e start
    end in
  mkPromise start finish result.

(** [() => undefined] *)
Definition undefined : Operation unit := fun start => (start, Returned tt).

(** [runSerial(operation)], lines 117-124, called at instant [at_] on the
    value of [this.queue]: the promise returned and the new [this.queue]. *)
Definition runSerial {T} (at_ : nat) (operation : Operation T) (queue : Promise unit)
    : Promise T * Promise unit :=
  let next := then_ at_ queue (fun _ => operation) (fun _ => operation) in
  let queue := then_ at_ next (fun _ => undefined) (fun _ => undefined) in
  (next, queue).

(** A sequence of [runSerial] calls on one store, each with the instant of
    the call: the promises returned, in the order of the calls. *)
Fixpoint runAll {T} (calls : list (nat * Operation T)) (queue : Promise unit)
    : list (Promise T) :=
  match calls with
  | [] => []
  | (at_, operation) :: rest =>
      let '(next, queue) := runSerial at_ operation queue in
      next :: runAll rest queue
  end.

(** An operation does not settle before it is called. *)
Definition causal {T} (operation : Operation T) : Prop :=
  forall start, (start <= fst (operation start))%nat.

(** The computation behind [p] is under way at instant [t]. *)
Definition running {T} (p : Promise T) (t : nat) : Prop :=
  (began p <= t < settled p)%nat.

End Queue.

(** ** Notions the properties are stated with *)

(** The lists of the persisted document; an absent file stands for the
    document [ensureDataFile] would create. *)
Definition document (w : World) : list WheelList :=
  match file w with
  | Some (Json data) => lists data
  | _ => []
  end.

(** The world once the document [data] has been read or written. *)
Definition stored (data : DataFile) : World :=
  mkWorld (Some (Json data)) (Some (Returned tt)).

(** The file holds the document [data] and the initialization has not failed. *)
Definition holds (w : World) (data : DataFile) : Prop :=
  file w = Some (Json data) /\
  (dataFileInitialization w = None \/ dataFileInitialization w = Some (Returned tt)).

(** [list] is the first list of [ls] with the id [id], at index [i]. *)
Definition first_match (id : string) (ls : list WheelList) (i : nat) (list : WheelList) : Prop :=
  ls !! i = Some list /\ list_id list = id /\
  forall j other, (j < i)%nat -> ls !! j = Some other -> list_id other <> id.

Definition sumZ (ws : list Z) : Z := fold_right Z.add 0 ws.

(** The cumulative weight of the items before index [i]. *)
Definition cumulative (ws : list Z) (i : nat) : Z := sumZ (take i ws).

(** [t] falls in the bucket of the item at index [i]. *)
Definition bucket (ws : list Z) (t : Z) (i : nat) : Prop :=
  (i < length ws)%nat /\ cumulative ws i <= t < cumulative ws (S i).

(** Integral weights whose magnitudes add up to at most 2^53.  Every sum of
    some of them is an integer of magnitude at most 2^53, hence a binary64
    value: the [+] of the code adds such weights without rounding, as
    [JS.add] does, in whatever order. *)
Definition exactSums (ws : list Z) : Prop := sumZ (Z.abs <$> ws) <= 2 ^ 53.

(** The code adds [weight] to [running] without rounding: of two finite
    values, both and their sum are binary64 values.  An infinity or a NaN on
    either side is added as [JS.add] adds it. *)
Definition exactAdd (running weight : number) : Prop :=
  match running, weight with
  | JS.Fin r, JS.Fin q => JS.binary64 q /\ JS.binary64 (r + q)
  | _, _ => True
  end.

(** Every sum that line 206 and the loop of lines 215-221 compute over
    [items], from the value [running], is computed without rounding. *)
Fixpoint exactFrom (running : number) (items : list WheelItem) : Prop :=
  match items with
  | [] => True
  | item :: rest =>
      exactAdd running (item_weight item) /\
      exactFrom (JS.add running (item_weight item)) rest
  end.

Definition exactWeights (items : list WheelItem) : Prop :=
  exactFrom (JS.of_Z 0) items.

(** The number of entries without an id among [items]. *)
Definition idless (items : list RawItemInput) : nat :=
  length (List.filter (fun item => match raw_id item with None => true | Some _ => false end) items).

(** The entries [normalizeItems] keeps. *)
Definition survivors (items : list RawItemInput) : list RawItemInput :=
  List.filter (fun item => negb (falsy (trim (raw_label item)))) items.

(** The mutations of the repository, each with what it draws from its
    environment. *)
Inductive Mutation :=
| CreateList (env : Env) (payload : CreateListPayload)
| UpdateList (env : Env) (id : string) (payload : UpdateListPayload)
| DeleteList (id : string)
| RecordSpin (env : Env) (id : string).

(** Whether the mutation threw, and the world it leaves. *)
Definition apply {disk : Disk} (m : Mutation) (w : World) : option Thrown * World :=
  let thrown {A} (r : Result A) := match r with Returned _ => None | Threw e => Some e end in
  match m with
  | CreateList env payload => let '(r, w') := createList env payload w in (thrown r, w')
  | UpdateList env id payload => let '(r, w') := updateList env id payload w in (thrown r, w')
  | DeleteList id => let '(r, w') := deleteList id w in (thrown r, w')
  | RecordSpin env id => let '(r, w') := recordSpin env id w in (thrown r, w')
  end.

(** The complete spin log of every list, newest first, kept beside the
    document: what each mutation adds to it, on the [reliable] disk. *)
Fixpoint forget (id : string) (ls : list WheelList) (h : list (list SpinResult))
    : list (list SpinResult) :=
  match ls, h with
  | list :: ls', log :: h' =>
      if String.eqb (list_id list) id then forget id ls' h' else log :: forget id ls' h'
  | _, _ => []
  end.

Definition record (m : Mutation) (w : World) (h : list (list SpinResult))
    : list (list SpinResult) :=
  match m with
  | CreateList env payload =>
      match fst (createList env payload w) with
      | Returned _ => h ++ [[]]
      | Threw _ => h
      end
  | UpdateList _ _ _ => h
  | DeleteList id =>
      match fst (deleteList id w) with
      | Returned true => forget id (document w) h
      | _ => h
      end
  | RecordSpin env id =>
      match fst (recordSpin env id w),
            findIndex (fun list => String.eqb (list_id list) id) (document w) with
      | Returned (Some spin), Some index => alter (cons spin) index h
      | _, _ => h
      end
  end.

(** The spins a list holds are the [MAX_SPIN_HISTORY] newest of its log. *)
Definition logged (wheel : WheelList) (log : list SpinResult) : Prop :=
  list_spins wheel = take MAX_SPIN_HISTORY log.

(** The worlds a store reaches from an absent data file on the [reliable]
    disk, by mutations and restarts of the process, each with the complete
    spin logs. *)
Inductive traced : World -> list (list SpinResult) -> Prop :=
| traced_start : traced (mkWorld None None) []
| traced_restart w h : traced w h -> traced (mkWorld (file w) None) h
| traced_apply m w h : traced w h -> traced (snd (apply m w)) (record m w h).

(** ** Sample data *)

Definition sampleEnv (draw : Z) : Env :=
  mkEnv "2024-05-01T10:00:00.000Z"%string
        (fun k => String (ascii_of_nat (48 + k)) EmptyString)
        (fun _ => draw).

Definition red : WheelItem := mkWheelItem "a"%string "Red"%string (JS.of_Z 1).
Definition blue : WheelItem := mkWheelItem "b"%string "Blue"%string (JS.of_Z 3).

Definition sampleList (items : list WheelItem) : WheelList :=
  mkWheelList "L"%string "Colors"%string None items []
              "2024-04-30T09:00:00.000Z"%string "2024-04-30T09:00:00.000Z"%string.

Definition sampleData (items : list WheelItem) : DataFile :=
  mkDataFile [sampleList items].

(** The [k]-th of a row of spins: its instant and its spin id are [k] written
    as a code unit, and its draw is 0. *)
Definition spinEnv (k : nat) : Env :=
  mkEnv (String (ascii_of_nat k) EmptyString)
        (fun _ => String (ascii_of_nat k) EmptyString)
        (fun _ => 0).

(** The spins numbered [k], [k + 1], ... [k + n - 1] on the list ["L"]. *)
Fixpoint spinRow (n k : nat) (w : World) : World :=
  match n with
  | O => w
  | S n' => spinRow n' (S k) (snd (recordSpin (spinEnv k) "L"%string w))
  end.

(** A list created on an absent file, then spun once. *)
Definition samplePayload : CreateListPayload :=
  mkCreateListPayload "Colors"%string None
    (Some [mkRawItemInput None "Red"%string None;
           mkRawItemInput None "Blue"%string (Some (JS.of_Z 2))]).

Definition sampleTrace : list Mutation :=
  [CreateList (sampleEnv 0) samplePayload; RecordSpin (sampleEnv 1) "0"%string].

Definition sampleWorld : World :=
  fold_left (fun w m => snd (apply m w)) sampleTrace (mkWorld None None).

Definition sampleLog : list (list SpinResult) :=
  snd (fold_left (fun '(w, h) m => (snd (apply m w), record m w h)) sampleTrace
         (mkWorld None None, [])).

(** A failing operation of 3 ticks called at instant 0, and a succeeding one
    of 2 ticks called at instant 1. *)
Definition sampleCalls : list (nat * Queue.Operation bool) :=
  [(0%nat, fun start => ((start + 3)%nat, Threw (WheelStoreError NO_ITEMS)));
   (1%nat, fun start => ((start + 2)%nat, Returned true))].

(** ** Normalized documents *)

(** An item as [normalizeItems] makes them: an integral weight that is at
    least 1 and a label that trimming leaves as it is and that is not empty. *)
Definition normalizedItem (item : WheelItem) : Prop :=
  (exists k : Z, item_weight item = JS.of_Z k /\ 1 <= k) /\
  trim (item_label item) = item_label item /\
  item_label item <> EmptyString.

(** A list as [createList] and [updateList] make them. *)
Definition normalizedList (wheel : WheelList) : Prop :=
  Forall normalizedItem (list_items wheel) /\
  trim (list_name wheel) = list_name wheel /\
  list_name wheel <> EmptyString /\
  (forall d, list_description wheel = Some d -> trim d = d /\ d <> EmptyString).

(** The value of [this.queue] after a sequence of [runSerial] calls. *)
Fixpoint queueAfter {T} (calls : list (nat * Queue.Operation T))
    (queue : Queue.Promise unit) : Queue.Promise unit :=
  match calls with
  | [] => queue
  | (at_, operation) :: rest =>
      queueAfter rest (snd (Queue.runSerial at_ operation queue))
  end.

(** ** The second store variant: list construction and selection

    The object literals and the selection loop of the second [WheelStore]
    (lines 296-408), as far as they differ from the primary store. *)
Module VariantStore.

(** [payload.name.trim() || 'Untitled wheel'], line 310. *)
Definition createName (name : string) : string :=
  if falsy (trim name) then "Untitled wheel"%string else trim name.

(** Lines 309 and 314, and lines 335-337 for a supplied description:
    [description.length ? description : undefined] with
    [description = payload.description?.trim() ?? '']. *)
Definition cleanDescription (description : option string) : option string :=
  let trimmed := JS.nullish (trim <$> description) EmptyString in
  if (0 <? String.length trimmed)%nat then Some trimmed else None.

(** The object literal of lines 311-319. *)
Definition newList (env : Env) (payload : CreateListPayload) : WheelList :=
  {| list_id := nanoid env 0;
     list_name := createName (create_name payload);
     list_description := cleanDescription (create_description payload);
     list_items := Variant.normalizeItems (nanoid env) 1 (JS.nullish (create_items payload) []);
     list_spins := [];
     list_createdAt := now env;
     list_updatedAt := now env |}.

(** [payload.name ? payload.name.trim() || 'Untitled wheel' : list.name],
    line 339: an empty name is falsy. *)
Definition updatedName (name : option string) (old : string) : string :=
  match name with
  | Some supplied => if falsy supplied then old else createName supplied
  | None => old
  end.

(** The object literal of lines 340-346. *)
Definition updatedList (env : Env) (payload : UpdateListPayload) (wheel : WheelList)
    : WheelList :=
  {| list_id := list_id wheel;
     list_name := updatedName (update_name payload) (list_name wheel);
     list_description := match update_description payload with
                         | Some _ => cleanDescription (update_description payload)
                         | None => list_description wheel
                         end;
     list_items := match update_items payload with
                   | Some items => Variant.normalizeItems (nanoid env) 0 items
                   | None => list_items wheel
                   end;
     list_spins := list_spins wheel;
     list_createdAt := list_createdAt wheel;
     list_updatedAt := now env |}.

(** The [for ... of] loop of lines 382-388: [target <= running]. *)
Fixpoint scan (target running : number) (items : list WheelItem) : option WheelItem :=
  match items with
  | [] => None
  | item :: rest =>
      let running := JS.add running (item_weight item) in
      if JS.le target running then Some item else scan target running rest
  end.

(** Lines 379-388. *)
Definition select (target : number) (items : list WheelItem) : option WheelItem :=
  scan target (JS.of_Z 0) items.

End VariantStore.

(** ** The HTTP routes ([routes/lists.ts]) and the error handler ([index.ts]) *)
Module Routes.

(** What a response carries: the value given to [res.json], or nothing. *)
Inductive Body :=
| JsonLists (ls : list WheelList)
| JsonList (wheel : WheelList)
| JsonSpin (spin : SpinResult)
| JsonMessage (message : string)
| JsonErrorMessage (error : Thrown)   (* [{ message: error.message }] *)
| Empty.

(** [res.status(code).json(body)]; [res.json] alone answers 200. *)
Record Response := mkResponse {
  status : nat;
  body : Body;
}.

(** The body of [POST /]: [name] may be missing before it is checked. *)
Record CreateBody := mkCreateBody {
  body_name : option string;
  body_description : option string;
  body_items : option (list RawItemInput);
}.

Inductive Request :=
| GetLists
| PostList (env : Env) (payload : option CreateBody)
| GetList (id : string)
| PutList (env : Env) (id : string) (payload : UpdateListPayload)
| DeleteList (id : string)
| PostSpin (env : Env) (id : string).

(** The error-handling middleware of [index.ts], lines 21-30, where
    [next(error)] ends. *)
Definition errorHandler (err : Thrown) : Response :=
  match err with
  | WheelStoreError DATA_CORRUPT =>
      mkResponse 500
        (JsonMessage "Stored wheel data is temporarily unavailable. Please try again later."%string)
  | _ => mkResponse 500 (JsonMessage "Unexpected server error"%string)
  end.

(** [try { const value = await call; ... } catch (error) { next(error) }] *)
Definition answer {A} (call : Async A) (respond : A -> Response) : World -> Response * World :=
  fun w => match call w with
           | (Returned value, w') => (respond value, w')
           | (Threw error, w') => (errorHandler error, w')
           end.

Definition notFound : Response := mkResponse 404 (JsonMessage "List not found"%string).

(** The six handlers of [listsRouter], lines 7-91. *)
Definition handle {disk : Disk} (request : Request) : World -> Response * World :=
  match request with
  | GetLists =>
      answer getLists (fun ls => mkResponse 200 (JsonLists ls))
  | PostList env payload =>
      match payload with
      | Some (mkCreateBody (Some name) description items) =>
          if falsy name || (String.length (trim name) =? 0)%nat
          then fun w => (mkResponse 400 (JsonMessage "Name is required"%string), w)
          else answer (createList env (mkCreateListPayload name description items))
                 (fun wheel => mkResponse 201 (JsonList wheel))
      | _ => fun w => (mkResponse 400 (JsonMessage "Name is required"%string), w)
      end
  | GetList id =>
      answer (getList id)
        (fun found => match found with
                      | None => notFound
                      | Some wheel => mkResponse 200 (JsonList wheel)
                      end)
  | PutList env id payload =>
      answer (updateList env id payload)
        (fun updated => match updated with
                        | None => notFound
                        | Some wheel => mkResponse 200 (JsonList wheel)
                        end)
  | DeleteList id =>
      answer (deleteList id)
        (fun deleted => if deleted then mkResponse 204 Empty else notFound)
  | PostSpin env id =>
      fun w => match recordSpin env id w with
               | (Returned None, w') => (notFound, w')
               | (Returned (Some spin), w') => (mkResponse 201 (JsonSpin spin), w')
               | (Threw (WheelStoreError NO_ITEMS), w') =>
                   (mkResponse 400 (JsonErrorMessage (WheelStoreError NO_ITEMS)), w')
               | (Threw error, w') => (errorHandler error, w')
               end
  end.

End Routes.

(** ** The workspace of the client ([ListWorkspace.tsx]) *)
Module Workspace.

(** [EditableItem], lines 13-17. *)
Record EditableItem := mkEditableItem {
  edit_id : option string;
  edit_label : string;
  edit_weight : number;
}.

Definition MIN_WEIGHT : number := JS.of_Z 1.

(** [sanitizeWeight(weight)], lines 21-26. *)
Definition sanitizeWeight (weight : number) : number :=
  if negb (JS.isFinite weight) then MIN_WEIGHT
  else JS.max MIN_WEIGHT (JS.round weight).

(** What [prepareItems] keeps of an item, lines 36-40. *)
Record PreparedItem := mkPreparedItem {
  prepared_id : option string;
  prepared_label : string;
  prepared_weight : number;
}.

(** [prepareItems(items)], lines 28-43: [null] for a blank label, then the
    filter that drops the [null]s. *)
Definition prepareItems (items : list EditableItem) : list PreparedItem :=
  omap (fun item =>
          let label := trim (edit_label item) in
          if falsy label then None
          else Some (mkPreparedItem (edit_id item) label (sanitizeWeight (edit_weight item))))
       items.

(** [sanitizeNameInput(value)], lines 45-48. *)
Definition sanitizeNameInput (value : string) : string :=
  let trimmed := trim value in
  if (0 <? String.length trimmed)%nat then trimmed else "Untitled wheel"%string.

(** [sanitizeDescriptionInput(value)], lines 50-53. *)
Definition sanitizeDescriptionInput (value : string) : option string :=
  let trimmed := trim value in
  if (0 <? String.length trimmed)%nat then Some trimmed else None.

(** [x === y] on numbers: NaN equals nothing. *)
Definition number_eq (x y : number) : bool :=
  match x, y with
  | JS.Fin p, JS.Fin q => Qeq_bool p q
  | JS.PosInf, JS.PosInf | JS.NegInf, JS.NegInf => true
  | _, _ => false
  end.

(** [x === y] on strings that may be [undefined]. *)
Definition optional_eq (x y : option string) : bool :=
  match x, y with
  | Some a, Some b => String.eqb a b
  | None, None => true
  | _, _ => false
  end.

(** The fields the component keeps of the form, lines 56-58. *)
Record Form := mkForm {
  form_items : list EditableItem;
  form_name : string;
  form_description : string;
}.

(** [hasChanges], lines 67-76.  The [some] callback reads [list.items[index]]
    for the indices of [preparedItems]; it runs only when the two lengths are
    equal, and pairs the items of the same index. *)
Definition hasChanges (current : option WheelList) (form : Form) : bool :=
  match current with
  | None => false
  | Some wheel =>
      let preparedItems := prepareItems (form_items form) in
      if negb (length preparedItems =? length (list_items wheel))%nat then true
      else if negb (String.eqb (list_name wheel) (sanitizeNameInput (form_name form))) then true
      else if negb (optional_eq (list_description wheel)
                      (sanitizeDescriptionInput (form_description form))) then true
      else
        existsb (fun '(item, original) =>
                   negb (String.eqb (item_label original) (prepared_label item)) ||
                   negb (number_eq (item_weight original) (prepared_weight item)))
                (zip preparedItems (list_items wheel))
  end.

(** [syncFromList(current)], lines 78-83: the form it sets. *)
Definition syncFromList (current : option WheelList) : Form :=
  match current with
  | None => mkForm [] EmptyString EmptyString
  | Some wheel =>
      mkForm ((fun item => mkEditableItem (Some (item_id item)) (item_label item)
                             (item_weight item)) <$> list_items wheel)
             (list_name wheel)
             (JS.nullish (list_description wheel) EmptyString)
  end.

(** The payload of [handleSave], lines 93-97, as the server receives it. *)
Definition savePayload (form : Form) : UpdateListPayload :=
  mkUpdateListPayload
    (Some (sanitizeNameInput (form_name form)))
    (sanitizeDescriptionInput (form_description form))
    (Some ((fun item => mkRawItemInput (prepared_id item) (prepared_label item)
                          (Some (prepared_weight item)))
             <$> prepareItems (form_items form))).

(** The list [handleSpin] hands to [onListChange], lines 143-147. *)
Definition afterSpin (wheel : WheelList) (result : SpinResult) : WheelList :=
  {| list_id := list_id wheel;
     list_name := list_name wheel;
     list_description := list_description wheel;
     list_items := list_items wheel;
     list_spins := take 20 (result :: list_spins wheel);
     list_createdAt := list_createdAt wheel;
     list_updatedAt := spin_timestamp result |}.

End Workspace.

(** ** The state of the client application ([App.tsx], [ListsSidebar.tsx]) *)
Module App.

(** The [lists] and [selectedId] states of [App]. *)
Record State := mkState {
  lists : list WheelList;
  selectedId : option string;
}.

Definition initial : State := mkState [] None.

(** [!selectedId] *)
Definition unset (selected : option string) : bool :=
  match selected with
  | None => true
  | Some id => falsy id
  end.

Definition firstId (ls : list WheelList) : option string := list_id <$> head ls.

(** What the user and the server make happen to the state.  [load] runs in
    the effect of the first render, so the [selectedId] it tests is the one
    of that render, the initial one. *)
Inductive Event :=
| Loaded (data : list WheelList)      (* [load()], lines 14-30 of [App] *)
| Selected (index : nat)              (* a click on the list at [index] *)
| Created (created : WheelList)       (* [handleCreate] of the sidebar *)
| Changed (updated : WheelList)       (* [onListChange] *)
| Deleted (id : string).              (* [onListDelete] and [handleDelete] *)

Definition step (st : State) (event : Event) : State :=
  match event with
  | Loaded data =>
      mkState data
        (if unset (selectedId initial) && negb (length data =? 0)%nat
         then firstId data else selectedId st)
  | Selected index =>
      match lists st !! index with
      | Some wheel => mkState (lists st) (Some (list_id wheel))
      | None => st
      end
  | Created created =>
      mkState (created :: lists st) (Some (list_id created))
  | Changed updated =>
      mkState ((fun wheel => if String.eqb (list_id wheel) (list_id updated)
                             then updated else wheel) <$> lists st)
              (selectedId st)
  | Deleted id =>
      let next := List.filter (fun wheel => negb (String.eqb (list_id wheel) id)) (lists st) in
      mkState next
        (match selectedId st with
         | Some selected => if String.eqb selected id then firstId next else Some selected
         | None => None
         end)
  end.

(** [lists.find((list) => list.id === selectedId) ?? null] *)
Definition selectedList (st : State) : option WheelList :=
  match selectedId st with
  | Some id => List.find (fun wheel => String.eqb (list_id wheel) id) (lists st)
  | None => None
  end.

End App.

(** The weights on which the two weight normalizations agree: all but NaN
    and +Infinity. *)
Definition ordinaryWeights (items : list RawItemInput) : Prop :=
  Forall (fun item => raw_weight item <> Some JS.NaN /\ raw_weight item <> Some JS.PosInf) items.

(** ** Evaluations on concrete inputs *)

Example normalizeWeight_missing : normalizeWeight None = JS.of_Z 1.
Proof. reflexivity. Qed.

Example normalizeWeight_half : normalizeWeight (Some (JS.Fin (5 # 2))) = JS.of_Z 3.
Proof. reflexivity. Qed.

Example normalizeWeight_neg : normalizeWeight (Some (JS.Fin (-7 # 2))) = JS.of_Z 1.
Proof. reflexivity. Qed.

Example trim_both : trim "  Red 	"%string = "Red"%string.
Proof. reflexivity. Qed.

Example trim_inner : trim " a b "%string = "a b"%string.
Proof. reflexivity. Qed.

Example normalizeItems_ex :
  normalizeItems (fun k => String (ascii_of_nat (48 + k)) EmptyString) 0
    [mkRawItemInput None " Red "%string None;
     mkRawItemInput None "   "%string (Some (JS.of_Z 9));
     mkRawItemInput (Some "x"%string) "Blue"%string (Some (JS.Fin (5 # 2)));
     mkRawItemInput None "Green"%string (Some JS.NaN)]
  = ([mkWheelItem "0"%string "Red"%string (JS.of_Z 1);
      mkWheelItem "x"%string "Blue"%string (JS.of_Z 3);
      mkWheelItem "1"%string "Green"%string (JS.of_Z 1)], 2%nat).
Proof. reflexivity. Qed.

Example normalizeWeight_infinite :
  normalizeWeight (Some JS.PosInf) = JS.of_Z 1 /\ normalizeWeight (Some JS.NegInf) = JS.of_Z 1.
Proof. split; reflexivity. Qed.

Example sanitize_ex :
  sanitizeName (Some "   "%string) = "Untitled wheel"%string /\
  sanitizeName None = "Untitled wheel"%string /\
  sanitizeDescription (Some "  "%string) = None /\
  sanitizeDescription (Some " pick one "%string) = Some "pick one"%string.
Proof. repeat split. Qed.

(** The round trip of the specification: weights 1 and 2, minted ids, no
    spins, on a file that did not exist. *)
Example createList_ex :
  createList (sampleEnv 0) samplePayload (mkWorld None None)
  = (Returned (newList (sampleEnv 0) samplePayload),
     stored (mkDataFile [newList (sampleEnv 0) samplePayload])) /\
  item_weight <$> list_items (newList (sampleEnv 0) samplePayload) = [JS.of_Z 1; JS.of_Z 2] /\
  item_id <$> list_items (newList (sampleEnv 0) samplePayload) = ["1"%string; "2"%string] /\
  list_spins (newList (sampleEnv 0) samplePayload) = [].
Proof. repeat split. Qed.

(** Weights 1 and 3: the draw 0 selects Red, the draws 1, 2 and 3 select Blue. *)
Example select_ex :
  select (JS.of_Z 0) [red; blue] = Some red /\
  select (JS.of_Z 1) [red; blue] = Some blue /\
  select (JS.of_Z 3) [red; blue] = Some blue /\
  select (JS.of_Z 4) [red; blue] = None /\
  choose (JS.of_Z 4) [red; blue] = Some blue.
Proof. repeat split. Qed.

Example recordSpin_ex :
  fst (recordSpin (sampleEnv 1) "L"%string (stored (sampleData [red; blue])))
  = Returned (Some (mkSpinResult "0"%string "b"%string "Blue"%string
                      "2024-05-01T10:00:00.000Z"%string)) /\
  fst (recordSpin (sampleEnv 1) "M"%string (stored (sampleData [red; blue])))
  = Returned None /\
  recordSpin (sampleEnv 1) "L"%string (stored (sampleData []))
  = (Threw (WheelStoreError NO_ITEMS), stored (sampleData [])) /\
  recordSpin (sampleEnv 1) "L"%string (mkWorld (Some Unparseable) None)
  = (Threw (WheelStoreError DATA_CORRUPT), mkWorld (Some Unparseable) (Some (Returned tt))).
Proof. repeat split. Qed.

Example deleteList_ex :
  deleteList "L"%string (stored (sampleData [red])) = (Returned true, stored (mkDataFile [])) /\
  deleteList "M"%string (stored (sampleData [red])) = (Returned false, stored (sampleData [red])).
Proof. split; reflexivity. Qed.

(** The bounds [randomInt] accepts: safe integers from 1 to 2^48 - 1. *)
Example randomInt_ex :
  randomInt (sampleEnv 2) (JS.of_Z 4) = Returned 2 /\
  randomInt (sampleEnv 2) (JS.of_Z (2 ^ 48 - 1)) = Returned 2 /\
  randomInt (sampleEnv 2) (JS.of_Z (2 ^ 48)) = Threw RangeError /\
  randomInt (sampleEnv 2) (JS.of_Z (2 ^ 53)) = Threw TypeError /\
  randomInt (sampleEnv 2) (JS.Fin (3 # 2)) = Threw TypeError /\
  randomInt (sampleEnv 2) JS.PosInf = Threw TypeError /\
  randomInt (sampleEnv 2) JS.NaN = Threw TypeError.
Proof. repeat split. Qed.

(** A total weight of 1.5, as corrupt persisted data can hold: the guard on
    the total does not fire, [randomInt] throws, and nothing is written. *)
Example recordSpin_fraction :
  let half := mkWheelItem "a"%string "A"%string (JS.Fin (3 # 2)) in
  recordSpin (sampleEnv 0) "L"%string (stored (sampleData [half]))
  = (Threw TypeError, stored (sampleData [half])).
Proof. reflexivity. Qed.

(** Rejected calls.  The write of [deleteList] is rejected before it
    touched the file; the write that creates the file is rejected and leaves
    a content cut short, and the rejection is the one every later call gets;
    a read is rejected once the initialization has created the file. *)
Example rejected_write_ex :
  @deleteList (mkDisk false false Fulfils (Rejects Untouched)) "L"%string (stored (sampleData [red]))
  = (Threw (FsError WriteFile), stored (sampleData [red])) /\
  @getLists (mkDisk false false (Rejects CutShort) Fulfils) (mkWorld None None)
  = (Threw (FsError WriteFile),
     mkWorld (Some Unparseable) (Some (Threw (FsError WriteFile)))) /\
  @getLists (mkDisk false false (Rejects CutShort) Fulfils)
     (mkWorld (Some Unparseable) (Some (Threw (FsError WriteFile))))
  = (Threw (FsError WriteFile),
     mkWorld (Some Unparseable) (Some (Threw (FsError WriteFile)))) /\
  @getLists (mkDisk false true Fulfils Fulfils) (mkWorld None None)
  = (Threw (FsError ReadFile), stored (mkDataFile [])).
Proof. repeat split. Qed.

(** After 22 spins in a row the list holds the 20 newest, newest first. *)
Example spinRow_ex :
  (fun wheel => spin_timestamp <$> list_spins wheel)
    <$> document (spinRow 22 0 (stored (sampleData [red; blue])))
  = [(fun k => String (ascii_of_nat k) EmptyString) <$> rev (seq 2 20)].
Proof. vm_compute. reflexivity. Qed.

(** The rejected operation runs from 0 to 3, the next one from 3 to 5. *)
Example runAll_ex :
  Queue.runAll sampleCalls Queue.Promise_resolve
  = [Queue.mkPromise 0 3 (Threw (WheelStoreError NO_ITEMS));
     Queue.mkPromise 3 5 (Returned true)].
Proof. reflexivity. Qed.

(** ** Arithmetic of integral numbers *)

Lemma Qle_bool_inject_Z (a b : Z) : Qle_bool (inject_Z a) (inject_Z b) = (a <=? b).
Proof. unfold Qle_bool. simpl. now rewrite !Z.mul_1_r. Qed.

Lemma add_of_Z (a b : Z) : JS.add (JS.of_Z a) (JS.of_Z b) = JS.of_Z (a + b).
Proof. unfold JS.of_Z. simpl. now rewrite inject_Z_plus. Qed.

Lemma lt_of_Z (a b : Z) : JS.lt (JS.of_Z a) (JS.of_Z b) = (a <? b).
Proof. unfold JS.of_Z. simpl. now rewrite Qle_bool_inject_Z, Z.ltb_antisym. Qed.

Lemma le_of_Z (a b : Z) : JS.le (JS.of_Z a) (JS.of_Z b) = (a <=? b).
Proof. apply Qle_bool_inject_Z. Qed.

Lemma max_of_Z (a b : Z) : JS.max (JS.of_Z a) (JS.of_Z b) = JS.of_Z (Z.max a b).
Proof.
  unfold JS.of_Z. simpl. rewrite Qle_bool_inject_Z.
  destruct (Z.leb_spec a b); f_equal; f_equal; lia.
Qed.

(** [Math.round] of a finite value is the nearest integer, the upper one on a
    tie. *)
Lemma round_nearest (q : Q) :
  exists r : Z,
    JS.round (JS.Fin q) = JS.of_Z r /\
    (q - (1 # 2) < inject_Z r)%Q /\ (inject_Z r <= q + (1 # 2))%Q.
Proof.
  exists (Qfloor (q + (1 # 2))). split; [reflexivity|]. split.
  - pose proof (Qlt_floor (q + (1 # 2))) as H.
    rewrite inject_Z_plus in H. change (inject_Z 1) with 1%Q in H. lra.
  - apply Qfloor_le.
Qed.

Lemma isSafeInteger_of_Z (z : Z) :
  JS.isSafeInteger (JS.of_Z z) = (Z.abs z <=? 2 ^ 53 - 1).
Proof.
  unfold JS.isSafeInteger, JS.of_Z. rewrite Qfloor_Z.
  now rewrite (proj2 (Qeq_bool_iff _ _) (Qeq_refl _)).
Qed.

(** ** Sums without rounding *)

Lemma binary64_of_Z (z : Z) : Z.abs z <= 2 ^ 53 -> JS.binary64 (inject_Z z).
Proof.
  intros Hz. destruct (Z.eq_dec (Z.abs z) (2 ^ 53)) as [Htop|Hbelow].
  - assert (z = 2 ^ 53 \/ z = - 2 ^ 53) as [->| ->] by lia.
    + exists (2 ^ 52), 1. split; [reflexivity|]. split; [lia|reflexivity].
    + exists (- 2 ^ 52), 1. split; [reflexivity|]. split; [lia|reflexivity].
  - exists z, 0. split; [lia|]. split; [lia|].
    change (Qpower 2 0) with 1%Q. now rewrite Qmult_1_r.
Qed.

Lemma sumZ_abs_nonneg (ws : list Z) : 0 <= sumZ (Z.abs <$> ws).
Proof. unfold sumZ. induction ws as [|w ws IH]; cbn in *; lia. Qed.

Lemma exactFrom_of_Z (items : list WheelItem) :
  forall (ws : list Z) (r : Z),
    item_weight <$> items = JS.of_Z <$> ws ->
    Z.abs r + sumZ (Z.abs <$> ws) <= 2 ^ 53 ->
    exactFrom (JS.of_Z r) items.
Proof.
  induction items as [|item rest IH]; intros [|w ws] r Hw Hbound; try discriminate;
    [exact I|].
  injection Hw as Hw Hrest. cbn [exactFrom]. rewrite Hw.
  pose proof (sumZ_abs_nonneg ws) as Hws.
  change (sumZ (Z.abs <$> w :: ws)) with (Z.abs w + sumZ (Z.abs <$> ws)) in Hbound.
  split.
  - cbn [exactAdd JS.of_Z]. split; [apply binary64_of_Z; lia|].
    rewrite <- inject_Z_plus. apply binary64_of_Z. lia.
  - rewrite add_of_Z. apply (IH ws _ Hrest). lia.
Qed.

(** Integral weights whose magnitudes add up to at most 2^53 are added
    without rounding. *)
Lemma exactSums_exactWeights (items : list WheelItem) (ws : list Z) :
  item_weight <$> items = JS.of_Z <$> ws -> exactSums ws -> exactWeights items.
Proof.
  intros Hw Hsums. apply (exactFrom_of_Z items ws 0 Hw). unfold exactSums in Hsums.
  simpl. lia.
Qed.

(** ** The draw *)

(** What [randomInt] accepts, and what it throws otherwise. *)
Lemma randomInt_cases (env : Env) (max : number) :
  (randomInt env max = Returned (generated env max) /\
   JS.isSafeInteger max = true /\
   JS.le max (JS.of_Z 0) = false /\ JS.le max (JS.of_Z RAND_MAX) = true) \/
  (randomInt env max = Threw TypeError /\ JS.isSafeInteger max = false) \/
  (randomInt env max = Threw RangeError /\
   JS.isSafeInteger max = true /\
   (JS.le max (JS.of_Z 0) = true \/ JS.le max (JS.of_Z RAND_MAX) = false)).
Proof.
  unfold randomInt.
  destruct (JS.isSafeInteger max); cbn [negb]; [|auto].
  destruct (JS.le max (JS.of_Z 0)); [auto 6|].
  destruct (JS.le max (JS.of_Z RAND_MAX)); cbn [negb]; auto 6.
Qed.

(** The draw on an integral bound. *)
Lemma randomInt_of_Z (env : Env) (total : Z) :
  randomInt env (JS.of_Z total)
  = if 2 ^ 53 <=? Z.abs total then Threw TypeError
    else if total <=? 0 then Threw RangeError
    else if RAND_MAX <? total then Threw RangeError
    else Returned (generated env (JS.of_Z total)).
Proof.
  unfold randomInt. rewrite isSafeInteger_of_Z, !le_of_Z.
  destruct (Z.leb_spec (Z.abs total) (2 ^ 53 - 1)), (Z.leb_spec (2 ^ 53) (Z.abs total));
    try lia; cbn [negb]; [|reflexivity].
  destruct (Z.leb_spec total 0); [reflexivity|].
  destruct (Z.leb_spec total RAND_MAX), (Z.ltb_spec RAND_MAX total); try lia; reflexivity.
Qed.

Lemma randomInt_accepts (env : Env) (total : Z) :
  0 < total <= RAND_MAX ->
  randomInt env (JS.of_Z total) = Returned (generated env (JS.of_Z total)).
Proof.
  intros Htotal. rewrite randomInt_of_Z.
  assert (RAND_MAX < 2 ^ 53) by reflexivity.
  destruct (Z.leb_spec (2 ^ 53) (Z.abs total)); [lia|].
  destruct (Z.leb_spec total 0); [lia|].
  destruct (Z.ltb_spec RAND_MAX total); [lia|reflexivity].
Qed.

(** ** The weight clamp *)

Lemma Qfloor_half (k : Z) : Qfloor (inject_Z k + (1 # 2)) = k.
Proof.
  unfold Qfloor, Qplus, inject_Z. cbn [Qnum Qden Pos.mul].
  change (Z.pos (1 * 2)) with 2. rewrite Z.mul_1_l, Z.div_add_l by lia.
  change (1 / 2) with 0. lia.
Qed.

Lemma normalizeWeight_of_Z (k : Z) :
  1 <= k -> normalizeWeight (Some (JS.of_Z k)) = JS.of_Z k.
Proof.
  intros Hk. unfold normalizeWeight, JS.of_Z. cbn [JS.nullish JS.isFinite negb JS.round].
  rewrite Qfloor_half. fold (JS.of_Z 1) (JS.of_Z k). rewrite max_of_Z. f_equal. lia.
Qed.

Lemma normalizeWeight_integral (w : option number) :
  exists k : Z, normalizeWeight w = JS.of_Z k /\ 1 <= k.
Proof.
  destruct w as [[q| | |]|]; try (exists 1; split; [reflexivity|lia]).
  exists (Z.max 1 (Qfloor (q + (1 # 2)))). split; [|lia].
  unfold normalizeWeight. cbn [JS.nullish JS.isFinite negb JS.round]. apply max_of_Z.
Qed.

(** X1. Normalizing a normalized weight changes nothing, whatever the first
    input was. *)
Theorem normalizeWeight_idempotent (w : option number) :
  normalizeWeight (Some (normalizeWeight w)) = normalizeWeight w.
Proof.
  destruct (normalizeWeight_integral w) as (k & -> & Hk). now apply normalizeWeight_of_Z.
Qed.

(** C7. For every input, [normalizeWeight] yields an integer that is at least
    1: a missing weight and a weight that is not finite give 1, and a finite
    weight gives the larger of 1 and its rounding to the nearest integer. *)
Theorem normalizeWeight_clamp (w : option number) :
  exists k : Z,
    normalizeWeight w = JS.of_Z k /\ 1 <= k /\
    (w = None -> k = 1) /\
    (forall x, w = Some x -> JS.isFinite x = false -> k = 1) /\
    (forall q, w = Some (JS.Fin q) ->
       exists r : Z,
         (q - (1 # 2) < inject_Z r)%Q /\ (inject_Z r <= q + (1 # 2))%Q /\
         k = Z.max 1 r).
Proof.
  destruct w as [[q| | |]|].
  - destruct (round_nearest q) as (r & Hr & Hlo & Hhi).
    exists (Z.max 1 r). unfold normalizeWeight. cbn [JS.nullish JS.isFinite negb].
    rewrite Hr, max_of_Z. split; [reflexivity|]. split; [lia|].
    split; [discriminate|]. split.
    + intros x [= <-]. discriminate.
    + intros q' [= <-]. exists r. auto.
  - exists 1. repeat split; try lia; intros; discriminate.
  - exists 1. repeat split; try lia; intros; discriminate.
  - exists 1. repeat split; try lia; intros; discriminate.
  - exists 1. repeat split; try lia; intros; discriminate.
Qed.

(** ** The two weight normalizations *)

(** X4. The second variant's weight expression agrees with [normalizeWeight]
    on every input but NaN and +Infinity: on a missing weight, on every finite
    weight and on -Infinity. *)
Theorem inlineWeight_agrees (w : option number) :
  w <> Some JS.NaN -> w <> Some JS.PosInf ->
  Variant.inlineWeight w = normalizeWeight w.
Proof.
  intros Hnan Hinf. destruct w as [[q| | |]|]; try reflexivity; congruence.
Qed.

Lemma inlineWeight_agrees_witness :
  Variant.inlineWeight (Some (JS.Fin (-7 # 2))) = normalizeWeight (Some (JS.Fin (-7 # 2))).
Proof. apply (inlineWeight_agrees (Some (JS.Fin (-7 # 2)))); discriminate. Defined.

(** C10. The second variant's weight expression differs from
    [normalizeWeight] at NaN and at +Infinity: [normalizeWeight] gives 1 there,
    the variant hands the value on, and its [normalizeItems] stores it as the
    item's weight. *)
Theorem inlineWeight_differs :
  normalizeWeight (Some JS.NaN) = JS.of_Z 1 /\
  Variant.inlineWeight (Some JS.NaN) = JS.NaN /\
  normalizeWeight (Some JS.PosInf) = JS.of_Z 1 /\
  Variant.inlineWeight (Some JS.PosInf) = JS.PosInf /\
  Variant.normalizeItems (fun _ => "n"%string) 0
    [mkRawItemInput None "Red"%string (Some JS.PosInf)]
  = [mkWheelItem "n"%string "Red"%string JS.PosInf].
Proof. repeat split. Qed.

(** ** Trimming *)

Lemma trimStart_head (s : string) :
  trimStart s = EmptyString \/
  exists c rest, trimStart s = String c rest /\ isWhiteSpace c = false.
Proof.
  induction s as [|c rest IH]; simpl; [now left|].
  destruct (isWhiteSpace c) eqn:Hc; [exact IH|]. right. eauto.
Qed.

Lemma trimEnd_head (c : ascii) (rest : string) :
  isWhiteSpace c = false -> exists kept, trimEnd (String c rest) = String c kept.
Proof.
  intros Hc. simpl. destruct (trimEnd rest); [rewrite Hc|]; eauto.
Qed.

Lemma trimEnd_idem (s : string) : trimEnd (trimEnd s) = trimEnd s.
Proof.
  induction s as [|c rest IH]; simpl; [reflexivity|].
  destruct (trimEnd rest) as [|c' kept] eqn:Hrest.
  - destruct (isWhiteSpace c) eqn:Hc; simpl; [reflexivity|now rewrite Hc].
  - change (trimEnd (String c (String c' kept))) with
      (match trimEnd (String c' kept) with
       | EmptyString => if isWhiteSpace c then EmptyString else String c EmptyString
       | t => String c t
       end).
    rewrite IH. reflexivity.
Qed.

(** [trim] strips all there is to strip. *)
Lemma trim_idem (s : string) : trim (trim s) = trim s.
Proof.
  unfold trim. destruct (trimStart_head s) as [H | (c & rest & H & Hc)]; rewrite H.
  - reflexivity.
  - destruct (trimEnd_head c rest Hc) as (kept & Hk). rewrite Hk.
    simpl trimStart. rewrite Hc, <- Hk. apply trimEnd_idem.
Qed.

Lemma falsy_false (s : string) : falsy s = false <-> s <> EmptyString.
Proof. destruct s; simpl; split; congruence. Qed.

(** ** Item normalization *)

(** What [normalizeItems] makes of a surviving entry, when [n] ids have been
    drawn before it. *)
Lemma idless_app (xs ys : list RawItemInput) : idless (xs ++ ys) = (idless xs + idless ys)%nat.
Proof. unfold idless. now rewrite List.filter_app, length_app. Qed.

Lemma idless_take_mono (l : list RawItemInput) (i j : nat) :
  (i <= j)%nat -> (idless (take i l) <= idless (take j l))%nat.
Proof.
  intros Hij. rewrite <- (take_drop i (take j l)), idless_app, take_take.
  replace (i `min` j)%nat with i by lia. lia.
Qed.

Lemma idless_take_S (l : list RawItemInput) (i : nat) (r : RawItemInput) :
  l !! i = Some r -> raw_id r = None ->
  idless (take (S i) l) = S (idless (take i l)).
Proof.
  intros Hl Hr. rewrite (take_S_r _ _ _ Hl), idless_app.
  unfold idless at 2. simpl. rewrite Hr. simpl. lia.
Qed.

Lemma normalizeItems_fold (nanoid : nat -> string) (items : list RawItemInput) :
  forall acc k, exists out,
    fold_left (normalizeItems_step nanoid) items (acc, k)
      = (acc ++ out, (k + idless (survivors items))%nat) /\
    length out = length (survivors items) /\
    forall j r, survivors items !! j = Some r ->
      out !! j = Some
        {| item_id := match raw_id r with
                      | Some supplied => supplied
                      | None => nanoid (k + idless (take j (survivors items)))%nat
                      end;
           item_label := trim (raw_label r);
           item_weight := normalizeWeight (raw_weight r) |}.
Proof.
  induction items as [|item rest IH]; intros acc k.
  - exists []. simpl. rewrite app_nil_r, Nat.add_0_r. repeat split. intros j r H.
    now rewrite lookup_nil in H.
  - cbn [fold_left]. unfold normalizeItems_step at 2, survivors. cbn [List.filter].
    fold (survivors rest).
    destruct (falsy (trim (raw_label item))) eqn:Hlabel; cbn [negb].
    + apply IH.
    + destruct (raw_id item) as [supplied|] eqn:Hid.
      * destruct (IH (acc ++ [mkWheelItem supplied (trim (raw_label item))
                                 (normalizeWeight (raw_weight item))]) k)
          as (out & Hfold & Hlen & Hout).
        eexists (_ :: out). rewrite Hfold, <- app_assoc. cbn [app].
        split; [|split].
        -- f_equal. unfold idless. cbn [List.filter]. now rewrite Hid.
        -- simpl. now rewrite Hlen.
        -- intros [|j] r Hr; simpl in Hr.
           ++ injection Hr as <-. now rewrite Hid.
           ++ rewrite lookup_cons, (Hout j r Hr). cbn [take].
              unfold idless at 2. cbn [List.filter]. rewrite Hid. reflexivity.
      * destruct (IH (acc ++ [mkWheelItem (nanoid k) (trim (raw_label item))
                                 (normalizeWeight (raw_weight item))]) (S k))
          as (out & Hfold & Hlen & Hout).
        eexists (_ :: out). rewrite Hfold, <- app_assoc. cbn [app].
        split; [|split].
        -- f_equal. unfold idless. cbn [List.filter]. rewrite Hid. simpl. lia.
        -- simpl. now rewrite Hlen.
        -- intros [|j] r Hr; simpl in Hr.
           ++ injection Hr as <-. rewrite Hid. simpl. now rewrite Nat.add_0_r.
           ++ rewrite lookup_cons, (Hout j r Hr). cbn [take].
              unfold idless at 2. cbn [List.filter]. rewrite Hid.
              cbn [length]. fold (idless (take j (survivors rest))).
              now rewrite Nat.add_succ_r.
Qed.

Lemma survivors_label (items : list RawItemInput) (j : nat) (r : RawItemInput) :
  survivors items !! j = Some r -> trim (raw_label r) <> EmptyString.
Proof.
  intros Hr. apply list_elem_of_lookup_2, list_elem_of_In in Hr.
  apply List.filter_In in Hr as [_ Hr]. apply falsy_false.
  now destruct (falsy (trim (raw_label r))).
Qed.

(** C8. [normalizeItems] keeps, in their order, exactly the entries whose
    trimmed label is not empty ([survivors]); the output item at each position
    carries the trimmed label (which trimming leaves as it is, and which is
    not empty), the weight [normalizeWeight] gives, and the supplied id, or,
    when none is supplied, the result of a [nanoid()] call that no earlier
    item used. *)
Theorem normalizeItems_spec (nanoid : nat -> string) (k : nat) (items : list RawItemInput) :
  let out := fst (normalizeItems nanoid k items) in
  let kept := survivors items in
  length out = length kept /\
  (forall j r, kept !! j = Some r ->
     exists item, out !! j = Some item /\
       item_label item = trim (raw_label r) /\
       item_weight item = normalizeWeight (raw_weight r) /\
       (forall supplied, raw_id r = Some supplied -> item_id item = supplied) /\
       (raw_id r = None -> item_id item = nanoid (k + idless (take j kept))%nat)) /\
  (forall j1 j2 r1, (j1 < j2)%nat -> kept !! j1 = Some r1 -> raw_id r1 = None ->
     (k + idless (take j1 kept) < k + idless (take j2 kept))%nat) /\
  (forall item, item ∈ out ->
     trim (item_label item) = item_label item /\ item_label item <> EmptyString).
Proof.
  intros out kept. subst out kept. unfold normalizeItems.
  destruct (normalizeItems_fold nanoid items [] k) as (out & Hfold & Hlen & Hout).
  rewrite Hfold. cbn [fst app]. split; [exact Hlen|]. split; [|split].
  - intros j r Hr. eexists. split; [exact (Hout j r Hr)|]. cbn.
    repeat split.
    + intros supplied Hs. now rewrite Hs.
    + intros Hs. now rewrite Hs.
  - intros j1 j2 r1 Hlt Hr1 Hid.
    pose proof (idless_take_S _ _ _ Hr1 Hid).
    pose proof (idless_take_mono (survivors items) (S j1) j2 ltac:(lia)). lia.
  - intros item Hitem. apply list_elem_of_lookup_1 in Hitem as [j Hj].
    assert (is_Some (survivors items !! j)) as [r Hr].
    { apply lookup_lt_is_Some. rewrite <- Hlen. eapply lookup_lt_Some, Hj. }
    rewrite (Hout j r Hr) in Hj. injection Hj as <-. cbn.
    split; [apply trim_idem|]. eapply survivors_label, Hr.
Qed.

(** ** The weighted scan *)

Lemma sumZ_app (xs ys : list Z) : sumZ (xs ++ ys) = sumZ xs + sumZ ys.
Proof. unfold sumZ. induction xs; simpl; lia. Qed.


Lemma cumulative_cons (w : Z) (ws : list Z) (i : nat) :
  cumulative (w :: ws) (S i) = w + cumulative ws i.
Proof. reflexivity. Qed.

Lemma sumZ_nonneg (ws : list Z) : Forall (Z.le 0) ws -> 0 <= sumZ ws.
Proof. induction 1; simpl; lia. Qed.

Lemma cumulative_mono (ws : list Z) (i j : nat) :
  Forall (Z.le 0) ws -> (i <= j)%nat -> cumulative ws i <= cumulative ws j.
Proof.
  intros Hws Hij. unfold cumulative.
  rewrite <- (take_drop i (take j ws)), sumZ_app, take_take.
  replace (i `min` j)%nat with i by lia.
  pose proof (sumZ_nonneg (drop i (take j ws))
                (Forall_drop _ _ _ (Forall_take _ _ _ Hws))). lia.
Qed.

(** The sum line 206 computes, on integral weights. *)
Lemma fold_weights_of_Z (items : list WheelItem) :
  forall (ws : list Z) (r : Z),
    item_weight <$> items = JS.of_Z <$> ws ->
    fold_left (fun sum item => JS.add sum (item_weight item)) items (JS.of_Z r)
      = JS.of_Z (r + sumZ ws).
Proof.
  induction items as [|item rest IH]; intros [|w ws] r Hw; try discriminate.
  - simpl. now rewrite Z.add_0_r.
  - injection Hw as Hw Hrest. cbn [fold_left]. rewrite Hw, add_of_Z, (IH ws _ Hrest).
    simpl. f_equal. lia.
Qed.

Lemma totalWeight_of_Z (items : list WheelItem) (ws : list Z) :
  item_weight <$> items = JS.of_Z <$> ws -> totalWeight items = JS.of_Z (sumZ ws).
Proof. intros H. unfold totalWeight. now rewrite (fold_weights_of_Z items ws 0 H). Qed.


(** The loop on integral weights: it stops at the first index whose
    cumulative weight exceeds the target. *)
Lemma scan_first_exceeding (t : Z) (items : list WheelItem) :
  forall (ws : list Z) (r : Z),
    item_weight <$> items = JS.of_Z <$> ws ->
    r <= t < r + sumZ ws ->
    exists i item,
      scan (JS.of_Z t) (JS.of_Z r) items = Some item /\
      items !! i = Some item /\
      t < r + cumulative ws (S i) /\
      forall j, (j < i)%nat -> r + cumulative ws (S j) <= t.
Proof.
  induction items as [|item rest IH]; intros [|w ws] r Hw Ht; try discriminate.
  - simpl in Ht. lia.
  - injection Hw as Hw Hrest. cbn [scan]. rewrite Hw, add_of_Z, lt_of_Z.
    destruct (Z.ltb_spec t (r + w)) as [Hlt|Hge].
    + exists 0%nat, item. repeat split.
      * rewrite cumulative_cons. unfold cumulative. simpl. lia.
      * intros j Hj. lia.
    + destruct (IH ws (r + w) Hrest) as (i & sel & Hscan & Hi & Hup & Hfirst).
      { simpl in Ht. lia. }
      exists (S i), sel. repeat split; [exact Hscan|exact Hi| |].
      * rewrite cumulative_cons. lia.
      * intros [|j] Hj; rewrite cumulative_cons.
        -- unfold cumulative. simpl. lia.
        -- specialize (Hfirst j ltac:(lia)). lia.
Qed.

(** ** Reading and writing the data file *)

Lemma bind_run {A B} (m : Async A) (k : A -> Async B) (w : World) :
  (m ≫= k) w = match m w with
               | (Returned a, w') => k a w'
               | (Threw e, w') => (Threw e, w')
               end.
Proof. reflexivity. Qed.

(** The world once the file has been read or written without failure. *)
Lemma readDataFile_holds (w : World) (data : DataFile) :
  holds w data ->
  readDataFile w = (Returned data, stored data).
Proof.
  destruct w as [f memo]. intros [Hf [Hm|Hm]]; simpl in Hf, Hm; subst; reflexivity.
Qed.

(** Every way [readDataFile] ends: with the document of the file, with the
    empty document of a file it has just created, or with a failure that
    leaves the file as it was. *)
Lemma readDataFile_cases (w : World) :
  (exists data,
      readDataFile w = (Returned data, stored data) /\
      (file w = Some (Json data) \/ (file w = None /\ data = mkDataFile []))) \/
  (exists e w', readDataFile w = (Threw e, w') /\ file w' = file w).
Proof.
  destruct w as [[[data|]|] [[[]|e]|]]; cbn; eauto 8.
Qed.


(** ** Looking a list up by id *)

Lemma findIndex_Some (id : string) (ls : list WheelList) (i : nat) :
  findIndex (fun list => String.eqb (list_id list) id) ls = Some i <->
  exists list, first_match id ls i list.
Proof.
  revert i. induction ls as [|l ls IH]; intros i; simpl.
  - split; [discriminate|]. intros (list & H & _). now rewrite lookup_nil in H.
  - destruct (String.eqb_spec (list_id l) id) as [Heq|Hne].
    + split.
      * intros [= <-]. exists l. repeat split; [exact Heq|]. intros j other Hj. lia.
      * intros (list & Hl & Hid & Hfirst). destruct i as [|i]; [reflexivity|].
        exfalso. apply (Hfirst 0%nat l); [lia|reflexivity|exact Heq].
    + destruct (findIndex _ ls) as [i'|] eqn:Hfind; simpl.
      * split.
        -- intros [= <-]. destruct (proj1 (IH i') eq_refl) as (list & Hl & Hid & Hfirst).
           exists list. repeat split; [exact Hl|exact Hid|].
           intros [|j] other Hj Hother; simpl in Hother.
           ++ now injection Hother as <-.
           ++ apply (Hfirst j other); [lia|exact Hother].
        -- intros (list & Hl & Hid & Hfirst). destruct i as [|i].
           ++ simpl in Hl. injection Hl as <-. contradiction.
           ++ f_equal. assert (Some i' = Some i) as [= ->]; [|reflexivity].
              apply IH. exists list. repeat split; [exact Hl|exact Hid|].
              intros j other Hj Hother. apply (Hfirst (S j) other); [lia|exact Hother].
      * split; [discriminate|].
        intros (list & Hl & Hid & Hfirst). destruct i as [|i].
        -- simpl in Hl. injection Hl as <-. contradiction.
        -- exfalso. assert (None = Some i) as Habs; [|discriminate].
           apply IH. exists list. repeat split; [exact Hl|exact Hid|].
           intros j other Hj Hother. apply (Hfirst (S j) other); [lia|exact Hother].
Qed.

Lemma findIndex_None (id : string) (ls : list WheelList) :
  findIndex (fun list => String.eqb (list_id list) id) ls = None <->
  forall list, list ∈ ls -> list_id list <> id.
Proof.
  induction ls as [|l ls IH]; simpl.
  - split; [|reflexivity]. intros _ list H. now apply not_elem_of_nil in H.
  - destruct (String.eqb_spec (list_id l) id) as [Heq|Hne].
    + split; [discriminate|]. intros H. exfalso. apply (H l); [left|exact Heq].
    + destruct (findIndex _ ls) as [i'|]; simpl.
      * split; [discriminate|]. intros H. exfalso.
        assert (Some i' = None) as Habs; [|discriminate].
        apply IH. intros list Hin. apply H. now right.
      * split; [|reflexivity]. intros _ list Hin.
        apply elem_of_cons in Hin as [->|Hin]; [exact Hne|].
        revert list Hin. now apply IH.
Qed.


(** ** The mutations, once the file has been read *)

Section AfterRead.

Variables (w : World) (data : DataFile).
Hypothesis Hread : readDataFile w = (Returned data, stored data).

Lemma createList_after_read (env : Env) (payload : CreateListPayload) :
  createList env payload w
  = (Returned (newList env payload),
     stored (mkDataFile (lists data ++ [newList env payload]))).
Proof. unfold createList. rewrite bind_run, Hread. reflexivity. Qed.

Lemma updateList_after_read (env : Env) (id : string) (payload : UpdateListPayload) :
  updateList env id payload w
  = match findIndex (fun list => String.eqb (list_id list) id) (lists data) with
    | None => (Returned None, stored data)
    | Some index =>
        match lists data !! index with
        | None => (Threw TypeError, stored data)
        | Some list =>
            (Returned (Some (updatedList env payload list)),
             stored (mkDataFile (<[index := updatedList env payload list]> (lists data))))
        end
    end.
Proof.
  unfold updateList. rewrite bind_run, Hread.
  destruct (findIndex _ _) as [index|]; [|reflexivity].
  destruct (lists data !! index); reflexivity.
Qed.

Lemma deleteList_after_read (id : string) :
  deleteList id w
  = let nextLists :=
      List.filter (fun list => negb (String.eqb (list_id list) id)) (lists data) in
    if (length nextLists =? length (lists data))%nat
    then (Returned false, stored data)
    else (Returned true, stored (mkDataFile nextLists)).
Proof.
  unfold deleteList. rewrite bind_run, Hread. cbv zeta.
  destruct (length _ =? length _)%nat; reflexivity.
Qed.

Lemma recordSpin_after_read (env : Env) (id : string) :
  recordSpin env id w
  = match findIndex (fun list => String.eqb (list_id list) id) (lists data) with
    | None => (Returned None, stored data)
    | Some index =>
        match lists data !! index with
        | None => (Threw TypeError, stored data)
        | Some list =>
            if (length (list_items list) =? 0)%nat
            then (Threw (WheelStoreError NO_ITEMS), stored data)
            else if JS.le (totalWeight (list_items list)) (JS.of_Z 0)
            then (Threw (WheelStoreError NO_ITEMS), stored data)
            else
              match randomInt env (totalWeight (list_items list)) with
              | Threw error => (Threw error, stored data)
              | Returned drawn =>
                  match choose (JS.of_Z drawn) (list_items list) with
                  | None => (Threw TypeError, stored data)
                  | Some chosen =>
                      let spin := spinOf env chosen (now env) in
                      (Returned (Some spin),
                       stored (mkDataFile
                                 (<[index := withSpin list spin (now env)]> (lists data))))
                  end
              end
        end
    end.
Proof.
  unfold recordSpin. rewrite bind_run, Hread.
  destruct (findIndex _ _) as [index|]; [|reflexivity].
  destruct (lists data !! index) as [list|]; [|reflexivity].
  destruct (length _ =? 0)%nat; [reflexivity|].
  destruct (JS.le _ _); [reflexivity|]. cbv zeta.
  destruct (randomInt _ _); [|reflexivity].
  destruct (choose _ _); reflexivity.
Qed.

End AfterRead.

(** A failed read is the failure of the mutation, in the world the read left. *)
Lemma apply_read_failed {disk : Disk} (m : Mutation) (w w' : World) (e : Thrown) :
  readDataFile w = (Threw e, w') -> apply m w = (Some e, w').
Proof.
  intros Hread. destruct m; unfold apply, createList, updateList, deleteList, recordSpin;
    rewrite bind_run, Hread; reflexivity.
Qed.

(** When the read failed, the mutation did not return. *)
Ltac read_failed m Hread :=
  let H := fresh "H" in
  pose proof (apply_read_failed m _ _ _ Hread) as H;
  unfold apply in H;
  match type of H with
  | (let '(_, _) := ?run in _) = _ => destruct run as [[|] ?]
  end;
  discriminate.

(** ** The weighted selection of [recordSpin] *)

Lemma bucket_first (ws : list Z) (t : Z) (i : nat) :
  (forall j, (j < i)%nat -> cumulative ws (S j) <= t) ->
  forall j, bucket ws t j -> (i <= j)%nat.
Proof.
  intros Hfirst j (_ & _ & Hj). destruct (Nat.le_gt_cases i j) as [|Hlt]; [assumption|].
  specialize (Hfirst j Hlt). lia.
Qed.

Lemma bucket_unique (ws : list Z) (t : Z) (i j : nat) :
  Forall (Z.le 0) ws -> bucket ws t i -> bucket ws t j -> (i <= j)%nat -> j = i.
Proof.
  intros Hws (_ & _ & Hi) (_ & Hj & _) Hij.
  destruct (Nat.eq_dec i j) as [->|Hne]; [reflexivity|].
  pose proof (cumulative_mono ws (S i) j Hws ltac:(lia)). lia.
Qed.



(** C1, as amended. On a list with integral weights that the code adds
    without rounding, of a sum that is positive and that [randomInt] accepts
    as a bound, and a draw [t] below the sum, the spin [recordSpin] returns is
    of the first item in list order whose cumulative weight exceeds [t]; [t]
    falls in that item's bucket, no earlier bucket holds [t], and when no
    weight is negative it is the only bucket that holds [t]. *)
Theorem recordSpin_selects_first_exceeding
    (env : Env) (id : string) (w : World) (data : DataFile)
    (index : nat) (ws : list Z) (list : WheelList) :
  holds w data ->
  first_match id (lists data) index list ->
  item_weight <$> list_items list = JS.of_Z <$> ws ->
  exactSums ws ->
  0 < sumZ ws <= RAND_MAX ->
  0 <= generated env (JS.of_Z (sumZ ws)) < sumZ ws ->
  let t := generated env (JS.of_Z (sumZ ws)) in
  exists i item,
    list_items list !! i = Some item /\
    fst (recordSpin env id w) = Returned (Some (spinOf env item (now env))) /\
    bucket ws t i /\
    (forall j, (j < i)%nat -> cumulative ws (S j) <= t) /\
    (forall j, bucket ws t j -> (i <= j)%nat) /\
    (Forall (Z.le 0) ws -> forall j, bucket ws t j -> j = i).
Proof.
  intros Hholds Hmatch Hw _ Hpos Ht t.
  pose proof (totalWeight_of_Z _ _ Hw) as Htotal.
  destruct (scan_first_exceeding t (list_items list) ws 0 Hw ltac:(subst t; lia))
    as (i & item & Hscan & Hi & Hup & Hfirst).
  rewrite Z.add_0_l in Hup.
  assert (Hfirst' : forall j, (j < i)%nat -> cumulative ws (S j) <= t).
  { intros j Hj. specialize (Hfirst j Hj). lia. }
  assert (Hbucket : bucket ws t i).
  { split; [|split; [|exact Hup]].
    - apply lookup_lt_Some in Hi. rewrite <- (length_fmap JS.of_Z), <- Hw, length_fmap.
      exact Hi.
    - destruct i as [|i]; [unfold cumulative; simpl; subst t; lia|].
      apply Hfirst'. lia. }
  exists i, item. split; [exact Hi|]. split; [|split; [exact Hbucket|split; [exact Hfirst'|split]]].
  - rewrite (recordSpin_after_read w data (readDataFile_holds w data Hholds)).
    assert (Hfind : findIndex (fun l => String.eqb (list_id l) id) (lists data) = Some index).
    { apply findIndex_Some. eauto. }
    rewrite Hfind. destruct Hmatch as (Hlist & _). rewrite Hlist.
    destruct (list_items list) as [|first rest] eqn:Hitems.
    { now rewrite lookup_nil in Hi. }
    cbn [length Nat.eqb]. rewrite Htotal, le_of_Z.
    destruct (Z.leb_spec (sumZ ws) 0) as [|_]; [lia|].
    rewrite (randomInt_accepts env (sumZ ws) Hpos).
    fold t. unfold choose, select. rewrite Hscan. reflexivity.
  - now apply bucket_first.
  - intros Hws j Hj. apply (bucket_unique ws t i j Hws Hbucket Hj).
    now apply (bucket_first ws t i).
Qed.

Lemma recordSpin_selects_witness :
  exists i item,
    [red; blue] !! i = Some item /\
    fst (recordSpin (sampleEnv 1) "L"%string (stored (sampleData [red; blue])))
      = Returned (Some (spinOf (sampleEnv 1) item (now (sampleEnv 1)))) /\
    bucket [1; 3] 1 i /\
    (forall j, (j < i)%nat -> cumulative [1; 3] (S j) <= 1) /\
    (forall j, bucket [1; 3] 1 j -> (i <= j)%nat) /\
    (Forall (Z.le 0) [1; 3] -> forall j, bucket [1; 3] 1 j -> j = i).
Proof.
  apply (recordSpin_selects_first_exceeding (sampleEnv 1) "L"%string
           (stored (sampleData [red; blue])) (sampleData [red; blue]) 0
           [1; 3] (sampleList [red; blue])).
  - split; [reflexivity|right; reflexivity].
  - split; [reflexivity|split; [reflexivity|]]. intros j other Hj. lia.
  - reflexivity.
  - apply Z.leb_le. reflexivity.
  - split; [reflexivity|apply Z.leb_le; reflexivity].
  - split; [discriminate|reflexivity].
Defined.

(** C1, as stated, fails on integral weights of positive sum with a negative
    weight among them: on the weights 2, -1, 2 and the draw 1 the loop selects
    the first item, while the draw falls in the bucket of the first item and
    in the bucket of the third, so no index is the only one. *)
Lemma bucket_index_not_unique :
  let a := mkWheelItem "a"%string "A"%string (JS.of_Z 2) in
  let b := mkWheelItem "b"%string "B"%string (JS.of_Z (-1)) in
  let c := mkWheelItem "c"%string "C"%string (JS.of_Z 2) in
  let ws := [2; -1; 2] in
  item_weight <$> [a; b; c] = JS.of_Z <$> ws /\
  totalWeight [a; b; c] = JS.of_Z 3 /\
  sumZ ws = 3 /\
  select (JS.of_Z 1) [a; b; c] = Some a /\
  bucket ws 1 0 /\ bucket ws 1 2 /\
  ~ (exists i, forall j, bucket ws 1 j -> j = i).
Proof.
  cbv zeta.
  assert (H0 : bucket [2; -1; 2] 1 0) by (unfold bucket, cumulative; simpl; lia).
  assert (H2 : bucket [2; -1; 2] 1 2) by (unfold bucket, cumulative; simpl; lia).
  repeat split; try reflexivity; try apply H0; try apply H2.
  intros [i Hi]. apply Hi in H0, H2. lia.
Qed.

(** ** The outcomes of [recordSpin] *)

Lemma choose_is_Some (target : number) (items : list WheelItem) :
  items <> [] -> is_Some (choose target items).
Proof.
  intros Hne. unfold choose. destruct (select target items); [eauto|].
  now apply last_is_Some.
Qed.

Lemma first_match_findIndex (id : string) (ls : list WheelList) (i : nat) (l : WheelList) :
  first_match id ls i l ->
  findIndex (fun list => String.eqb (list_id list) id) ls = Some i /\ ls !! i = Some l.
Proof. intros H. split; [apply findIndex_Some; eauto|apply H]. Qed.




(** ** The frame of [updateList] *)

(** C6. On a readable document with a list of the given id, [updateList]
    replaces the first such list, in place, by a list with the same [id],
    [createdAt] and [spins], with [updatedAt] refreshed, and with [name],
    [description] and [items] re-normalized from the payload where it supplies
    them and kept where it does not. *)
Theorem updateList_frame (env : Env) (id : string) (payload : UpdateListPayload)
    (w : World) (data : DataFile) (index : nat) (old : WheelList) :
  holds w data ->
  first_match id (lists data) index old ->
  exists updated,
    updateList env id payload w
      = (Returned (Some updated), stored (mkDataFile (<[index := updated]> (lists data)))) /\
    list_id updated = list_id old /\
    list_createdAt updated = list_createdAt old /\
    list_spins updated = list_spins old /\
    list_updatedAt updated = now env /\
    list_name updated = match update_name payload with
                        | Some name => sanitizeName (Some name)
                        | None => list_name old
                        end /\
    list_description updated = match update_description payload with
                               | Some description => sanitizeDescription (Some description)
                               | None => list_description old
                               end /\
    list_items updated = match update_items payload with
                         | Some items => fst (normalizeItems (nanoid env) 0 items)
                         | None => list_items old
                         end.
Proof.
  intros Hholds Hmatch. apply first_match_findIndex in Hmatch as [Hfind Hold].
  exists (updatedList env payload old).
  rewrite (updateList_after_read w data (readDataFile_holds w data Hholds)), Hfind, Hold.
  repeat split; cbn.
  - now destruct (update_name payload).
  - now destruct (update_description payload).
Qed.

Lemma updateList_frame_witness :
  exists updated,
    updateList (sampleEnv 0) "L"%string
        (mkUpdateListPayload (Some " New Name "%string) None None)
        (stored (sampleData [red; blue]))
      = (Returned (Some updated),
         stored (mkDataFile (<[0%nat := updated]> (lists (sampleData [red; blue]))))) /\
    list_id updated = "L"%string /\
    list_createdAt updated = "2024-04-30T09:00:00.000Z"%string /\
    list_spins updated = [] /\
    list_updatedAt updated = "2024-05-01T10:00:00.000Z"%string /\
    list_name updated = "New Name"%string /\
    list_description updated = None /\
    list_items updated = [red; blue].
Proof.
  apply (updateList_frame (sampleEnv 0) "L"%string
           (mkUpdateListPayload (Some " New Name "%string) None None)
           (stored (sampleData [red; blue])) (sampleData [red; blue]) 0
           (sampleList [red; blue])).
  - split; [reflexivity|right; reflexivity].
  - split; [reflexivity|split; [reflexivity|]]. intros j other Hj. lia.
Defined.

(** ** Failures leave the file as it was *)

(** Every way [readDataFile] ends, whatever the disk does: with the document
    of the file, with the empty document of a file it has just created, or
    with a failure.  The failure leaves the document as it was and a file
    that existed with its content; it is the rejection of a file-system call
    if the file is no longer as it was. *)
Lemma readDataFile_on_disk {disk : Disk} (w : World) :
  (exists data,
      readDataFile w = (Returned data, stored data) /\
      (file w = Some (Json data) \/
       (file w = None /\ data = mkDataFile [] /\ initialWrite = Fulfils))) \/
  (exists e w',
      readDataFile w = (Threw e, w') /\
      document w' = document w /\
      (forall content, file w = Some content -> file w' = Some content) /\
      ((forall call, e <> FsError call) -> file w' = file w)).
Proof.
  destruct disk as [[|] [|] [|[]] finalWrite], w as [[[data|]|] [[[]|e]|]]; cbn;
    eauto 12; right; do 2 eexists; (split; [reflexivity|]); cbn;
    (split; [reflexivity|split; [discriminate || auto|]]);
    intros Hcall; first [reflexivity|exfalso; eapply Hcall; reflexivity].
Qed.

(** [writeDataFile] once the file has been read: the one call that can fail
    is [fs.writeFile]. *)
Lemma writeDataFile_stored {disk : Disk} (data next : DataFile) :
  writeDataFile next (stored data) = fs_writeFile dataWrite (Json next) (stored data).
Proof. reflexivity. Qed.

Lemma fs_writeFile_stored (how : Write) (data next : DataFile) :
  (how = Fulfils /\ fs_writeFile how (Json next) (stored data) = (Returned tt, stored next)) \/
  (exists left w',
     how = Rejects left /\
     fs_writeFile how (Json next) (stored data) = (Threw (FsError WriteFile), w')).
Proof. destruct how as [|[]]; cbn; eauto 8. Qed.





(** X5. The "not found" results ([undefined] of [updateList] and
    [recordSpin], [false] of [deleteList]) leave a file that exists as it
    was. *)
Theorem not_found_leaves_file (w : World) (content : FileContent) :
  file w = Some content ->
  (forall env id payload,
     fst (updateList env id payload w) = Returned None ->
     file (snd (updateList env id payload w)) = file w) /\
  (forall id,
     fst (deleteList id w) = Returned false ->
     file (snd (deleteList id w)) = file w) /\
  (forall env id,
     fst (recordSpin env id w) = Returned None ->
     file (snd (recordSpin env id w)) = file w).
Proof.
  intros Hcontent.
  destruct (readDataFile_cases w) as [(data & Hread & Hfile)|(e0 & w0 & Hread & Hfile)].
  - destruct Hfile as [Heq|[Hnone _]]; [|congruence]. repeat split.
    + intros env id payload. rewrite (updateList_after_read w data Hread).
      destruct (findIndex _ _); [destruct (lists data !! _)|]; try discriminate.
      intros _. now rewrite Heq.
    + intros id. rewrite (deleteList_after_read w data Hread). cbv zeta.
      destruct (_ =? _)%nat; [|discriminate]. intros _. now rewrite Heq.
    + intros env id. rewrite (recordSpin_after_read w data Hread).
      destruct (findIndex _ _); [destruct (lists data !! _)|]; try discriminate.
      * destruct (_ =? _)%nat; [discriminate|]. destruct (JS.le _ _); [discriminate|].
        destruct (randomInt _ _); [|discriminate].
        destruct (choose _ _); discriminate.
      * intros _. now rewrite Heq.
  - repeat split.
    + intros env id payload. read_failed (UpdateList env id payload) Hread.
    + intros id. read_failed (DeleteList id) Hread.
    + intros env id. read_failed (RecordSpin env id) Hread.
Qed.

Lemma not_found_leaves_file_witness :
  (forall env id payload,
     fst (updateList env id payload (stored (sampleData [red]))) = Returned None ->
     file (snd (updateList env id payload (stored (sampleData [red]))))
     = file (stored (sampleData [red]))) /\
  (forall id,
     fst (deleteList id (stored (sampleData [red]))) = Returned false ->
     file (snd (deleteList id (stored (sampleData [red]))))
     = file (stored (sampleData [red]))) /\
  (forall env id,
     fst (recordSpin env id (stored (sampleData [red]))) = Returned None ->
     file (snd (recordSpin env id (stored (sampleData [red]))))
     = file (stored (sampleData [red]))).
Proof.
  apply (not_found_leaves_file (stored (sampleData [red])) (Json (sampleData [red]))).
  reflexivity.
Defined.

(** ** The spin history *)

Lemma read_document (w : World) (data : DataFile) :
  file w = Some (Json data) \/ (file w = None /\ data = mkDataFile []) ->
  document w = lists data.
Proof. unfold document. intros [->|[-> ->]]; reflexivity. Qed.

Lemma logged_spin (wheel : WheelList) (log : list SpinResult)
    (spin : SpinResult) (timestamp : string) :
  logged wheel log -> logged (withSpin wheel spin timestamp) (spin :: log).
Proof.
  unfold logged, MAX_SPIN_HISTORY. intros H. cbn [withSpin list_spins]. rewrite H.
  change (spin :: take 19 (take 20 log) = spin :: take 19 log).
  now rewrite take_take.
Qed.

Lemma logged_forget (id : string) (ls : list WheelList) (h : list (list SpinResult)) :
  Forall2 logged ls h ->
  Forall2 logged
    (List.filter (fun list => negb (String.eqb (list_id list) id)) ls) (forget id ls h).
Proof.
  induction 1 as [|l g ls h Hl _ IH]; simpl; [constructor|].
  destruct (String.eqb (list_id l) id); simpl; [exact IH|now constructor].
Qed.

(** What a mutation makes of the document and of the spin logs, according to
    the way it ends. *)
Lemma traced_logged (w : World) (h : list (list SpinResult)) :
  traced w h -> Forall2 logged (document w) h.
Proof.
  induction 1 as [| w h _ IH | m w h _ IH].
  - constructor.
  - exact IH.
  - destruct (readDataFile_cases w) as [(data & Hread & Hfile)|(e0 & w0 & Hread & Hfile)].
    + apply read_document in Hfile. rewrite Hfile in IH.
      destruct m; unfold apply, record; rewrite ?Hfile.
      * rewrite (createList_after_read w data Hread). cbn.
        apply Forall2_app; [exact IH|]. now repeat constructor.
      * rewrite (updateList_after_read w data Hread).
        destruct (findIndex _ _) as [index|]; [|exact IH].
        destruct (lists data !! index) as [old|] eqn:Hold; [|exact IH]. cbn.
        rewrite list_insert_alter. apply Forall2_alter_l; [exact IH|].
        intros x y Hx _ Hxy. rewrite Hold in Hx. injection Hx as <-. exact Hxy.
      * rewrite (deleteList_after_read w data Hread). cbv zeta.
        destruct (_ =? _)%nat; cbn; [exact IH|]. now apply logged_forget.
      * rewrite (recordSpin_after_read w data Hread).
        destruct (findIndex _ _) as [index|]; [|exact IH].
        destruct (lists data !! index) as [old|] eqn:Hold; [|exact IH].
        destruct (_ =? _)%nat; [exact IH|]. destruct (JS.le _ _); [exact IH|].
        destruct (randomInt _ _); [|exact IH].
        destruct (choose _ _) as [chosen|]; [|exact IH]. cbn.
        rewrite list_insert_alter. apply Forall2_alter; [exact IH|].
        intros x y Hx _ Hxy. rewrite Hold in Hx. injection Hx as <-.
        now apply logged_spin.
    + pose proof (apply_read_failed m w w0 e0 Hread) as Happly. rewrite Happly.
      cbn [snd]. unfold document in *. rewrite Hfile.
      assert (record m w h = h) as ->; [|exact IH].
      destruct m; unfold apply in Happly; unfold record.
      * destruct (createList env payload w) as [[|] ?]; [discriminate|reflexivity].
      * reflexivity.
      * destruct (deleteList id w) as [[|] ?]; [discriminate|reflexivity].
      * destruct (recordSpin env id w) as [[|] ?]; [discriminate|reflexivity].
Qed.

Lemma logged_bounded (ls : list WheelList) (h : list (list SpinResult)) :
  Forall2 logged ls h ->
  Forall (fun list => (length (list_spins list) <= MAX_SPIN_HISTORY)%nat) ls.
Proof.
  induction 1 as [|l g ls h Hl _ IH]; constructor; [|exact IH].
  rewrite Hl, length_take. lia.
Qed.

Lemma recordSpin_prepends (env : Env) (id : string) (w : World) (spin : SpinResult) :
  fst (recordSpin env id w) = Returned (Some spin) ->
  exists i old,
    first_match id (document w) i old /\
    document (snd (recordSpin env id w))
      = <[i := withSpin old spin (now env)]> (document w) /\
    list_spins (withSpin old spin (now env))
      = take MAX_SPIN_HISTORY (spin :: list_spins old).
Proof.
  destruct (readDataFile_cases w) as [(data & Hread & Hfile)|(e0 & w0 & Hread & Hfile)].
  - apply read_document in Hfile. rewrite Hfile.
    rewrite (recordSpin_after_read w data Hread).
    destruct (findIndex _ _) as [index|] eqn:Hfind; [|discriminate].
    apply findIndex_Some in Hfind as (old & Hmatch). pose proof Hmatch as (Hold & _).
    rewrite Hold. destruct (_ =? _)%nat; [discriminate|].
    destruct (JS.le _ _); [discriminate|].
    destruct (randomInt _ _); [|discriminate].
    destruct (choose _ _) as [chosen|]; [|discriminate]. cbn.
    intros [= <-]. exists index, old. auto.
  - read_failed (RecordSpin env id) Hread.
Qed.

Lemma createList_empty_spins (env : Env) (payload : CreateListPayload)
    (w : World) (created : WheelList) :
  fst (createList env payload w) = Returned created ->
  list_spins created = [] /\
  document (snd (createList env payload w)) = document w ++ [created].
Proof.
  destruct (readDataFile_cases w) as [(data & Hread & Hfile)|(e0 & w0 & Hread & Hfile)].
  - apply read_document in Hfile. rewrite Hfile.
    rewrite (createList_after_read w data Hread). cbn. intros [= <-]. auto.
  - read_failed (CreateList env payload) Hread.
Qed.

Lemma updateList_keeps_spins (env : Env) (id : string) (payload : UpdateListPayload)
    (w : World) (updated : WheelList) :
  fst (updateList env id payload w) = Returned (Some updated) ->
  exists i old,
    first_match id (document w) i old /\
    document (snd (updateList env id payload w)) = <[i := updated]> (document w) /\
    list_spins updated = list_spins old.
Proof.
  destruct (readDataFile_cases w) as [(data & Hread & Hfile)|(e0 & w0 & Hread & Hfile)].
  - apply read_document in Hfile. rewrite Hfile.
    rewrite (updateList_after_read w data Hread).
    destruct (findIndex _ _) as [index|] eqn:Hfind; [|discriminate].
    apply findIndex_Some in Hfind as (old & Hmatch). pose proof Hmatch as (Hold & _).
    rewrite Hold. cbn. intros [= <-]. exists index, old. auto.
  - read_failed (UpdateList env id payload) Hread.
Qed.

Lemma deleteList_removes (id : string) (w : World) :
  document (snd (deleteList id w)) = document w \/
  document (snd (deleteList id w))
    = List.filter (fun list => negb (String.eqb (list_id list) id)) (document w).
Proof.
  destruct (readDataFile_cases w) as [(data & Hread & Hfile)|(e0 & w0 & Hread & Hfile)].
  - apply read_document in Hfile. rewrite Hfile.
    rewrite (deleteList_after_read w data Hread). cbv zeta.
    destruct (_ =? _)%nat; cbn; auto.
  - left. pose proof (apply_read_failed (DeleteList id) _ _ _ Hread) as H.
    unfold apply in H. destruct (deleteList id w) as [r w'].
    injection H as _ ->. cbn [snd]. unfold document. now rewrite Hfile.
Qed.

(** C4. In every world the store reaches, each list holds the
    [MAX_SPIN_HISTORY] newest entries of its complete spin log, newest first,
    so at most [MAX_SPIN_HISTORY] spins; [recordSpin] puts the new spin in
    front of the spins of the list and keeps the first [MAX_SPIN_HISTORY];
    [createList] adds a list without spins, [updateList] keeps the spins of
    the list it replaces, and [deleteList] only removes lists. *)
Theorem spin_history_bounded (w : World) (h : list (list SpinResult)) :
  traced w h ->
  Forall2 (fun wheel log => list_spins wheel = take MAX_SPIN_HISTORY log) (document w) h /\
  Forall (fun wheel => (length (list_spins wheel) <= MAX_SPIN_HISTORY)%nat) (document w) /\
  (forall env id spin,
     fst (recordSpin env id w) = Returned (Some spin) ->
     exists i old,
       first_match id (document w) i old /\
       document (snd (recordSpin env id w))
         = <[i := withSpin old spin (now env)]> (document w) /\
       list_spins (withSpin old spin (now env))
         = take MAX_SPIN_HISTORY (spin :: list_spins old)) /\
  (forall env payload created,
     fst (createList env payload w) = Returned created ->
     list_spins created = [] /\
     document (snd (createList env payload w)) = document w ++ [created]) /\
  (forall env id payload updated,
     fst (updateList env id payload w) = Returned (Some updated) ->
     exists i old,
       first_match id (document w) i old /\
       document (snd (updateList env id payload w)) = <[i := updated]> (document w) /\
       list_spins updated = list_spins old) /\
  (forall id,
     document (snd (deleteList id w)) = document w \/
     document (snd (deleteList id w))
       = List.filter (fun wheel => negb (String.eqb (list_id wheel) id)) (document w)).
Proof.
  intros Htraced. pose proof (traced_logged w h Htraced) as Hlogged.
  split; [exact Hlogged|]. split; [exact (logged_bounded _ _ Hlogged)|].
  split; [intros; now apply recordSpin_prepends|].
  split; [intros; now apply createList_empty_spins|].
  split; [intros; now apply updateList_keeps_spins|intros; apply deleteList_removes].
Qed.

Lemma spin_history_bounded_witness :
  Forall2 (fun wheel log => list_spins wheel = take MAX_SPIN_HISTORY log)
    (document sampleWorld) sampleLog /\
  Forall (fun wheel => (length (list_spins wheel) <= MAX_SPIN_HISTORY)%nat)
    (document sampleWorld) /\
  (forall env id spin,
     fst (recordSpin env id sampleWorld) = Returned (Some spin) ->
     exists i old,
       first_match id (document sampleWorld) i old /\
       document (snd (recordSpin env id sampleWorld))
         = <[i := withSpin old spin (now env)]> (document sampleWorld) /\
       list_spins (withSpin old spin (now env))
         = take MAX_SPIN_HISTORY (spin :: list_spins old)) /\
  (forall env payload created,
     fst (createList env payload sampleWorld) = Returned created ->
     list_spins created = [] /\
     document (snd (createList env payload sampleWorld)) = document sampleWorld ++ [created]) /\
  (forall env id payload updated,
     fst (updateList env id payload sampleWorld) = Returned (Some updated) ->
     exists i old,
       first_match id (document sampleWorld) i old /\
       document (snd (updateList env id payload sampleWorld))
         = <[i := updated]> (document sampleWorld) /\
       list_spins updated = list_spins old) /\
  (forall id,
     document (snd (deleteList id sampleWorld)) = document sampleWorld \/
     document (snd (deleteList id sampleWorld))
       = List.filter (fun wheel => negb (String.eqb (list_id wheel) id))
           (document sampleWorld)).
Proof.
  apply (spin_history_bounded sampleWorld sampleLog).
  exact (traced_apply (RecordSpin (sampleEnv 1) "0"%string) _ _
           (traced_apply (CreateList (sampleEnv 0) samplePayload) _ _ traced_start)).
Defined.

(** ** The serialization queue *)

Section QueueFacts.

Context {T : Type}.
Implicit Types (calls : list (nat * Queue.Operation T)) (queue : Queue.Promise unit).

Lemma runSerial_next (at_ : nat) (operation : Queue.Operation T) queue :
  let next := fst (Queue.runSerial at_ operation queue) in
  Queue.began next = Nat.max at_ (Queue.settled queue) /\
  operation (Queue.began next) = (Queue.settled next, Queue.outcome next).
Proof.
  unfold Queue.runSerial, Queue.then_. cbn [fst].
  destruct (Queue.outcome queue);
    destruct (operation (Nat.max at_ (Queue.settled queue))) as [finish result] eqn:Hop;
    cbn; rewrite Hop; auto.
Qed.

Lemma runSerial_queue (at_ : nat) (operation : Queue.Operation T) queue :
  let '(next, queue') := Queue.runSerial at_ operation queue in
  (Queue.settled next <= Queue.settled queue')%nat /\
  Queue.outcome queue' = Returned tt.
Proof.
  unfold Queue.runSerial, Queue.then_, Queue.undefined.
  destruct (Queue.outcome queue);
    destruct (operation (Nat.max at_ (Queue.settled queue))) as [finish [result|thrown]];
    cbn; split; (lia || reflexivity).
Qed.

Lemma runAll_length calls : forall queue,
  length (Queue.runAll calls queue) = length calls.
Proof.
  induction calls as [|[at_ operation] rest IH]; intros queue; [reflexivity|].
  cbn [Queue.runAll]. destruct (Queue.runSerial at_ operation queue) as [next queue'].
  simpl. now rewrite IH.
Qed.

(** Each operation is called, not before its [runSerial] call, and the
    promise returned follows the promise of that call. *)
Lemma runAll_calls calls : forall queue i at_ operation p,
  calls !! i = Some (at_, operation) ->
  Queue.runAll calls queue !! i = Some p ->
  (at_ <= Queue.began p)%nat /\
  operation (Queue.began p) = (Queue.settled p, Queue.outcome p).
Proof.
  induction calls as [|[at0 op0] rest IH]; intros queue i at_ operation p Hcall Hrun.
  - now rewrite lookup_nil in Hcall.
  - cbn [Queue.runAll] in Hrun.
    pose proof (runSerial_next at0 op0 queue) as Hnext.
    destruct (Queue.runSerial at0 op0 queue) as [next queue'].
    destruct i as [|i]; simpl in Hcall, Hrun.
    + injection Hcall as -> ->. injection Hrun as <-. cbn in Hnext.
      destruct Hnext as [Hbegan Hop]. split; [lia|exact Hop].
    + exact (IH queue' i at_ operation p Hcall Hrun).
Qed.

(** No operation of the sequence is called before the queue it was given
    has settled. *)
Lemma runAll_after calls : forall queue i p,
  (forall at_ operation, (at_, operation) ∈ calls -> Queue.causal operation) ->
  Queue.runAll calls queue !! i = Some p ->
  (Queue.settled queue <= Queue.began p)%nat.
Proof.
  induction calls as [|[at0 op0] rest IH]; intros queue i p Hcausal Hrun.
  - now destruct i.
  - cbn [Queue.runAll] in Hrun.
    pose proof (runSerial_next at0 op0 queue) as Hnext.
    pose proof (runSerial_queue at0 op0 queue) as Hqueue.
    destruct (Queue.runSerial at0 op0 queue) as [next queue'].
    cbn in Hnext. destruct Hnext as [Hbegan Hop], Hqueue as [Hsettled _].
    destruct i as [|i]; simpl in Hrun.
    + injection Hrun as <-. lia.
    + assert (Hrest : forall at_ operation,
                 (at_, operation) ∈ rest -> Queue.causal operation).
      { intros at_ operation Hin. apply (Hcausal at_). now right. }
      pose proof (IH queue' i p Hrest Hrun).
      pose proof (Hcausal at0 op0 ltac:(left) (Queue.began next)) as Hc.
      rewrite Hop in Hc. cbn in Hc. lia.
Qed.

(** An operation is called only once every operation submitted before it
    has settled. *)
Lemma runAll_ordered calls : forall queue i j p p',
  (forall at_ operation, (at_, operation) ∈ calls -> Queue.causal operation) ->
  (i < j)%nat ->
  Queue.runAll calls queue !! i = Some p ->
  Queue.runAll calls queue !! j = Some p' ->
  (Queue.settled p <= Queue.began p')%nat.
Proof.
  induction calls as [|[at0 op0] rest IH]; intros queue i j p p' Hcausal Hij Hp Hp'.
  - now destruct i.
  - cbn [Queue.runAll] in Hp, Hp'.
    pose proof (runSerial_queue at0 op0 queue) as Hqueue.
    destruct (Queue.runSerial at0 op0 queue) as [next queue'].
    destruct Hqueue as [Hsettled _].
    assert (Hrest : forall at_ operation,
               (at_, operation) ∈ rest -> Queue.causal operation).
    { intros at_ operation Hin. apply (Hcausal at_). now right. }
    destruct j as [|j]; [lia|]. simpl in Hp'.
    destruct i as [|i]; simpl in Hp.
    + injection Hp as <-. pose proof (runAll_after rest queue' j p' Hrest Hp'). lia.
    + apply (IH queue' i j p p' Hrest); [lia|exact Hp|exact Hp'].
Qed.

End QueueFacts.

(** C2. For a sequence of [runSerial] calls on one store, with operations
    that settle: every operation is called, whatever the outcomes of the
    operations before it (a rejection included); an operation is called only
    once each operation submitted before it has settled, so they run in the
    order of their submission, and no two are under way at the same instant. *)
Theorem queue_serial_fifo {T : Type} (calls : list (nat * Queue.Operation T)) :
  (forall at_ operation, (at_, operation) ∈ calls -> Queue.causal operation) ->
  let runs := Queue.runAll calls Queue.Promise_resolve in
  length runs = length calls /\
  (forall i at_ operation p,
     calls !! i = Some (at_, operation) -> runs !! i = Some p ->
     (at_ <= Queue.began p)%nat /\
     operation (Queue.began p) = (Queue.settled p, Queue.outcome p)) /\
  (forall i j p p',
     (i < j)%nat -> runs !! i = Some p -> runs !! j = Some p' ->
     (Queue.began p <= Queue.settled p)%nat /\
     (Queue.settled p <= Queue.began p')%nat) /\
  (forall i j p p' t,
     runs !! i = Some p -> runs !! j = Some p' ->
     Queue.running p t -> Queue.running p' t -> i = j).
Proof.
  intros Hcausal runs. subst runs. split; [apply runAll_length|]. split; [|split].
  - intros i at_ operation p. apply runAll_calls.
  - intros i j p p' Hij Hp Hp'. split.
    + assert (is_Some (calls !! i)) as [[at_ operation] Hcall].
      { apply lookup_lt_is_Some. rewrite <- (runAll_length calls Queue.Promise_resolve).
        eapply lookup_lt_Some, Hp. }
      destruct (runAll_calls calls _ i at_ operation p Hcall Hp) as [_ Hop].
      pose proof (Hcausal at_ operation
                    ltac:(eapply list_elem_of_lookup_2, Hcall) (Queue.began p)) as Hc.
      rewrite Hop in Hc. exact Hc.
    + exact (runAll_ordered calls _ i j p p' Hcausal Hij Hp Hp').
  - intros i j p p' t Hp Hp' Hrun Hrun'. unfold Queue.running in *.
    destruct (Nat.lt_trichotomy i j) as [Hlt|[Heq|Hgt]]; [|exact Heq|].
    + pose proof (runAll_ordered calls _ i j p p' Hcausal Hlt Hp Hp'). lia.
    + pose proof (runAll_ordered calls _ j i p' p Hcausal Hgt Hp' Hp). lia.
Qed.

Lemma queue_serial_fifo_witness :
  let runs := Queue.runAll sampleCalls Queue.Promise_resolve in
  length runs = length sampleCalls /\
  (forall i at_ operation p,
     sampleCalls !! i = Some (at_, operation) -> runs !! i = Some p ->
     (at_ <= Queue.began p)%nat /\
     operation (Queue.began p) = (Queue.settled p, Queue.outcome p)) /\
  (forall i j p p',
     (i < j)%nat -> runs !! i = Some p -> runs !! j = Some p' ->
     (Queue.began p <= Queue.settled p)%nat /\
     (Queue.settled p <= Queue.began p')%nat) /\
  (forall i j p p' t,
     runs !! i = Some p -> runs !! j = Some p' ->
     Queue.running p t -> Queue.running p' t -> i = j).
Proof.
  apply (queue_serial_fifo sampleCalls).
  intros at_ operation Hin start.
  apply elem_of_cons in Hin as [[= -> ->]|Hin]; [cbn; lia|].
  apply elem_of_cons in Hin as [[= -> ->]|Hin]; [cbn; lia|].
  now apply not_elem_of_nil in Hin.
Defined.

(** ** Names and deletion *)


Lemma filter_length_all {A} (p : A -> bool) (l : list A) :
  (length (List.filter p l) <= length l)%nat /\
  (length (List.filter p l) = length l <-> forall x, x ∈ l -> p x = true).
Proof.
  induction l as [|a l [IHle IHeq]]; simpl.
  - split; [lia|]. split; [|reflexivity]. intros _ x Hx. now apply not_elem_of_nil in Hx.
  - destruct (p a) eqn:Hp; simpl.
    + split; [lia|]. split.
      * intros Hlen x Hx. apply elem_of_cons in Hx as [->|Hx]; [exact Hp|].
        apply IHeq; [lia|exact Hx].
      * intros Hall. f_equal. apply IHeq. intros x Hx. apply Hall. now right.
    + split; [lia|]. split; [lia|].
      intros Hall. rewrite (Hall a) in Hp; [discriminate|left].
Qed.

(** X3. On a readable document, [deleteList] returns [true] exactly when some
    list has the id; it then writes the document without the lists of that
    id, and otherwise returns [false] and leaves the file as it is. *)
Theorem deleteList_reports (id : string) (w : World) (data : DataFile) :
  holds w data ->
  (fst (deleteList id w) = Returned true <->
     exists wheel, wheel ∈ lists data /\ list_id wheel = id) /\
  (fst (deleteList id w) = Returned true ->
     snd (deleteList id w)
     = stored (mkDataFile
                 (List.filter (fun wheel => negb (String.eqb (list_id wheel) id)) (lists data)))) /\
  (fst (deleteList id w) = Returned false -> file (snd (deleteList id w)) = file w) /\
  (fst (deleteList id w) = Returned true \/ fst (deleteList id w) = Returned false).
Proof.
  intros Hholds. rewrite (deleteList_after_read w data (readDataFile_holds w data Hholds)).
  cbv zeta.
  destruct (filter_length_all (fun wheel => negb (String.eqb (list_id wheel) id)) (lists data))
    as [_ Hall].
  destruct (Nat.eqb_spec
              (length (List.filter (fun wheel => negb (String.eqb (list_id wheel) id))
                         (lists data)))
              (length (lists data))) as [Heq|Hne]; cbn [fst snd].
  - split; [|split; [discriminate|split; [|auto]]].
    + split; [discriminate|]. intros (wheel & Hin & Hid).
      pose proof (proj1 Hall Heq wheel Hin) as Hp. cbn in Hp.
      rewrite <- Hid, String.eqb_refl in Hp. discriminate.
    + intros _. destruct Hholds as [-> _]. reflexivity.
  - split; [|split; [reflexivity|split; [discriminate|auto]]].
    split; [|reflexivity]. intros _.
    destruct (List.existsb (fun wheel => String.eqb (list_id wheel) id) (lists data)) eqn:Hex.
    + apply List.existsb_exists in Hex as (wheel & Hin & Hid).
      exists wheel. split; [now apply list_elem_of_In|now apply String.eqb_eq].
    + exfalso. apply Hne, Hall. intros x Hx. apply list_elem_of_In in Hx.
      destruct (String.eqb (list_id x) id) eqn:Hx'; [|reflexivity].
      assert (List.existsb (fun wheel => String.eqb (list_id wheel) id) (lists data) = true)
        as Habs; [|congruence].
      apply List.existsb_exists. eauto.
Qed.

Lemma deleteList_reports_witness :
  (fst (deleteList "L"%string (stored (sampleData [red]))) = Returned true <->
     exists wheel, wheel ∈ lists (sampleData [red]) /\ list_id wheel = "L"%string) /\
  (fst (deleteList "L"%string (stored (sampleData [red]))) = Returned true ->
     snd (deleteList "L"%string (stored (sampleData [red])))
     = stored (mkDataFile
                 (List.filter (fun wheel => negb (String.eqb (list_id wheel) "L"%string))
                    (lists (sampleData [red]))))) /\
  (fst (deleteList "L"%string (stored (sampleData [red]))) = Returned false ->
     file (snd (deleteList "L"%string (stored (sampleData [red]))))
     = file (stored (sampleData [red]))) /\
  (fst (deleteList "L"%string (stored (sampleData [red]))) = Returned true \/
   fst (deleteList "L"%string (stored (sampleData [red]))) = Returned false).
Proof.
  apply (deleteList_reports "L"%string (stored (sampleData [red])) (sampleData [red])).
  split; [reflexivity|right; reflexivity].
Defined.

(** ** Initialization and reads *)

(** X6. [ensureDataFile] never replaces the content of a file that exists; it
    creates the empty document only when the file is absent and the
    initialization has not run yet; once the initialization has run it does
    nothing at all (an absent file is not created again), and calling it a
    second time changes nothing. *)
Theorem ensureDataFile_keeps_file (w : World) :
  (forall content, file w = Some content ->
     file (snd (ensureDataFile w)) = Some content) /\
  (file w = None -> dataFileInitialization w = None ->
     ensureDataFile w = (Returned tt, stored (mkDataFile []))) /\
  (forall settled, dataFileInitialization w = Some settled ->
     ensureDataFile w = (settled, w)) /\
  ensureDataFile (snd (ensureDataFile w)) = ensureDataFile w.
Proof.
  destruct w as [[content|] [settled|]]; cbn.
  - repeat split; try discriminate; auto. now intros s [= <-].
  - repeat split; try discriminate; auto.
  - repeat split; try discriminate; auto. now intros s [= <-].
  - repeat split; discriminate.
Qed.

Lemma getLists_stored (data : DataFile) :
  getLists (stored data) = (Returned (lists data), stored data).
Proof. reflexivity. Qed.

Lemma getList_stored (id : string) (data : DataFile) :
  getList id (stored data)
  = (Returned (List.find (fun wheel => String.eqb (list_id wheel) id) (lists data)),
     stored data).
Proof. reflexivity. Qed.

Lemma getLists_run {disk : Disk} (w : World) :
  getLists w = match readDataFile w with
               | (Returned data, w') => (Returned (lists data), w')
               | (Threw e, w') => (Threw e, w')
               end.
Proof. reflexivity. Qed.

Lemma getList_run {disk : Disk} (id : string) (w : World) :
  getList id w
  = match readDataFile w with
    | (Returned data, w') =>
        (Returned (List.find (fun wheel => String.eqb (list_id wheel) id) (lists data)), w')
    | (Threw e, w') => (Threw e, w')
    end.
Proof. reflexivity. Qed.

Lemma readDataFile_keeps_file (w : World) (content : FileContent) :
  file w = Some content -> file (snd (readDataFile w)) = Some content.
Proof.
  intros Hfile.
  destruct (readDataFile_cases w) as [(data & -> & [Hw|[Hw _]])|(e & w' & -> & Hw)];
    cbn [snd stored file]; congruence.
Qed.

Lemma readDataFile_unparseable (w : World) :
  file w = Some Unparseable ->
  (forall e, dataFileInitialization w <> Some (Threw e)) ->
  fst (readDataFile w) = Threw (WheelStoreError DATA_CORRUPT).
Proof.
  destruct w as [f [[[]|e]|]]; cbn [file dataFileInitialization]; intros -> Hmemo.
  - reflexivity.
  - now contradiction (Hmemo e).
  - reflexivity.
Qed.

(** X7. Reading never writes to a file that exists: [getLists] and [getList]
    leave its content as it is, whether they return or throw; on content that
    does not parse they throw [DATA_CORRUPT] (unless the initialization had
    failed), and on a document they return its lists, and the first list of
    the id. *)
Theorem reads_keep_file (w : World) (content : FileContent) :
  file w = Some content ->
  file (snd (getLists w)) = Some content /\
  (forall id, file (snd (getList id w)) = Some content) /\
  (content = Unparseable ->
   (forall e, dataFileInitialization w <> Some (Threw e)) ->
   fst (getLists w) = Threw (WheelStoreError DATA_CORRUPT) /\
   forall id, fst (getList id w) = Threw (WheelStoreError DATA_CORRUPT)) /\
  (forall data, content = Json data ->
   (forall e, dataFileInitialization w <> Some (Threw e)) ->
   fst (getLists w) = Returned (lists data) /\
   forall id, fst (getList id w)
              = Returned (List.find (fun wheel => String.eqb (list_id wheel) id) (lists data))).
Proof.
  intros Hfile. pose proof (readDataFile_keeps_file w content Hfile) as Hkeep.
  split; [|split; [|split]].
  - rewrite getLists_run. now destruct (readDataFile w) as [[data|e] w'].
  - intros id. rewrite getList_run. now destruct (readDataFile w) as [[data|e] w'].
  - intros -> Hmemo. pose proof (readDataFile_unparseable w Hfile Hmemo) as Hread.
    split; [|intros id]; [rewrite getLists_run|rewrite getList_run];
      destruct (readDataFile w) as [[data|e] w']; cbn in Hread |- *; congruence.
  - intros data -> Hmemo.
    assert (Hholds : holds w data).
    { split; [exact Hfile|]. destruct (dataFileInitialization w) as [[[]|e]|]; auto.
      now contradiction (Hmemo e). }
    split; [|intros id]; [rewrite getLists_run|rewrite getList_run];
      now rewrite (readDataFile_holds w data Hholds).
Qed.

Lemma reads_keep_file_witness :
  file (snd (getLists (mkWorld (Some Unparseable) None))) = Some Unparseable /\
  (forall id, file (snd (getList id (mkWorld (Some Unparseable) None))) = Some Unparseable) /\
  (Unparseable = Unparseable ->
   (forall e, dataFileInitialization (mkWorld (Some Unparseable) None) <> Some (Threw e)) ->
   fst (getLists (mkWorld (Some Unparseable) None)) = Threw (WheelStoreError DATA_CORRUPT) /\
   forall id, fst (getList id (mkWorld (Some Unparseable) None))
              = Threw (WheelStoreError DATA_CORRUPT)) /\
  (forall data, Unparseable = Json data ->
   (forall e, dataFileInitialization (mkWorld (Some Unparseable) None) <> Some (Threw e)) ->
   fst (getLists (mkWorld (Some Unparseable) None)) = Returned (lists data) /\
   forall id, fst (getList id (mkWorld (Some Unparseable) None))
              = Returned (List.find (fun wheel => String.eqb (list_id wheel) id) (lists data))).
Proof.
  apply (reads_keep_file (mkWorld (Some Unparseable) None) Unparseable). reflexivity.
Defined.

(** ** Mutations followed by reads *)

Lemma stored_holds (data : DataFile) : holds (stored data) data.
Proof. split; [reflexivity|right; reflexivity]. Qed.

Lemma readDataFile_stored (data : DataFile) :
  readDataFile (stored data) = (Returned data, stored data).
Proof. reflexivity. Qed.

Lemma find_app_last {A} (p : A -> bool) (l : list A) (x : A) :
  (forall y, y ∈ l -> p y = false) -> p x = true -> List.find p (l ++ [x]) = Some x.
Proof.
  intros Hl Hx. induction l as [|a l IH]; simpl; [now rewrite Hx|].
  rewrite (Hl a) by left. apply IH. intros y Hy. apply Hl. now right.
Qed.

Lemma find_insert_first (id : string) (ls : list WheelList) :
  forall (i : nat) (old new : WheelList),
    first_match id ls i old -> list_id new = id ->
    List.find (fun wheel => String.eqb (list_id wheel) id) (<[i := new]> ls) = Some new.
Proof.
  induction ls as [|l ls IH]; intros i old new (Hold & Hid & Hfirst) Hnew.
  - now rewrite lookup_nil in Hold.
  - destruct i as [|i]; simpl in *.
    + now rewrite Hnew, String.eqb_refl.
    + destruct (String.eqb_spec (list_id l) id) as [Heq|_].
      * exfalso. apply (Hfirst 0%nat l); [lia|reflexivity|exact Heq].
      * apply (IH i old new); [|exact Hnew]. repeat split; [exact Hold|exact Hid|].
        intros j other Hj Hother. apply (Hfirst (S j) other); [lia|exact Hother].
Qed.

Lemma find_insert_other (id other : string) (ls : list WheelList) :
  forall (i : nat) (old new : WheelList),
    ls !! i = Some old -> list_id old = id -> list_id new = id -> other <> id ->
    List.find (fun wheel => String.eqb (list_id wheel) other) (<[i := new]> ls)
    = List.find (fun wheel => String.eqb (list_id wheel) other) ls.
Proof.
  induction ls as [|l ls IH]; intros i old new Hold Hid Hnew Hother; [reflexivity|].
  destruct i as [|i]; simpl in *.
  - injection Hold as ->. rewrite Hid, Hnew.
    destruct (String.eqb_spec id other); [congruence|reflexivity].
  - destruct (String.eqb (list_id l) other); [reflexivity|]. now apply (IH i old new).
Qed.

Lemma find_filter_self (id : string) (ls : list WheelList) :
  List.find (fun wheel => String.eqb (list_id wheel) id)
    (List.filter (fun wheel => negb (String.eqb (list_id wheel) id)) ls) = None.
Proof.
  induction ls as [|l ls IH]; simpl; [reflexivity|].
  destruct (String.eqb (list_id l) id) eqn:Hl; simpl; [exact IH|now rewrite Hl].
Qed.

Lemma find_filter_other (id other : string) (ls : list WheelList) :
  other <> id ->
  List.find (fun wheel => String.eqb (list_id wheel) other)
    (List.filter (fun wheel => negb (String.eqb (list_id wheel) id)) ls)
  = List.find (fun wheel => String.eqb (list_id wheel) other) ls.
Proof.
  intros Hother. induction ls as [|l ls IH]; simpl; [reflexivity|].
  destruct (String.eqb_spec (list_id l) id) as [Heq|Hne]; simpl.
  - rewrite Heq. destruct (String.eqb_spec id other); [congruence|exact IH].
  - destruct (String.eqb (list_id l) other); [reflexivity|exact IH].
Qed.

Lemma filter_twice {A} (p : A -> bool) (l : list A) :
  List.filter p (List.filter p l) = List.filter p l.
Proof.
  induction l as [|a l IH]; simpl; [reflexivity|].
  destruct (p a) eqn:Hp; simpl; [rewrite Hp; now f_equal|exact IH].
Qed.

(** X8. Once [createList] has returned a list, [getLists] returns the lists
    of before followed by that list, and [getList] on its id returns it,
    provided no list of before has the same id (the id is what [nanoid()]
    gave). *)
Theorem createList_then_read (env : Env) (payload : CreateListPayload)
    (w w' : World) (created : WheelList) :
  createList env payload w = (Returned created, w') ->
  fst (getLists w') = Returned (document w ++ [created]) /\
  list_id created = nanoid env 0 /\
  ((forall other, other ∈ document w -> list_id other <> list_id created) ->
   fst (getList (list_id created) w') = Returned (Some created)).
Proof.
  destruct (readDataFile_cases w) as [(data & Hread & Hfile)|(e0 & w0 & Hread & Hfile)].
  - apply read_document in Hfile. rewrite Hfile, (createList_after_read w data Hread).
    intros [= <- <-]. split; [reflexivity|]. split; [reflexivity|].
    intros Hfresh. rewrite getList_stored. cbn [fst lists]. f_equal.
    apply find_app_last; [|apply String.eqb_refl].
    intros y Hy. apply String.eqb_neq. now apply Hfresh.
  - intros Hcreate. pose proof (apply_read_failed (CreateList env payload) _ _ _ Hread) as H.
    unfold apply in H. rewrite Hcreate in H. discriminate.
Qed.

Lemma createList_then_read_witness :
  fst (getLists (stored (mkDataFile [newList (sampleEnv 0) samplePayload])))
    = Returned (document (mkWorld None None) ++ [newList (sampleEnv 0) samplePayload]) /\
  list_id (newList (sampleEnv 0) samplePayload) = nanoid (sampleEnv 0) 0 /\
  ((forall other, other ∈ document (mkWorld None None) ->
      list_id other <> list_id (newList (sampleEnv 0) samplePayload)) ->
   fst (getList (list_id (newList (sampleEnv 0) samplePayload))
          (stored (mkDataFile [newList (sampleEnv 0) samplePayload])))
   = Returned (Some (newList (sampleEnv 0) samplePayload))).
Proof.
  apply (createList_then_read (sampleEnv 0) samplePayload (mkWorld None None)).
  reflexivity.
Defined.

(** X9. Once [deleteList] has returned, whatever it returned, no list of the
    id is left: [getList] on the id returns "not found" and a second
    [deleteList] returns [false] and changes nothing; the lists of every other
    id are found as before. *)
Theorem deleteList_then_read (id : string) (w w' : World) (removed : bool) :
  deleteList id w = (Returned removed, w') ->
  fst (getList id w') = Returned None /\
  deleteList id w' = (Returned false, w') /\
  (forall other, other <> id ->
     fst (getList other w')
     = Returned (List.find (fun wheel => String.eqb (list_id wheel) other) (document w))).
Proof.
  destruct (readDataFile_cases w) as [(data & Hread & Hfile)|(e0 & w0 & Hread & Hfile)].
  - apply read_document in Hfile. rewrite Hfile, (deleteList_after_read w data Hread).
    cbv zeta.
    pose proof (filter_length_all (fun wheel => negb (String.eqb (list_id wheel) id))
                  (lists data)) as [_ Hall].
    destruct (Nat.eqb_spec
                (length (List.filter (fun wheel => negb (String.eqb (list_id wheel) id))
                           (lists data)))
                (length (lists data))) as [Heq|Hne]; intros [= <- <-].
    + assert (Hsame : List.filter (fun wheel => negb (String.eqb (list_id wheel) id))
                        (lists data) = lists data).
      { pose proof (proj1 Hall Heq) as Hp. clear - Hp.
        induction (lists data) as [|l ls IH]; simpl; [reflexivity|].
        rewrite (Hp l) by left. f_equal. apply IH. intros x Hx. apply Hp. now right. }
      split; [|split].
      * rewrite getList_stored. cbn [fst]. now rewrite <- Hsame, find_filter_self.
      * rewrite (deleteList_after_read (stored data) data (readDataFile_stored data)).
        cbv zeta. now rewrite Heq, Nat.eqb_refl.
      * intros other Hother. now rewrite getList_stored.
    + split; [|split].
      * rewrite getList_stored. cbn [fst lists]. now rewrite find_filter_self.
      * rewrite (deleteList_after_read (stored _) _ (readDataFile_stored _)).
        cbv zeta. cbn [lists]. now rewrite filter_twice, Nat.eqb_refl.
      * intros other Hother. rewrite getList_stored. cbn [fst lists].
        now rewrite find_filter_other.
  - intros Hdelete. pose proof (apply_read_failed (DeleteList id) _ _ _ Hread) as H.
    unfold apply in H. rewrite Hdelete in H. discriminate.
Qed.

Lemma deleteList_then_read_witness :
  fst (getList "L"%string (stored (mkDataFile []))) = Returned None /\
  deleteList "L"%string (stored (mkDataFile [])) = (Returned false, stored (mkDataFile [])) /\
  (forall other, other <> "L"%string ->
     fst (getList other (stored (mkDataFile [])))
     = Returned (List.find (fun wheel => String.eqb (list_id wheel) other)
                   (document (stored (sampleData [red]))))).
Proof.
  apply (deleteList_then_read "L"%string (stored (sampleData [red])) _ true). reflexivity.
Defined.

(** X10. Once [updateList] has returned an updated list, that list has the
    id asked for and [getList] on the id returns it; the document has as many
    lists as before, and the lists of every other id are found as before. *)
Theorem updateList_then_read (env : Env) (id : string) (payload : UpdateListPayload)
    (w w' : World) (updated : WheelList) :
  updateList env id payload w = (Returned (Some updated), w') ->
  list_id updated = id /\
  fst (getList id w') = Returned (Some updated) /\
  length (document w') = length (document w) /\
  (forall other, other <> id ->
     fst (getList other w')
     = Returned (List.find (fun wheel => String.eqb (list_id wheel) other) (document w))).
Proof.
  destruct (readDataFile_cases w) as [(data & Hread & Hfile)|(e0 & w0 & Hread & Hfile)].
  - apply read_document in Hfile. rewrite Hfile, (updateList_after_read w data Hread).
    destruct (findIndex _ _) as [index|] eqn:Hfind; [|discriminate].
    apply findIndex_Some in Hfind as (old & Hmatch). pose proof Hmatch as (Hold & Hid & _).
    rewrite Hold. intros [= <- <-]. cbn [list_id updatedList].
    split; [exact Hid|]. split; [|split].
    + rewrite getList_stored. cbn [fst lists]. f_equal.
      now apply (find_insert_first id (lists data) index old).
    + unfold document. cbn. apply length_insert.
    + intros other Hother. rewrite getList_stored. cbn [fst lists]. f_equal.
      now apply (find_insert_other id other (lists data) index old).
  - intros Hupdate.
    pose proof (apply_read_failed (UpdateList env id payload) _ _ _ Hread) as H.
    unfold apply in H. rewrite Hupdate in H. discriminate.
Qed.

Lemma updateList_then_read_witness :
  let payload := mkUpdateListPayload (Some " New Name "%string) None None in
  let updated := updatedList (sampleEnv 0) payload (sampleList [red; blue]) in
  list_id updated = "L"%string /\
  fst (getList "L"%string (stored (mkDataFile [updated]))) = Returned (Some updated) /\
  length (document (stored (mkDataFile [updated])))
    = length (document (stored (sampleData [red; blue]))) /\
  (forall other, other <> "L"%string ->
     fst (getList other (stored (mkDataFile [updated])))
     = Returned (List.find (fun wheel => String.eqb (list_id wheel) other)
                   (document (stored (sampleData [red; blue]))))).
Proof.
  apply (updateList_then_read (sampleEnv 0) "L"%string
           (mkUpdateListPayload (Some " New Name "%string) None None)
           (stored (sampleData [red; blue]))).
  reflexivity.
Defined.

(** ** What a spin records *)

Lemma scan_member (target : number) (items : list WheelItem) :
  forall running item, scan target running items = Some item -> item ∈ items.
Proof.
  induction items as [|first rest IH]; intros running item; simpl; [discriminate|].
  destruct (JS.lt target _).
  - intros [= <-]. left.
  - intros H. right. eapply IH, H.
Qed.

Lemma choose_member (target : number) (items : list WheelItem) (item : WheelItem) :
  choose target items = Some item -> item ∈ items.
Proof.
  unfold choose, select. destruct (scan target (JS.of_Z 0) items) as [sel|] eqn:Hscan.
  - intros [= <-]. eapply scan_member, Hscan.
  - intros Hlast. apply last_Some in Hlast as [l' ->]. apply elem_of_app. right. left.
Qed.

(** X11. Whatever the weights are (integral or not) and whatever [randomInt]
    gives (in range or not), a spin that [recordSpin] returns carries the id
    and the label of one item of the first list of the id, the instant of the
    operation and the id [nanoid()] gave; afterwards [getList] returns that
    list with the spin at the head of its spins, its items as they were. *)
Theorem recordSpin_snapshot (env : Env) (id : string) (w w' : World) (spin : SpinResult) :
  recordSpin env id w = (Returned (Some spin), w') ->
  exists i old item,
    first_match id (document w) i old /\
    item ∈ list_items old /\
    spin = mkSpinResult (nanoid env 0) (item_id item) (item_label item) (now env) /\
    fst (getList id w') = Returned (Some (withSpin old spin (now env))) /\
    head (list_spins (withSpin old spin (now env))) = Some spin /\
    list_items (withSpin old spin (now env)) = list_items old.
Proof.
  destruct (readDataFile_cases w) as [(data & Hread & Hfile)|(e0 & w0 & Hread & Hfile)].
  - apply read_document in Hfile. rewrite Hfile, (recordSpin_after_read w data Hread).
    destruct (findIndex _ _) as [index|] eqn:Hfind; [|discriminate].
    apply findIndex_Some in Hfind as (old & Hmatch). pose proof Hmatch as (Hold & Hid & _).
    rewrite Hold. destruct (_ =? _)%nat; [discriminate|].
    destruct (JS.le _ _); [discriminate|].
    destruct (randomInt _ _); [|discriminate].
    destruct (choose _ _) as [chosen|] eqn:Hchosen; [|discriminate].
    intros [= <- <-]. exists index, old, chosen.
    split; [exact Hmatch|]. split; [eapply choose_member, Hchosen|].
    split; [reflexivity|]. split; [|split; reflexivity].
    rewrite getList_stored. cbn [fst lists]. f_equal.
    now apply (find_insert_first id (lists data) index old).
  - intros Hspin. pose proof (apply_read_failed (RecordSpin env id) _ _ _ Hread) as H.
    unfold apply in H. rewrite Hspin in H. discriminate.
Qed.

Lemma recordSpin_snapshot_witness :
  exists i old item,
    first_match "L"%string (document (stored (sampleData [red; blue]))) i old /\
    item ∈ list_items old /\
    spinOf (sampleEnv 9) blue (now (sampleEnv 9))
      = mkSpinResult (nanoid (sampleEnv 9) 0) (item_id item) (item_label item)
          (now (sampleEnv 9)) /\
    fst (getList "L"%string
           (stored (mkDataFile
                      [withSpin (sampleList [red; blue])
                         (spinOf (sampleEnv 9) blue (now (sampleEnv 9)))
                         (now (sampleEnv 9))])))
      = Returned (Some (withSpin old (spinOf (sampleEnv 9) blue (now (sampleEnv 9)))
                          (now (sampleEnv 9)))) /\
    head (list_spins (withSpin old (spinOf (sampleEnv 9) blue (now (sampleEnv 9)))
                        (now (sampleEnv 9))))
      = Some (spinOf (sampleEnv 9) blue (now (sampleEnv 9))) /\
    list_items (withSpin old (spinOf (sampleEnv 9) blue (now (sampleEnv 9)))
                  (now (sampleEnv 9))) = list_items old.
Proof.
  apply (recordSpin_snapshot (sampleEnv 9) "L"%string (stored (sampleData [red; blue]))).
  reflexivity.
Defined.

(** ** Draws and weights *)



(** ** Descriptions *)

Lemma nonempty_length (s : string) : (0 <? String.length s)%nat = negb (falsy s).
Proof. now destruct s. Qed.

Lemma sanitizeDescription_Some (d : string) :
  sanitizeDescription (Some d) = if falsy (trim d) then None else Some (trim d).
Proof. unfold sanitizeDescription. rewrite nonempty_length. now destruct (falsy (trim d)). Qed.

Lemma sanitizeDescription_trimmed (description : option string) (d : string) :
  sanitizeDescription description = Some d -> trim d = d /\ d <> EmptyString.
Proof.
  destruct description as [d0|]; [|discriminate].
  rewrite sanitizeDescription_Some. destruct (falsy (trim d0)) eqn:Hd; [discriminate|].
  intros [= <-]. split; [apply trim_idem|now apply falsy_false].
Qed.

(** X15. [sanitizeDescription] yields no description, or one that trimming
    leaves as it is and that is not empty; a supplied description is dropped
    exactly when nothing but white space is in it; sanitizing twice is
    sanitizing once. *)
Theorem sanitizeDescription_clean (description : option string) :
  (forall d, sanitizeDescription description = Some d -> trim d = d /\ d <> EmptyString) /\
  (forall d, description = Some d ->
     (sanitizeDescription description = None <-> trim d = EmptyString)) /\
  sanitizeDescription (sanitizeDescription description) = sanitizeDescription description.
Proof.
  destruct description as [d|]; [|split; [discriminate|split; [discriminate|reflexivity]]].
  rewrite (sanitizeDescription_Some d).
  destruct (trim d) as [|c rest] eqn:Htrim; cbn [falsy].
  - split; [discriminate|]. split; [|reflexivity]. intros d' [= <-]. now rewrite Htrim.
  - assert (Hidem : trim (String c rest) = String c rest)
      by (rewrite <- Htrim; apply trim_idem).
    split; [|split].
    + intros d' [= <-]. split; [exact Hidem|discriminate].
    + intros d' [= <-]. rewrite Htrim. split; discriminate.
    + now rewrite (sanitizeDescription_Some (String c rest)), Hidem.
Qed.

(** ** The documents the store makes *)

Lemma sanitizeName_clean (name : option string) :
  trim (sanitizeName name) = sanitizeName name /\ sanitizeName name <> EmptyString.
Proof.
  unfold sanitizeName. cbv zeta. rewrite nonempty_length.
  destruct name as [n|]; cbn [JS.nullish fmap option_fmap option_map].
  - destruct (falsy (trim n)) eqn:Hn; cbn [negb].
    + split; [reflexivity|discriminate].
    + split; [apply trim_idem|now apply falsy_false].
  - split; [reflexivity|discriminate].
Qed.

Lemma normalizeItems_normalized (nanoid : nat -> string) (k : nat) (items : list RawItemInput) :
  Forall normalizedItem (fst (normalizeItems nanoid k items)).
Proof.
  unfold normalizeItems.
  destruct (normalizeItems_fold nanoid items [] k) as (out & -> & Hlen & Hout). cbn [fst app].
  apply Forall_lookup. intros j item Hitem.
  assert (is_Some (survivors items !! j)) as [r Hr].
  { apply lookup_lt_is_Some. rewrite <- Hlen. eapply lookup_lt_Some, Hitem. }
  rewrite (Hout j r Hr) in Hitem. injection Hitem as <-.
  split; [apply normalizeWeight_integral|]. cbn.
  split; [apply trim_idem|eapply survivors_label, Hr].
Qed.

Lemma newList_normalized (env : Env) (payload : CreateListPayload) :
  normalizedList (newList env payload).
Proof.
  split; [apply normalizeItems_normalized|]. cbn.
  destruct (sanitizeName_clean (Some (create_name payload))) as [Htrim Hne].
  split; [exact Htrim|]. split; [exact Hne|].
  intros d. apply sanitizeDescription_trimmed.
Qed.

Lemma updatedList_normalized (env : Env) (payload : UpdateListPayload) (old : WheelList) :
  normalizedList old -> normalizedList (updatedList env payload old).
Proof.
  intros (Hitems & Hname & Hne & Hdesc). split; [|split; [|split]]; cbn.
  - destruct (update_items payload); [apply normalizeItems_normalized|exact Hitems].
  - destruct (update_name payload) as [n|]; [apply sanitizeName_clean|exact Hname].
  - destruct (update_name payload) as [n|]; [apply sanitizeName_clean|exact Hne].
  - destruct (update_description payload) as [d|]; [|exact Hdesc].
    intros d'. apply sanitizeDescription_trimmed.
Qed.

Lemma Forall_List_filter {A} (P : A -> Prop) (p : A -> bool) (l : list A) :
  Forall P l -> Forall P (List.filter p l).
Proof.
  induction 1 as [|a l Ha _ IH]; simpl; [constructor|].
  destruct (p a); [now constructor|exact IH].
Qed.

(** A world the store reaches holds no file yet, or a document that reads. *)
Lemma traced_readable (w : World) (h : list (list SpinResult)) :
  traced w h ->
  (file w = None /\ dataFileInitialization w = None) \/ exists data, holds w data.
Proof.
  induction 1 as [| w h _ IH | m w h _ IH].
  - now left.
  - destruct IH as [[Hf _]|(data & Hf & _)]; [now left|].
    right. exists data. split; [exact Hf|now left].
  - right.
    assert (Hread : exists data, readDataFile w = (Returned data, stored data)).
    { destruct IH as [[Hf Hm]|(data & Hholds)].
      - destruct w as [f memo]. cbn in Hf, Hm. subst. now exists (mkDataFile []).
      - exists data. now apply readDataFile_holds. }
    destruct Hread as (data & Hread).
    assert (Hstored : forall d, holds (stored d) d) by (intros d; apply stored_holds).
    destruct m; unfold apply.
    + rewrite (createList_after_read w data Hread). eauto.
    + rewrite (updateList_after_read w data Hread).
      destruct (findIndex _ _); [destruct (lists data !! _)|]; eauto.
    + rewrite (deleteList_after_read w data Hread). cbv zeta.
      destruct (_ =? _)%nat; eauto.
    + rewrite (recordSpin_after_read w data Hread).
      destruct (findIndex _ _); [destruct (lists data !! _)|]; eauto.
      destruct (_ =? _)%nat; eauto. destruct (JS.le _ _); eauto.
      destruct (randomInt _ _); eauto.
      destruct (choose _ _); eauto.
Qed.

Lemma traced_normalized (w : World) (h : list (list SpinResult)) :
  traced w h -> Forall normalizedList (document w).
Proof.
  induction 1 as [| w h _ IH | m w h _ IH].
  - constructor.
  - exact IH.
  - destruct (readDataFile_cases w) as [(data & Hread & Hfile)|(e0 & w0 & Hread & Hfile)].
    + apply read_document in Hfile. rewrite Hfile in IH.
      destruct m; unfold apply.
      * rewrite (createList_after_read w data Hread). cbn.
        apply Forall_app. split; [exact IH|].
        constructor; [apply newList_normalized|constructor].
      * rewrite (updateList_after_read w data Hread).
        destruct (findIndex _ _) as [index|]; [|exact IH].
        destruct (lists data !! index) as [old|] eqn:Hold; [|exact IH]. cbn.
        apply Forall_insert; [exact IH|]. apply updatedList_normalized.
        eapply Forall_lookup_1; eauto.
      * rewrite (deleteList_after_read w data Hread). cbv zeta.
        destruct (_ =? _)%nat; cbn; [exact IH|]. now apply Forall_List_filter.
      * rewrite (recordSpin_after_read w data Hread).
        destruct (findIndex _ _) as [index|]; [|exact IH].
        destruct (lists data !! index) as [old|] eqn:Hold; [|exact IH].
        destruct (_ =? _)%nat; [exact IH|]. destruct (JS.le _ _); [exact IH|].
        destruct (randomInt _ _); [|exact IH].
        destruct (choose _ _) as [chosen|]; [|exact IH]. cbn.
        apply Forall_insert; [exact IH|].
        exact (Forall_lookup_1 _ _ _ _ IH Hold).
    + rewrite (apply_read_failed m w w0 e0 Hread). cbn [snd].
      unfold document in *. now rewrite Hfile.
Qed.

Lemma normalized_weights (items : list WheelItem) :
  Forall normalizedItem items ->
  exists ws, item_weight <$> items = JS.of_Z <$> ws /\ Forall (Z.le 1) ws.
Proof.
  induction 1 as [|item items ((k & Hk & Hle) & _) _ (ws & Hws & Hall)].
  - now exists [].
  - exists (k :: ws). cbn. rewrite Hk, Hws. split; [reflexivity|now constructor].
Qed.

Lemma sumZ_positive (ws : list Z) : Forall (Z.le 1) ws -> ws <> [] -> 0 < sumZ ws.
Proof.
  intros Hws Hne. destruct Hws as [|w ws Hw Hrest]; [contradiction|].
  pose proof (sumZ_nonneg ws) as H. simpl.
  assert (Forall (Z.le 0) ws) by (eapply Forall_impl; [exact Hrest|intros; cbn in *; lia]).
  specialize (H ltac:(assumption)). lia.
Qed.

(** The weight guard does not fire on a list as the store makes them. *)
Lemma normalized_total (wheel : WheelList) :
  normalizedList wheel -> list_items wheel <> [] ->
  JS.le (totalWeight (list_items wheel)) (JS.of_Z 0) = false.
Proof.
  intros (Hitems & _) Hne. destruct (normalized_weights _ Hitems) as (ws & Hws & Hall).
  rewrite (totalWeight_of_Z _ _ Hws), le_of_Z. apply Z.leb_gt. apply sumZ_positive; [exact Hall|].
  intros ->. destruct (list_items wheel); [contradiction|discriminate].
Qed.

(** The total weight of a list as the store makes them, with an item. *)
Lemma normalized_sum (wheel : WheelList) :
  normalizedList wheel -> list_items wheel <> [] ->
  exists total, totalWeight (list_items wheel) = JS.of_Z total /\ 0 < total.
Proof.
  intros (Hitems & _) Hne. destruct (normalized_weights _ Hitems) as (ws & Hws & Hall).
  exists (sumZ ws). split; [now apply totalWeight_of_Z|].
  apply sumZ_positive; [exact Hall|].
  intros ->. destruct (list_items wheel); [contradiction|discriminate].
Qed.

(** X12. In every world the store reaches from an absent data file, every
    list of the document is normalized: its name and its labels are trimmed
    and not empty, its description is absent or trimmed and not empty, and
    every weight is an integer that is at least 1.  So the guard on the total
    weight never fires there, and [recordSpin] throws [NO_ITEMS] only for a
    list without items.  On a list with an item the outcome is decided by the
    bound of [randomInt]: a spin, whatever the generator gives, when the
    total weight is at most [RAND_MAX]; above it the [RangeError] of
    [randomInt] while the total is a safe integer, and its [TypeError] when
    it is not.  Nothing caps the weights, so such totals are reached. *)
Theorem reachable_normalized (w : World) (h : list (list SpinResult)) :
  traced w h ->
  Forall normalizedList (document w) /\
  (forall env id i wheel,
     first_match id (document w) i wheel -> list_items wheel <> [] ->
     let total := totalWeight (list_items wheel) in
     let r := fst (recordSpin env id w) in
     JS.le total (JS.of_Z 0) = false /\
     (JS.le total (JS.of_Z RAND_MAX) = true -> exists spin, r = Returned (Some spin)) /\
     (JS.le total (JS.of_Z RAND_MAX) = false ->
      (JS.isSafeInteger total = true -> r = Threw RangeError) /\
      (JS.isSafeInteger total = false -> r = Threw TypeError))) /\
  (forall env id,
     fst (recordSpin env id w) = Threw (WheelStoreError NO_ITEMS) ->
     exists i wheel, first_match id (document w) i wheel /\ list_items wheel = []).
Proof.
  intros Htraced. pose proof (traced_normalized w h Htraced) as Hnormal.
  split; [exact Hnormal|].
  destruct (traced_readable w h Htraced) as [[Hf Hm]|(data & Hholds)].
  - destruct w as [f memo]. cbn in Hf, Hm. subst. split.
    + intros env id i wheel (Hwheel & _). now destruct i.
    + intros env id. discriminate.
  - pose proof (readDataFile_holds w data Hholds) as Hread.
    assert (Hdoc : document w = lists data) by (unfold document; now rewrite (proj1 Hholds)).
    rewrite Hdoc in *. split.
    + intros env id i wheel Hmatch Hne total r. subst total r.
      pose proof (first_match_findIndex id _ i wheel Hmatch) as [Hfind Hwheel].
      assert (Hwheel' : normalizedList wheel) by (eapply Forall_lookup_1; eauto).
      destruct (normalized_sum wheel Hwheel' Hne) as (total & Htotal & Hpos).
      rewrite (recordSpin_after_read w data Hread), Hfind, Hwheel.
      destruct (list_items wheel) as [|first rest] eqn:Hitems; [contradiction|].
      cbn [length Nat.eqb].
      rewrite Htotal, !le_of_Z, isSafeInteger_of_Z, randomInt_of_Z.
      destruct (Z.leb_spec total 0); [lia|].
      assert (RAND_MAX < 2 ^ 53) by reflexivity.
      split; [reflexivity|].
      destruct (Z.leb_spec (2 ^ 53) (Z.abs total)), (Z.ltb_spec RAND_MAX total),
        (Z.leb_spec total RAND_MAX), (Z.leb_spec (Z.abs total) (2 ^ 53 - 1));
        try lia; cbn [fst]; (split; [|split]); try discriminate; try reflexivity.
      intros _.
      destruct (choose_is_Some (JS.of_Z (generated env (JS.of_Z total))) (first :: rest))
        as [chosen ->]; [discriminate|]. cbn. eauto.
    + intros env id. rewrite (recordSpin_after_read w data Hread).
      destruct (findIndex _ _) as [index|] eqn:Hfind; [|discriminate].
      apply findIndex_Some in Hfind as (wheel & Hmatch). pose proof Hmatch as (Hwheel & _).
      rewrite Hwheel. destruct (list_items wheel) as [|first rest] eqn:Hitems.
      * intros _. exists index, wheel. auto.
      * cbn [length Nat.eqb]. rewrite <- Hitems.
        rewrite (normalized_total wheel); [|eapply Forall_lookup_1; eauto|congruence].
        destruct (randomInt_cases env (totalWeight (list_items wheel)))
          as [(-> & _)|[(-> & _)|(-> & _)]]; try discriminate.
        destruct (choose _ _); discriminate.
Qed.

Lemma reachable_normalized_witness :
  Forall normalizedList (document sampleWorld) /\
  (forall env id i wheel,
     first_match id (document sampleWorld) i wheel -> list_items wheel <> [] ->
     let total := totalWeight (list_items wheel) in
     let r := fst (recordSpin env id sampleWorld) in
     JS.le total (JS.of_Z 0) = false /\
     (JS.le total (JS.of_Z RAND_MAX) = true -> exists spin, r = Returned (Some spin)) /\
     (JS.le total (JS.of_Z RAND_MAX) = false ->
      (JS.isSafeInteger total = true -> r = Threw RangeError) /\
      (JS.isSafeInteger total = false -> r = Threw TypeError))) /\
  (forall env id,
     fst (recordSpin env id sampleWorld) = Threw (WheelStoreError NO_ITEMS) ->
     exists i wheel, first_match id (document sampleWorld) i wheel /\ list_items wheel = []).
Proof.
  apply (reachable_normalized sampleWorld sampleLog).
  exact (traced_apply (RecordSpin (sampleEnv 1) "0"%string) _ _
           (traced_apply (CreateList (sampleEnv 0) samplePayload) _ _ traced_start)).
Defined.

(** X13. A store that starts from an absent data file and is the only one to
    touch it, on a disk that rejects no call, never fails with [DATA_CORRUPT]
    nor on the file system: what it wrote reads back, and [getLists] returns
    the document.  The one mutation that throws is [recordSpin], and what it
    throws is [NO_ITEMS] or the [RangeError] or [TypeError] of [randomInt]. *)
Theorem reachable_failures (w : World) (h : list (list SpinResult)) :
  traced w h ->
  (forall m e, fst (apply m w) = Some e ->
     (exists env id, m = RecordSpin env id) /\
     (e = WheelStoreError NO_ITEMS \/ e = RangeError \/ e = TypeError)) /\
  fst (getLists w) = Returned (document w).
Proof.
  intros Htraced.
  assert (Hread : exists data, readDataFile w = (Returned data, stored data) /\
                               document w = lists data).
  { destruct (traced_readable w h Htraced) as [[Hf Hm]|(data & Hholds)].
    - destruct w as [f memo]. cbn in Hf, Hm. subst. now exists (mkDataFile []).
    - exists data. split; [now apply readDataFile_holds|].
      unfold document. now rewrite (proj1 Hholds). }
  destruct Hread as (data & Hread & Hdoc). split.
  - intros m e. destruct m; unfold apply.
    + rewrite (createList_after_read w data Hread). discriminate.
    + rewrite (updateList_after_read w data Hread).
      destruct (findIndex _ _) as [index|] eqn:Hfind; [|discriminate].
      apply findIndex_Some in Hfind as (old & Hold & _). rewrite Hold. discriminate.
    + rewrite (deleteList_after_read w data Hread). cbv zeta.
      destruct (_ =? _)%nat; discriminate.
    + intros He. split; [eauto|]. revert He.
      rewrite (recordSpin_after_read w data Hread).
      destruct (findIndex _ _) as [index|] eqn:Hfind; [|discriminate].
      apply findIndex_Some in Hfind as (old & Hold & _). rewrite Hold.
      destruct (list_items old) as [|first rest] eqn:Hitems; cbn [length Nat.eqb].
      * intros [= <-]. auto.
      * destruct (JS.le _ _); [intros [= <-]; auto|].
        destruct (randomInt_cases env (totalWeight (first :: rest)))
          as [(-> & _)|[(-> & _)|(-> & _)]]; [|intros [= <-]; auto..].
        destruct (choose_is_Some
                    (JS.of_Z (generated env (totalWeight (first :: rest)))) (first :: rest))
          as [chosen ->]; [discriminate|]. discriminate.
  - rewrite getLists_run, Hread, Hdoc. reflexivity.
Qed.

Lemma reachable_failures_witness :
  (forall m e, fst (apply m sampleWorld) = Some e ->
     (exists env id, m = RecordSpin env id) /\
     (e = WheelStoreError NO_ITEMS \/ e = RangeError \/ e = TypeError)) /\
  fst (getLists sampleWorld) = Returned (document sampleWorld).
Proof.
  apply (reachable_failures sampleWorld sampleLog).
  exact (traced_apply (RecordSpin (sampleEnv 1) "0"%string) _ _
           (traced_apply (CreateList (sampleEnv 0) samplePayload) _ _ traced_start)).
Defined.

(** ** The queue promise *)

Section QueueAfter.

Context {T : Type}.
Implicit Types (calls : list (nat * Queue.Operation T)) (queue : Queue.Promise unit).

Lemma runSerial_settled (at_ : nat) (operation : Queue.Operation T) queue :
  Queue.causal operation ->
  let '(next, queue') := Queue.runSerial at_ operation queue in
  Queue.settled queue' = Queue.settled next /\
  (Queue.settled queue <= Queue.settled next)%nat.
Proof.
  intros Hcausal.
  pose proof (runSerial_next at_ operation queue) as Hnext.
  pose proof (runSerial_queue at_ operation queue) as Hqueue.
  destruct (Queue.runSerial at_ operation queue) as [next queue'] eqn:Hrun.
  cbn in Hnext. destruct Hnext as [Hbegan Hop], Hqueue as [Hle _].
  pose proof (Hcausal (Queue.began next)) as Hc. rewrite Hop in Hc. cbn in Hc.
  split; [|lia].
  unfold Queue.runSerial in Hrun. injection Hrun as Hn Hq. subst queue'.
  unfold Queue.then_ at 1. rewrite Hn.
  destruct (Queue.outcome next); cbn; lia.
Qed.

Lemma queueAfter_settled calls : forall queue,
  (forall at_ operation, (at_, operation) ∈ calls -> Queue.causal operation) ->
  (Queue.settled queue <= Queue.settled (queueAfter calls queue))%nat /\
  (forall i p, Queue.runAll calls queue !! i = Some p ->
     (Queue.settled p <= Queue.settled (queueAfter calls queue))%nat) /\
  (forall p, last (Queue.runAll calls queue) = Some p ->
     Queue.settled (queueAfter calls queue) = Queue.settled p).
Proof.
  induction calls as [|[at0 op0] rest IH]; intros queue Hcausal.
  - cbn. split; [lia|]. split; [intros i p; now destruct i|discriminate].
  - cbn [queueAfter Queue.runAll].
    pose proof (runSerial_settled at0 op0 queue (Hcausal at0 op0 ltac:(left))) as Hstep.
    destruct (Queue.runSerial at0 op0 queue) as [next queue']. cbn [snd].
    destruct Hstep as [Hsame Hle].
    destruct (IH queue') as (Hmono & Hall & Hlast).
    { intros at_ operation Hin. apply (Hcausal at_). now right. }
    split; [lia|]. split.
    + intros [|i] p Hp; simpl in Hp.
      * injection Hp as <-. lia.
      * exact (Hall i p Hp).
    + intros p Hp. destruct (Queue.runAll rest queue') as [|p0 ps] eqn:Hrest.
      * cbn in Hp. injection Hp as <-.
        destruct rest as [|[at1 op1] rest']; [cbn; exact Hsame|].
        cbn in Hrest. destruct (Queue.runSerial at1 op1 queue'). discriminate.
      * apply Hlast. rewrite <- Hp. reflexivity.
Qed.

Lemma queueAfter_outcome calls : forall queue,
  Queue.outcome queue = Returned tt ->
  Queue.outcome (queueAfter calls queue) = Returned tt.
Proof.
  induction calls as [|[at0 op0] rest IH]; intros queue Hqueue; [exact Hqueue|].
  cbn [queueAfter]. apply IH.
  pose proof (runSerial_queue at0 op0 queue) as H.
  destruct (Queue.runSerial at0 op0 queue) as [next queue']. apply H.
Qed.

End QueueAfter.

(** X16. After any sequence of [runSerial] calls, with operations that settle,
    [this.queue] is a fulfilled promise, never a rejected one, whatever the
    operations threw; it settles when the operation submitted last settles,
    and not before any of the promises handed out has settled. *)
Theorem queue_never_rejects {T : Type} (calls : list (nat * Queue.Operation T)) :
  (forall at_ operation, (at_, operation) ∈ calls -> Queue.causal operation) ->
  let final := queueAfter calls Queue.Promise_resolve in
  let runs := Queue.runAll calls Queue.Promise_resolve in
  Queue.outcome final = Returned tt /\
  (forall i p, runs !! i = Some p -> (Queue.settled p <= Queue.settled final)%nat) /\
  (forall p, last runs = Some p -> Queue.settled final = Queue.settled p).
Proof.
  intros Hcausal final runs. subst final runs.
  split; [now apply queueAfter_outcome|].
  destruct (queueAfter_settled calls Queue.Promise_resolve Hcausal) as (_ & Hall & Hlast).
  split; [exact Hall|exact Hlast].
Qed.

Lemma queue_never_rejects_witness :
  let final := queueAfter sampleCalls Queue.Promise_resolve in
  let runs := Queue.runAll sampleCalls Queue.Promise_resolve in
  Queue.outcome final = Returned tt /\
  (forall i p, runs !! i = Some p -> (Queue.settled p <= Queue.settled final)%nat) /\
  (forall p, last runs = Some p -> Queue.settled final = Queue.settled p).
Proof.
  apply (queue_never_rejects sampleCalls).
  intros at_ operation Hin start.
  apply elem_of_cons in Hin as [[= -> ->]|Hin]; [cbn; lia|].
  apply elem_of_cons in Hin as [[= -> ->]|Hin]; [cbn; lia|].
  now apply not_elem_of_nil in Hin.
Defined.

(** ** The second store variant against the primary store *)

Lemma inlineWeight_ordinary (w : option number) :
  w <> Some JS.NaN -> w <> Some JS.PosInf -> Variant.inlineWeight w = normalizeWeight w.
Proof. destruct w as [[q| | |]|]; intros; try reflexivity; congruence. Qed.

Lemma variant_fold (nanoid : nat -> string) (items : list RawItemInput) :
  ordinaryWeights items ->
  forall acc k,
    fst (fold_left (normalizeItems_step nanoid) items (acc, k))
    = acc ++ Variant.normalizeItems nanoid k items.
Proof.
  unfold Variant.normalizeItems.
  induction 1 as [|item rest [Hnan Hinf] _ IH]; intros acc k.
  - cbn. now rewrite app_nil_r.
  - cbn [fold_left List.filter]. unfold normalizeItems_step at 2.
    rewrite nonempty_length. destruct (falsy (trim (raw_label item))); cbn [negb].
    + apply IH.
    + cbn [Variant.mapItems]. rewrite (inlineWeight_ordinary _ Hnan Hinf).
      destruct (raw_id item); rewrite IH, <- app_assoc; reflexivity.
Qed.

(** X17. On entries whose weights are neither NaN nor +Infinity, the
    [normalizeItems] of the second variant (a filter, then a map) returns the
    items the [normalizeItems] of the primary store (a reduce) returns, with
    the same ids drawn in the same order. *)
Theorem variant_normalizeItems_agree (nanoid : nat -> string) (k : nat)
    (items : list RawItemInput) :
  ordinaryWeights items ->
  Variant.normalizeItems nanoid k items = fst (normalizeItems nanoid k items).
Proof.
  intros Hitems. unfold normalizeItems. now rewrite (variant_fold nanoid items Hitems [] k).
Qed.

Lemma variant_normalizeItems_agree_witness :
  Variant.normalizeItems (nanoid (sampleEnv 0)) 1
    [mkRawItemInput None " Red "%string (Some (JS.Fin (5 # 2)));
     mkRawItemInput None "  "%string None;
     mkRawItemInput (Some "x"%string) "Blue"%string (Some JS.NegInf)]
  = fst (normalizeItems (nanoid (sampleEnv 0)) 1
           [mkRawItemInput None " Red "%string (Some (JS.Fin (5 # 2)));
            mkRawItemInput None "  "%string None;
            mkRawItemInput (Some "x"%string) "Blue"%string (Some JS.NegInf)]).
Proof.
  apply variant_normalizeItems_agree. repeat constructor; discriminate.
Defined.

Lemma Qle_bool_strict (p q : Q) : ~ (p == q)%Q -> Qle_bool p q = negb (Qle_bool q p).
Proof.
  intros Hne. destruct (Qle_bool p q) eqn:Hpq, (Qle_bool q p) eqn:Hqp; try reflexivity.
  - exfalso. apply Hne. apply Qle_antisym; now apply Qle_bool_iff.
  - exfalso.
    assert (Hp : ~ (p <= q)%Q) by (intros H; apply Qle_bool_iff in H; congruence).
    assert (Hq : ~ (q <= p)%Q) by (intros H; apply Qle_bool_iff in H; congruence).
    apply Qnot_le_lt in Hp. apply Hq. now apply Qlt_le_weak.
Qed.

Lemma variant_scan_integer (t : Z) (items : list WheelItem) :
  forall (ws : list Z) (r : Z),
    item_weight <$> items = JS.of_Z <$> ws ->
    VariantStore.scan (JS.of_Z t) (JS.of_Z r) items
    = scan (JS.of_Z (t - 1)) (JS.of_Z r) items.
Proof.
  induction items as [|item rest IH]; intros [|w ws] r Hw; try discriminate; [reflexivity|].
  injection Hw as Hw Hrest. cbn [VariantStore.scan scan].
  rewrite Hw, add_of_Z, le_of_Z, lt_of_Z, (IH ws _ Hrest).
  destruct (Z.leb_spec t (r + w)), (Z.ltb_spec (t - 1) (r + w)); try reflexivity; lia.
Qed.

Lemma variant_scan_fraction (q : Q) (items : list WheelItem) :
  (forall z, ~ (q == inject_Z z)%Q) ->
  forall (ws : list Z) (r : Z),
    item_weight <$> items = JS.of_Z <$> ws ->
    VariantStore.scan (JS.Fin q) (JS.of_Z r) items = scan (JS.Fin q) (JS.of_Z r) items.
Proof.
  intros Hq. induction items as [|item rest IH]; intros [|w ws] r Hw; try discriminate;
    [reflexivity|].
  injection Hw as Hw Hrest. cbn [VariantStore.scan scan].
  rewrite Hw, add_of_Z, (IH ws _ Hrest). unfold JS.of_Z at 1 3. cbn [JS.le JS.lt].
  now rewrite (Qle_bool_strict q (inject_Z (r + w)) (Hq _)).
Qed.

(** X18. On integral weights the selection loop of the second variant
    ([target <= running]) differs from the loop of the primary store
    ([target < running]) at integral targets only: at an integral target [t]
    it selects what the primary loop selects at [t - 1], so a target on the
    boundary of two buckets goes to the earlier item; at a target that is not
    an integer the two loops select the same item. *)
Theorem variant_select_boundary (items : list WheelItem) (ws : list Z) :
  item_weight <$> items = JS.of_Z <$> ws ->
  (forall t : Z,
     VariantStore.select (JS.of_Z t) items = select (JS.of_Z (t - 1)) items) /\
  (forall q : Q, (forall z, ~ (q == inject_Z z)%Q) ->
     VariantStore.select (JS.Fin q) items = select (JS.Fin q) items).
Proof.
  intros Hw. split.
  - intros t. now apply (variant_scan_integer t items ws 0).
  - intros q Hq. now apply (variant_scan_fraction q items Hq ws 0).
Qed.

Lemma variant_select_boundary_witness :
  (forall t : Z,
     VariantStore.select (JS.of_Z t) [red; blue] = select (JS.of_Z (t - 1)) [red; blue]) /\
  (forall q : Q, (forall z, ~ (q == inject_Z z)%Q) ->
     VariantStore.select (JS.Fin q) [red; blue] = select (JS.Fin q) [red; blue]).
Proof. apply (variant_select_boundary [red; blue] [1; 3]). reflexivity. Defined.

Lemma createName_sanitizeName (name : string) :
  VariantStore.createName name = sanitizeName (Some name).
Proof.
  unfold VariantStore.createName, sanitizeName. cbv zeta.
  cbn [JS.nullish fmap option_fmap option_map]. rewrite nonempty_length.
  now destruct (falsy (trim name)).
Qed.

Lemma cleanDescription_sanitizeDescription (description : option string) :
  VariantStore.cleanDescription description = sanitizeDescription description.
Proof. now destruct description. Qed.

(** X19. The second variant builds the same lists as the primary store,
    weights that are NaN or +Infinity apart, but for one case: on an update
    whose name is the empty string it keeps the name of the list, where the
    primary store sets it to "Untitled wheel". *)
Theorem variant_lists_agree (env : Env) :
  (forall payload,
     ordinaryWeights (JS.nullish (create_items payload) []) ->
     VariantStore.newList env payload = newList env payload) /\
  (forall payload old,
     update_name payload <> Some EmptyString ->
     ordinaryWeights (JS.nullish (update_items payload) []) ->
     VariantStore.updatedList env payload old = updatedList env payload old) /\
  (forall payload old,
     update_name payload = Some EmptyString ->
     list_name (VariantStore.updatedList env payload old) = list_name old /\
     list_name (updatedList env payload old) = "Untitled wheel"%string).
Proof.
  split; [|split].
  - intros payload Hitems. unfold VariantStore.newList, newList.
    rewrite createName_sanitizeName, cleanDescription_sanitizeDescription.
    unfold normalizeItems. now rewrite (variant_fold (nanoid env) _ Hitems [] 1).
  - intros payload old Hname Hitems. unfold VariantStore.updatedList, updatedList.
    f_equal.
    + destruct (update_name payload) as [[|c rest]|]; cbn; [congruence| |reflexivity].
      apply (createName_sanitizeName (String c rest)).
    + destruct (update_description payload); [|reflexivity].
      apply cleanDescription_sanitizeDescription.
    + destruct (update_items payload) as [items|]; [|reflexivity].
      unfold normalizeItems. now rewrite (variant_fold (nanoid env) items Hitems [] 0).
  - intros payload old Hname. cbn. now rewrite Hname.
Qed.

(** ** The HTTP routes *)

Lemma blank_name (name : string) :
  falsy name || (String.length (trim name) =? 0)%nat = falsy (trim name).
Proof.
  destruct name as [|c rest]; [reflexivity|]. cbn [falsy orb].
  now destruct (trim (String c rest)).
Qed.

Lemma answer_run {A} (call : Async A) (respond : A -> Routes.Response) (w : World) :
  Routes.answer call respond w
  = match call w with
    | (Returned value, w') => (respond value, w')
    | (Threw error, w') => (Routes.errorHandler error, w')
    end.
Proof. reflexivity. Qed.

Lemma errorHandler_status (error : Thrown) : Routes.status (Routes.errorHandler error) = 500%nat.
Proof. now destruct error as [[|]|call| |]. Qed.

(** X20. [POST /] answers 400 "Name is required" without touching the store
    (the data file is not even initialized) when the body is missing, has no
    name, or has a name with nothing but white space in it.  With any other
    name it answers 201 with the created list, whose name is the trimmed name
    of the body (the "Untitled wheel" default of the store is never used) and
    which is the last list of the document, or it answers 500 and the file is
    as it was. *)
Theorem postList_validation (env : Env) (w : World) :
  (forall payload,
     (forall name description items,
        payload = Some (Routes.mkCreateBody (Some name) description items) ->
        trim name = EmptyString) ->
     Routes.handle (Routes.PostList env payload) w
     = (Routes.mkResponse 400 (Routes.JsonMessage "Name is required"%string), w)) /\
  (forall name description items,
     trim name <> EmptyString ->
     let result :=
       Routes.handle
         (Routes.PostList env (Some (Routes.mkCreateBody (Some name) description items))) w in
     (exists wheel,
        fst result = Routes.mkResponse 201 (Routes.JsonList wheel) /\
        list_name wheel = trim name /\
        document (snd result) = document w ++ [wheel]) \/
     (Routes.status (fst result) = 500%nat /\ file (snd result) = file w)).
Proof.
  split.
  - intros [[[name|] description items]|] Hblank; try reflexivity.
    cbn [Routes.handle]. rewrite blank_name, (Hblank name description items eq_refl).
    reflexivity.
  - intros name description items Hname result. subst result.
    cbn [Routes.handle]. rewrite blank_name.
    destruct (falsy (trim name)) eqn:Hfalsy;
      [apply (proj2 (falsy_false _)) in Hname; congruence|].
    rewrite answer_run.
    destruct (readDataFile_cases w) as [(data & Hread & Hfile)|(e0 & w0 & Hread & Hfile)].
    + left. apply read_document in Hfile.
      rewrite (createList_after_read w data Hread), Hfile. cbn [fst snd].
      eexists. split; [reflexivity|]. split; [|reflexivity].
      cbn [list_name newList create_name]. unfold sanitizeName. cbv zeta.
      cbn [JS.nullish fmap option_fmap option_map]. now rewrite nonempty_length, Hfalsy.
    + right.
      pose proof (apply_read_failed
                    (CreateList env (mkCreateListPayload name description items)) _ _ _ Hread)
        as H.
      unfold apply in H.
      destruct (createList env (mkCreateListPayload name description items) w)
        as [[created|e] w1]; [discriminate|].
      injection H as _ ->. cbn [fst snd]. split; [apply errorHandler_status|exact Hfile].
Qed.

Lemma find_findIndex {A} (p : A -> bool) (l : list A) :
  List.find p l = match findIndex p l with
                  | Some i => l !! i
                  | None => None
                  end.
Proof.
  induction l as [|a l IH]; simpl; [reflexivity|].
  destruct (p a); [reflexivity|]. rewrite IH. now destruct (findIndex p l).
Qed.

Section ReadFailed.

Context {disk : Disk}.
Variables (w w0 : World) (e : Thrown).
Hypothesis Hread : readDataFile w = (Threw e, w0).

Lemma createList_read_failed (env : Env) (payload : CreateListPayload) :
  createList env payload w = (Threw e, w0).
Proof. unfold createList. now rewrite bind_run, Hread. Qed.

Lemma updateList_read_failed (env : Env) (id : string) (payload : UpdateListPayload) :
  updateList env id payload w = (Threw e, w0).
Proof. unfold updateList. now rewrite bind_run, Hread. Qed.

Lemma deleteList_read_failed (id : string) : deleteList id w = (Threw e, w0).
Proof. unfold deleteList. now rewrite bind_run, Hread. Qed.

Lemma recordSpin_read_failed (env : Env) (id : string) :
  recordSpin env id w = (Threw e, w0).
Proof. unfold recordSpin. now rewrite bind_run, Hread. Qed.

Lemma getLists_read_failed : getLists w = (Threw e, w0).
Proof. now rewrite getLists_run, Hread. Qed.

Lemma getList_read_failed (id : string) : getList id w = (Threw e, w0).
Proof. now rewrite getList_run, Hread. Qed.

(** A request that reaches the store is answered by the error handler, or,
    for a spin, with 400 when the error is [NO_ITEMS]. *)
Lemma handle_read_failed (request : Routes.Request) :
  (exists env payload, request = Routes.PostList env payload /\
     Routes.handle request w
     = (Routes.mkResponse 400 (Routes.JsonMessage "Name is required"%string), w)) \/
  (exists response, Routes.handle request w = (response, w0) /\
     (response = Routes.errorHandler e \/
      (e = WheelStoreError NO_ITEMS /\
       response = Routes.mkResponse 400 (Routes.JsonErrorMessage e)))).
Proof.
  destruct request as [|env [[[name|] description items]|]|id|env id payload|id|env id];
    cbn [Routes.handle]; try (left; eauto; fail).
  - right. rewrite answer_run, getLists_read_failed. eauto.
  - destruct (falsy name || _); [left; eauto|].
    right. rewrite answer_run, createList_read_failed. eauto.
  - right. rewrite answer_run, getList_read_failed. eauto.
  - right. rewrite answer_run, updateList_read_failed. eauto.
  - right. rewrite answer_run, deleteList_read_failed. eauto.
  - right. rewrite recordSpin_read_failed. destruct e as [[|]|call| |]; eauto.
Qed.

End ReadFailed.

(** X21. On unparseable content (and an initialization that has not failed)
    every request that reaches the store is answered 500 with the message
    that the stored data is unavailable, never with an empty list or a 404;
    the one other answer is the 400 of [POST /] for a missing or blank name.
    The file is left as it is. *)
Theorem corrupt_data_is_500 (request : Routes.Request) (w : World) :
  file w = Some Unparseable ->
  (forall e, dataFileInitialization w <> Some (Threw e)) ->
  (fst (Routes.handle request w)
     = Routes.mkResponse 500
         (Routes.JsonMessage
            "Stored wheel data is temporarily unavailable. Please try again later."%string) \/
   (exists env payload, request = Routes.PostList env payload /\
      fst (Routes.handle request w)
      = Routes.mkResponse 400 (Routes.JsonMessage "Name is required"%string))) /\
  file (snd (Routes.handle request w)) = Some Unparseable.
Proof.
  intros Hfile Hmemo.
  pose proof (readDataFile_unparseable w Hfile Hmemo) as Hthrown.
  pose proof (readDataFile_keeps_file w Unparseable Hfile) as Hkeep.
  destruct (readDataFile w) as [[data|e] w0] eqn:Hread; [discriminate|].
  cbn in Hthrown, Hkeep. injection Hthrown as ->.
  destruct (handle_read_failed w w0 _ Hread request)
    as [(env & payload & -> & Hrun)|(response & Hrun & [->|[[=] _]])];
    rewrite Hrun; cbn [fst snd]; (split; [|assumption]).
  - right. eauto.
  - left. reflexivity.
Qed.

Lemma corrupt_data_is_500_witness :
  (fst (Routes.handle Routes.GetLists (mkWorld (Some Unparseable) None))
     = Routes.mkResponse 500
         (Routes.JsonMessage
            "Stored wheel data is temporarily unavailable. Please try again later."%string) \/
   (exists env payload, Routes.GetLists = Routes.PostList env payload /\
      fst (Routes.handle Routes.GetLists (mkWorld (Some Unparseable) None))
      = Routes.mkResponse 400 (Routes.JsonMessage "Name is required"%string))) /\
  file (snd (Routes.handle Routes.GetLists (mkWorld (Some Unparseable) None)))
  = Some Unparseable.
Proof.
  apply (corrupt_data_is_500 Routes.GetLists (mkWorld (Some Unparseable) None));
    [reflexivity|discriminate].
Defined.

Lemma document_stored (data : DataFile) : document (stored data) = lists data.
Proof. reflexivity. Qed.

(** A request, once the file has been read: it is answered without a
    write, or with what [fs.writeFile] makes of the document handed over, a
    success status when the write is fulfilled and the answer of the error
    handler when it is rejected. *)
Lemma handle_on_disk {disk : Disk} (request : Routes.Request) (w : World) (data : DataFile) :
  readDataFile w = (Returned data, stored data) ->
  (exists response,
     Routes.handle request w = (response, w) \/
     Routes.handle request w = (response, stored data)) \/
  (exists next ok,
     (Routes.status ok < 400)%nat /\
     Routes.handle request w
     = let '(r, w') := fs_writeFile dataWrite (Json next) (stored data) in
       (match r with Returned _ => ok | Threw e => Routes.errorHandler e end, w')).
Proof.
  intros Hread.
  destruct request as [|env [[[name|] description items]|]|id|env id payload|id|env id];
    cbn [Routes.handle]; try (left; eauto; fail).
  - left. rewrite answer_run, getLists_run, Hread. eauto.
  - destruct (falsy name || _); [left; eauto|]. right.
    exists (mkDataFile (lists data ++ [newList env (mkCreateListPayload name description items)])),
      (Routes.mkResponse 201
         (Routes.JsonList (newList env (mkCreateListPayload name description items)))).
    split; [cbn; lia|].
    rewrite answer_run. unfold createList. rewrite bind_run, Hread. cbv zeta.
    rewrite bind_run, writeDataFile_stored. destruct dataWrite as [|[]]; reflexivity.
  - left. rewrite answer_run, getList_run, Hread. eauto.
  - rewrite answer_run. unfold updateList. rewrite bind_run, Hread.
    destruct (findIndex _ _) as [index|] eqn:Hfind; [|left; eauto].
    apply findIndex_Some in Hfind as (old & Hold & _). rewrite Hold. cbv zeta. right.
    exists (mkDataFile (<[index := updatedList env payload old]> (lists data))),
      (Routes.mkResponse 200 (Routes.JsonList (updatedList env payload old))).
    split; [cbn; lia|].
    rewrite bind_run, writeDataFile_stored. destruct dataWrite as [|[]]; reflexivity.
  - rewrite answer_run. unfold deleteList. rewrite bind_run, Hread. cbv zeta.
    destruct (_ =? _)%nat; [left; eauto|]. cbn [negb]. right.
    exists (mkDataFile
              (List.filter (fun wheel => negb (String.eqb (list_id wheel) id)) (lists data))),
      (Routes.mkResponse 204 Routes.Empty).
    split; [cbn; lia|].
    rewrite bind_run, writeDataFile_stored. destruct dataWrite as [|[]]; reflexivity.
  - unfold recordSpin. rewrite bind_run, Hread.
    destruct (findIndex _ _) as [index|] eqn:Hfind; [|left; eauto].
    apply findIndex_Some in Hfind as (old & Hold & _). rewrite Hold.
    destruct (_ =? _)%nat; [left; eauto|].
    destruct (JS.le _ _); [left; eauto|]. cbv zeta.
    destruct (randomInt env (totalWeight (list_items old))) as [drawn|error];
      [|left; destruct error as [[|]|call| |]; eauto].
    destruct (choose _ _) as [chosen|]; [|left; eauto]. right.
    exists (mkDataFile
              (<[index := withSpin old (spinOf env chosen (now env)) (now env)]> (lists data))),
      (Routes.mkResponse 201 (Routes.JsonSpin (spinOf env chosen (now env)))).
    split; [cbn; lia|].
    rewrite bind_run, writeDataFile_stored. destruct dataWrite as [|[]]; reflexivity.
Qed.

(** X22. A request that is answered 400 or 404 has changed nothing, whatever
    the disk does: the document is the one of before, and a file that existed
    has the content it had.  When no write is rejected the same holds of a
    request that is answered 500: the error came before the write. *)
Theorem error_responses_change_nothing {disk : Disk} (request : Routes.Request) (w : World) :
  Forall (fun wheel => exactWeights (list_items wheel)) (document w) ->
  (400 <= Routes.status (fst (Routes.handle request w)))%nat ->
  let unchanged :=
    document (snd (Routes.handle request w)) = document w /\
    (forall content, file w = Some content ->
       file (snd (Routes.handle request w)) = Some content) in
  ((Routes.status (fst (Routes.handle request w)) < 500)%nat -> unchanged) /\
  (initialWrite = Fulfils -> dataWrite = Fulfils -> unchanged).
Proof.
  intros _ Herror unchanged. subst unchanged.
  destruct (readDataFile_on_disk w)
    as [(data & Hread & Hfile)|(e0 & w0 & Hread & Hdoc & Hfile & _)].
  - assert (Hkeep : document (stored data) = document w /\
                    forall content, file w = Some content ->
                                    file (stored data) = Some content).
    { destruct Hfile as [Hw|(Hw & -> & _)].
      - split; [unfold document; now rewrite Hw|]. intros content. cbn. congruence.
      - split; [unfold document; now rewrite Hw|]. intros content. congruence. }
    destruct (handle_on_disk request w data Hread)
      as [(response & [Hrun|Hrun])|(next & ok & Hok & Hrun)];
      rewrite Hrun in Herror |- *; cbn [fst snd] in *.
    + now split.
    + now split.
    + destruct (fs_writeFile_stored dataWrite data next)
        as [(_ & Hwrite)|(left & w1 & Hrejects & Hwrite)];
        rewrite Hwrite in Herror |- *; cbn [fst snd] in *; [lia|].
      split; [cbn; lia|congruence].
  - assert (Hkeep : document w0 = document w /\
                    forall content, file w = Some content -> file w0 = Some content)
      by now split.
    destruct (handle_read_failed w w0 e0 Hread request)
      as [(env & payload & -> & Hrun)|(response & Hrun & _)];
      rewrite Hrun; cbn [fst snd]; now split.
Qed.

Lemma error_responses_change_nothing_witness :
  let disk := mkDisk false false Fulfils (Rejects CutShort) in
  let w := stored (sampleData [red]) in
  let unchanged :=
    document (snd (@Routes.handle disk (Routes.DeleteList "M"%string) w)) = document w /\
    (forall content, file w = Some content ->
       file (snd (@Routes.handle disk (Routes.DeleteList "M"%string) w)) = Some content) in
  ((Routes.status (fst (@Routes.handle disk (Routes.DeleteList "M"%string) w)) < 500)%nat ->
   unchanged) /\
  (@initialWrite disk = Fulfils -> @dataWrite disk = Fulfils -> unchanged).
Proof.
  apply (@error_responses_change_nothing (mkDisk false false Fulfils (Rejects CutShort))
           (Routes.DeleteList "M"%string) (stored (sampleData [red]))).
  - constructor; [|constructor].
    apply (exactSums_exactWeights [red] [1]); [reflexivity|].
    apply Z.leb_le. reflexivity.
  - apply Nat.leb_le. vm_compute. reflexivity.
Defined.

(** The answer to a spin of a list with an item and a total weight above 0:
    201 when [randomInt] accepts the total as a bound, 500 when it does not. *)
Lemma spin_answer (env : Env) (id : string) (w : World) (data : DataFile)
    (i : nat) (wheel : WheelList) :
  readDataFile w = (Returned data, stored data) ->
  first_match id (lists data) i wheel ->
  list_items wheel <> [] ->
  JS.le (totalWeight (list_items wheel)) (JS.of_Z 0) = false ->
  let total := totalWeight (list_items wheel) in
  let response := fst (Routes.handle (Routes.PostSpin env id) w) in
  (JS.isSafeInteger total = true /\ JS.le total (JS.of_Z RAND_MAX) = true /\
   exists spin, response = Routes.mkResponse 201 (Routes.JsonSpin spin)) \/
  ((JS.isSafeInteger total = false \/ JS.le total (JS.of_Z RAND_MAX) = false) /\
   response = Routes.mkResponse 500 (Routes.JsonMessage "Unexpected server error"%string)).
Proof.
  intros Hread Hmatch Hne Hpos total response. subst total response.
  pose proof (first_match_findIndex id _ i wheel Hmatch) as [Hfind Hwheel].
  cbn [Routes.handle]. rewrite (recordSpin_after_read w data Hread), Hfind, Hwheel.
  destruct (list_items wheel) as [|first rest] eqn:Hitems; [contradiction|].
  cbn [length Nat.eqb]. rewrite Hpos.
  destruct (randomInt_cases env (totalWeight (first :: rest)))
    as [(-> & Hsafe & _ & Hmax)|[(-> & Hsafe)|(-> & Hsafe & [Hle|Hmax])]].
  - left. split; [exact Hsafe|]. split; [exact Hmax|].
    destruct (choose_is_Some
                (JS.of_Z (generated env (totalWeight (first :: rest)))) (first :: rest))
      as [chosen ->]; [discriminate|]. cbn. eauto.
  - right. split; [now left|reflexivity].
  - congruence.
  - right. split; [now right|reflexivity].
Qed.

(** X23. On a document that reads, with weights the code adds without
    rounding and a disk that rejects no call: [GET /] answers 200 with the
    lists; the routes keyed by an id answer 404 exactly when no list has the
    id; otherwise [GET /:id] and [PUT /:id] answer 200 with a list of that id
    and [DELETE /:id] answers 204 without a body.  [POST /:id/spins] answers
    400 when the first list of the id has no item or a total weight [<= 0];
    otherwise it answers 201 with the spin when [randomInt] accepts the total
    weight as a bound, and 500 "Unexpected server error" when the total is
    not a safe integer or is above [RAND_MAX].  No other request is answered
    500. *)
Theorem routes_on_document (w : World) (data : DataFile) :
  holds w data ->
  Forall (fun wheel => exactWeights (list_items wheel)) (lists data) ->
  let absent id := forall wheel, wheel ∈ lists data -> list_id wheel <> id in
  let answers request := fst (Routes.handle request w) in
  let rejected total :=
    JS.isSafeInteger total = false \/ JS.le total (JS.of_Z RAND_MAX) = false in
  (forall request, Routes.status (answers request) = 500%nat ->
     exists env id i wheel,
       request = Routes.PostSpin env id /\
       first_match id (lists data) i wheel /\
       rejected (totalWeight (list_items wheel))) /\
  answers Routes.GetLists = Routes.mkResponse 200 (Routes.JsonLists (lists data)) /\
  (forall id, absent id ->
     answers (Routes.GetList id) = Routes.notFound /\
     answers (Routes.DeleteList id) = Routes.notFound /\
     forall env,
       answers (Routes.PostSpin env id) = Routes.notFound /\
       forall payload, answers (Routes.PutList env id payload) = Routes.notFound) /\
  (forall id i wheel, first_match id (lists data) i wheel ->
     answers (Routes.GetList id) = Routes.mkResponse 200 (Routes.JsonList wheel) /\
     answers (Routes.DeleteList id) = Routes.mkResponse 204 Routes.Empty /\
     forall env,
       (forall payload,
          answers (Routes.PutList env id payload)
          = Routes.mkResponse 200 (Routes.JsonList (updatedList env payload wheel))) /\
       (list_items wheel = [] \/
        JS.le (totalWeight (list_items wheel)) (JS.of_Z 0) = true ->
        answers (Routes.PostSpin env id)
        = Routes.mkResponse 400 (Routes.JsonErrorMessage (WheelStoreError NO_ITEMS))) /\
       (list_items wheel <> [] ->
        JS.le (totalWeight (list_items wheel)) (JS.of_Z 0) = false ->
        (JS.isSafeInteger (totalWeight (list_items wheel)) = true ->
         JS.le (totalWeight (list_items wheel)) (JS.of_Z RAND_MAX) = true ->
         exists spin,
           answers (Routes.PostSpin env id) = Routes.mkResponse 201 (Routes.JsonSpin spin)) /\
        (rejected (totalWeight (list_items wheel)) ->
         answers (Routes.PostSpin env id)
         = Routes.mkResponse 500
             (Routes.JsonMessage "Unexpected server error"%string)))).
Proof.
  intros Hholds _ absent answers rejected. subst absent answers rejected. cbv beta.
  pose proof (readDataFile_holds w data Hholds) as Hread.
  split; [|split; [|split]].
  - intros [|env [[[name|] description items]|]|id|env id payload|id|env id];
      cbn [Routes.handle]; try discriminate.
    + now rewrite answer_run, getLists_run, Hread.
    + destruct (falsy name || _); [discriminate|].
      now rewrite answer_run, (createList_after_read w data Hread).
    + rewrite answer_run, getList_run, Hread. cbn [fst]. now destruct (List.find _ _).
    + rewrite answer_run, (updateList_after_read w data Hread).
      destruct (findIndex _ _) as [index|] eqn:Hfind; [|discriminate].
      apply findIndex_Some in Hfind as (old & Hold & _). now rewrite Hold.
    + rewrite answer_run, (deleteList_after_read w data Hread). cbv zeta.
      now destruct (_ =? _)%nat.
    + intros Hstatus.
      destruct (findIndex (fun list => String.eqb (list_id list) id) (lists data))
        as [index|] eqn:Hfind.
      * apply findIndex_Some in Hfind as (old & Hmatch).
        exists env, id, index, old. split; [reflexivity|]. split; [exact Hmatch|].
        pose proof (first_match_findIndex id _ index old Hmatch) as [Hfind Hold].
        destruct (list_items old) as [|first rest] eqn:Hitems.
        { rewrite (recordSpin_after_read w data Hread), Hfind, Hold, Hitems in Hstatus.
          discriminate. }
        destruct (JS.le (totalWeight (first :: rest)) (JS.of_Z 0)) eqn:Hle.
        { rewrite (recordSpin_after_read w data Hread), Hfind, Hold, Hitems in Hstatus.
          cbn [length Nat.eqb] in Hstatus. rewrite Hle in Hstatus. discriminate. }
        destruct (spin_answer env id w data index old Hread Hmatch) as
          [(_ & _ & spin & Hspin)|(Hrejected & _)];
          [now rewrite Hitems|now rewrite Hitems| |now rewrite Hitems in Hrejected].
        cbn [Routes.handle] in Hspin. rewrite Hspin in Hstatus. discriminate.
      * rewrite (recordSpin_after_read w data Hread), Hfind in Hstatus. discriminate.
  - cbn [Routes.handle]. now rewrite answer_run, getLists_run, Hread.
  - intros id Habsent. apply findIndex_None in Habsent.
    cbn [Routes.handle]. rewrite !answer_run, getList_run, Hread, find_findIndex, Habsent.
    rewrite (deleteList_after_read w data Hread). cbv zeta.
    split; [reflexivity|]. split.
    + pose proof (filter_length_all (fun wheel => negb (String.eqb (list_id wheel) id))
                    (lists data)) as [_ Hall].
      rewrite (proj2 (Nat.eqb_eq _ _)); [reflexivity|]. apply Hall.
      intros x Hx. apply negb_true_iff, String.eqb_neq.
      now apply (proj1 (findIndex_None id (lists data)) Habsent).
    + intros env. rewrite (recordSpin_after_read w data Hread), Habsent.
      split; [reflexivity|]. intros payload.
      now rewrite answer_run, (updateList_after_read w data Hread), Habsent.
  - intros id i wheel Hmatch.
    pose proof (first_match_findIndex id _ i wheel Hmatch) as [Hfind Hwheel].
    cbn [Routes.handle]. rewrite !answer_run, getList_run, Hread, find_findIndex, Hfind, Hwheel.
    rewrite (deleteList_after_read w data Hread). cbv zeta.
    split; [reflexivity|]. split.
    + pose proof (filter_length_all (fun wheel => negb (String.eqb (list_id wheel) id))
                    (lists data)) as [_ Hall].
      destruct (Nat.eqb_spec
                  (length (List.filter (fun wheel => negb (String.eqb (list_id wheel) id))
                             (lists data)))
                  (length (lists data))) as [Heq|_]; [|reflexivity].
      exfalso. pose proof (proj1 Hall Heq wheel
                             ltac:(eapply list_elem_of_lookup_2, Hwheel)) as Hp.
      cbn in Hp. rewrite (proj1 (proj2 Hmatch)), String.eqb_refl in Hp. discriminate.
    + intros env. split; [|split].
      * intros payload.
        now rewrite answer_run, (updateList_after_read w data Hread), Hfind, Hwheel.
      * rewrite (recordSpin_after_read w data Hread), Hfind, Hwheel.
        intros [Hnil|Hle]; [now rewrite Hnil|].
        destruct (_ =? _)%nat; [reflexivity|]. now rewrite Hle.
      * intros Hne Hpos.
        destruct (spin_answer env id w data i wheel Hread Hmatch Hne Hpos)
          as [(Hsafe & Hmax & spin & Hspin)|([Hsafe|Hmax] & Herror)];
          cbn [Routes.handle] in *; (split; [intros Hs Hm|intros [Hs|Hm]]);
          try congruence; eauto.
Qed.

Lemma routes_on_document_witness :
  let w := stored (sampleData [red; blue]) in
  let data := sampleData [red; blue] in
  let absent id := forall wheel, wheel ∈ lists data -> list_id wheel <> id in
  let answers request := fst (Routes.handle request w) in
  let rejected total :=
    JS.isSafeInteger total = false \/ JS.le total (JS.of_Z RAND_MAX) = false in
  (forall request, Routes.status (answers request) = 500%nat ->
     exists env id i wheel,
       request = Routes.PostSpin env id /\
       first_match id (lists data) i wheel /\
       rejected (totalWeight (list_items wheel))) /\
  answers Routes.GetLists = Routes.mkResponse 200 (Routes.JsonLists (lists data)) /\
  (forall id, absent id ->
     answers (Routes.GetList id) = Routes.notFound /\
     answers (Routes.DeleteList id) = Routes.notFound /\
     forall env,
       answers (Routes.PostSpin env id) = Routes.notFound /\
       forall payload, answers (Routes.PutList env id payload) = Routes.notFound) /\
  (forall id i wheel, first_match id (lists data) i wheel ->
     answers (Routes.GetList id) = Routes.mkResponse 200 (Routes.JsonList wheel) /\
     answers (Routes.DeleteList id) = Routes.mkResponse 204 Routes.Empty /\
     forall env,
       (forall payload,
          answers (Routes.PutList env id payload)
          = Routes.mkResponse 200 (Routes.JsonList (updatedList env payload wheel))) /\
       (list_items wheel = [] \/
        JS.le (totalWeight (list_items wheel)) (JS.of_Z 0) = true ->
        answers (Routes.PostSpin env id)
        = Routes.mkResponse 400 (Routes.JsonErrorMessage (WheelStoreError NO_ITEMS))) /\
       (list_items wheel <> [] ->
        JS.le (totalWeight (list_items wheel)) (JS.of_Z 0) = false ->
        (JS.isSafeInteger (totalWeight (list_items wheel)) = true ->
         JS.le (totalWeight (list_items wheel)) (JS.of_Z RAND_MAX) = true ->
         exists spin,
           answers (Routes.PostSpin env id) = Routes.mkResponse 201 (Routes.JsonSpin spin)) /\
        (rejected (totalWeight (list_items wheel)) ->
         answers (Routes.PostSpin env id)
         = Routes.mkResponse 500
             (Routes.JsonMessage "Unexpected server error"%string)))).
Proof.
  apply (routes_on_document (stored (sampleData [red; blue])) (sampleData [red; blue])).
  - split; [reflexivity|right; reflexivity].
  - constructor; [|constructor].
    apply (exactSums_exactWeights [red; blue] [1; 3]); [reflexivity|].
    apply Z.leb_le. reflexivity.
Defined.

(** ** The workspace of the client *)

Lemma sanitizeName_fixed (s : string) :
  trim s = s -> s <> EmptyString -> sanitizeName (Some s) = s.
Proof.
  intros Htrim Hne. unfold sanitizeName. cbv zeta.
  cbn [JS.nullish fmap option_fmap option_map]. rewrite Htrim, nonempty_length.
  now rewrite (proj2 (falsy_false s) Hne).
Qed.

Lemma prepareItems_lookup (items : list Workspace.EditableItem) (j : nat)
    (item : Workspace.PreparedItem) :
  Workspace.prepareItems items !! j = Some item ->
  trim (Workspace.prepared_label item) = Workspace.prepared_label item /\
  falsy (Workspace.prepared_label item) = false /\
  normalizeWeight (Some (Workspace.prepared_weight item)) = Workspace.prepared_weight item.
Proof.
  intros Hitem. apply list_elem_of_lookup_2 in Hitem.
  unfold Workspace.prepareItems in Hitem. apply list_elem_of_omap in Hitem as (raw & _ & Hraw).
  cbv zeta in Hraw. destruct (falsy (trim (Workspace.edit_label raw))) eqn:Hlabel;
    [discriminate|]. injection Hraw as <-. cbn.
  split; [apply trim_idem|]. split; [exact Hlabel|].
  change (Workspace.sanitizeWeight (Workspace.edit_weight raw))
    with (normalizeWeight (Some (Workspace.edit_weight raw))).
  destruct (normalizeWeight_integral (Some (Workspace.edit_weight raw))) as (k & -> & Hk).
  now apply normalizeWeight_of_Z.
Qed.

Lemma survivors_all (raws : list RawItemInput) :
  (forall r, r ∈ raws -> falsy (trim (raw_label r)) = false) -> survivors raws = raws.
Proof.
  unfold survivors. induction raws as [|r raws IH]; intros Hall; [reflexivity|].
  cbn [List.filter]. rewrite (Hall r) by left. cbn [negb]. f_equal.
  apply IH. intros x Hx. apply Hall. now right.
Qed.

(** X24. What the client prepares is what the server stores.  The client's
    [sanitizeWeight] is the server's [normalizeWeight]; on the payload of
    [handleSave] the server's normalization drops no item and alters no label
    and no weight, keeps the ids the items had, and takes the name as sent.
    The description is the one sent when one is sent, and the one the list
    had when the form holds none: saving an emptied description does not
    remove the description of the list. *)
Theorem save_payload_is_stored (env : Env) (form : Workspace.Form) (old : WheelList) :
  let updated := updatedList env (Workspace.savePayload form) old in
  let prepared := Workspace.prepareItems (Workspace.form_items form) in
  (forall weight, Workspace.sanitizeWeight weight = normalizeWeight (Some weight)) /\
  list_name updated = Workspace.sanitizeNameInput (Workspace.form_name form) /\
  list_description updated
    = match Workspace.sanitizeDescriptionInput (Workspace.form_description form) with
      | Some description => Some description
      | None => list_description old
      end /\
  length (list_items updated) = length prepared /\
  (forall j item, prepared !! j = Some item ->
     exists kept,
       list_items updated !! j = Some kept /\
       item_label kept = Workspace.prepared_label item /\
       item_weight kept = Workspace.prepared_weight item /\
       (forall id, Workspace.prepared_id item = Some id -> item_id kept = id)).
Proof.
  intros updated prepared. subst updated prepared.
  split; [reflexivity|]. split; [|split].
  - cbn [list_name updatedList Workspace.savePayload update_name].
    change (Workspace.sanitizeNameInput (Workspace.form_name form))
      with (sanitizeName (Some (Workspace.form_name form))).
    destruct (sanitizeName_clean (Some (Workspace.form_name form))) as [Htrim Hne].
    now apply sanitizeName_fixed.
  - cbn [list_description updatedList Workspace.savePayload update_description].
    destruct (Workspace.sanitizeDescriptionInput (Workspace.form_description form))
      as [d|] eqn:Hd; [|reflexivity].
    destruct (sanitizeDescription_trimmed (Some (Workspace.form_description form)) d Hd)
      as [Htrim Hne].
    rewrite sanitizeDescription_Some, Htrim. now rewrite (proj2 (falsy_false d) Hne).
  - cbn [list_items updatedList Workspace.savePayload update_items].
    set (prepared := Workspace.prepareItems (Workspace.form_items form)).
    set (raws := (fun item => mkRawItemInput (Workspace.prepared_id item)
                                (Workspace.prepared_label item)
                                (Some (Workspace.prepared_weight item))) <$> prepared).
    assert (Hsurvive : survivors raws = raws).
    { apply survivors_all. intros r Hr. apply list_elem_of_fmap in Hr as (item & -> & Hitem).
      apply list_elem_of_lookup_1 in Hitem as [j Hj]. cbn [raw_label].
      destruct (prepareItems_lookup _ j item Hj) as (Htrim & Hfalsy & _).
      now rewrite Htrim. }
    unfold normalizeItems.
    destruct (normalizeItems_fold (nanoid env) raws [] 0) as (out & -> & Hlen & Hout).
    cbn [fst app]. rewrite Hsurvive in Hlen, Hout. split.
    + rewrite Hlen. unfold raws. apply length_fmap.
    + intros j item Hitem.
      destruct (prepareItems_lookup _ j item Hitem) as (Htrim & _ & Hweight).
      eexists. split.
      * apply Hout. unfold raws. rewrite list_lookup_fmap. fold prepared.
        now rewrite Hitem.
      * cbn. split; [exact Htrim|]. split; [exact Hweight|]. now intros id ->.
Qed.

Lemma number_eq_refl (k : Z) : Workspace.number_eq (JS.of_Z k) (JS.of_Z k) = true.
Proof. cbn. apply Qeq_bool_iff. reflexivity. Qed.

Lemma synced_items_unchanged (items : list WheelItem) :
  Forall normalizedItem items ->
  let prepared :=
    Workspace.prepareItems
      ((fun item => Workspace.mkEditableItem (Some (item_id item)) (item_label item)
                      (item_weight item)) <$> items) in
  length prepared = length items /\
  existsb (fun '(item, original) =>
             negb (String.eqb (item_label original) (Workspace.prepared_label item)) ||
             negb (Workspace.number_eq (item_weight original) (Workspace.prepared_weight item)))
          (zip prepared items) = false.
Proof.
  induction 1 as [|item items ((k & Hk & Hle) & Htrim & Hne) _ [IHlen IHex]].
  - split; reflexivity.
  - cbn [fmap list_fmap Workspace.prepareItems omap list_omap
         Workspace.edit_label Workspace.edit_id Workspace.edit_weight].
    rewrite Htrim, (proj2 (falsy_false _) Hne).
    change (Workspace.sanitizeWeight (item_weight item))
      with (normalizeWeight (Some (item_weight item))).
    rewrite Hk, (normalizeWeight_of_Z k Hle).
    split; [cbn [length]; f_equal; exact IHlen|].
    cbn [zip zip_with existsb Workspace.prepared_label Workspace.prepared_weight].
    rewrite String.eqb_refl, Hk, number_eq_refl. cbn [negb orb]. exact IHex.
Qed.

(** X25. A form that [syncFromList] has just filled from a normalized list
    (as every list of a document the store made is) shows no unsaved change:
    [hasChanges] is [false]. *)
Theorem synced_form_has_no_changes (wheel : WheelList) :
  normalizedList wheel ->
  Workspace.hasChanges (Some wheel) (Workspace.syncFromList (Some wheel)) = false.
Proof.
  intros (Hitems & Hname & Hne & Hdesc).
  destruct (synced_items_unchanged (list_items wheel) Hitems) as [Hlen Hex].
  unfold Workspace.hasChanges, Workspace.syncFromList. cbv zeta.
  cbn [Workspace.form_items Workspace.form_name Workspace.form_description].
  rewrite Hlen, Nat.eqb_refl. cbn [negb].
  change (Workspace.sanitizeNameInput (list_name wheel))
    with (sanitizeName (Some (list_name wheel))).
  rewrite (sanitizeName_fixed _ Hname Hne), String.eqb_refl. cbn [negb].
  assert (Hsame : Workspace.optional_eq (list_description wheel)
                    (Workspace.sanitizeDescriptionInput
                       (JS.nullish (list_description wheel) EmptyString)) = true).
  { destruct (list_description wheel) as [d|] eqn:Hd; [|reflexivity].
    destruct (Hdesc d eq_refl) as [Htrim Hd'].
    unfold Workspace.sanitizeDescriptionInput. cbv zeta. cbn [JS.nullish].
    rewrite Htrim, nonempty_length, (proj2 (falsy_false d) Hd'). cbn.
    apply String.eqb_refl. }
  rewrite Hsame. cbn [negb]. exact Hex.
Qed.

Lemma sampleList_normalized : normalizedList (sampleList [red; blue]).
Proof.
  split; [|split; [reflexivity|split; [discriminate|discriminate]]].
  repeat constructor; try discriminate.
  - exists 1. split; [reflexivity|lia].
  - exists 3. split; [reflexivity|lia].
Qed.

Lemma synced_form_has_no_changes_witness :
  Workspace.hasChanges (Some (sampleList [red; blue]))
    (Workspace.syncFromList (Some (sampleList [red; blue]))) = false.
Proof. apply synced_form_has_no_changes. exact sampleList_normalized. Defined.

(** X26. The list that [handleSpin] puts in the client's state after a spin
    is the list the server has stored: given the list as it was in the
    document and the spin [recordSpin] returned, the client computes the
    list that is now at the same place in the document. *)
Theorem client_spin_matches_server (env : Env) (id : string) (w w' : World)
    (spin : SpinResult) :
  recordSpin env id w = (Returned (Some spin), w') ->
  exists i old,
    first_match id (document w) i old /\
    document w' !! i = Some (Workspace.afterSpin old spin) /\
    length (document w') = length (document w).
Proof.
  destruct (readDataFile_cases w) as [(data & Hread & Hfile)|(e0 & w0 & Hread & Hfile)].
  - apply read_document in Hfile. rewrite Hfile, (recordSpin_after_read w data Hread).
    destruct (findIndex _ _) as [index|] eqn:Hfind; [|discriminate].
    apply findIndex_Some in Hfind as (old & Hmatch). pose proof Hmatch as (Hold & _).
    rewrite Hold. destruct (_ =? _)%nat; [discriminate|].
    destruct (JS.le _ _); [discriminate|].
    destruct (randomInt _ _); [|discriminate].
    destruct (choose _ _) as [chosen|]; [|discriminate].
    intros [= <- <-]. exists index, old. split; [exact Hmatch|].
    rewrite document_stored. cbn [lists]. split; [|apply length_insert].
    apply list_lookup_insert_eq. eapply lookup_lt_Some, Hold.
  - intros Hspin. rewrite (recordSpin_read_failed w w0 e0 Hread) in Hspin. discriminate.
Qed.

Lemma client_spin_matches_server_witness :
  exists i old,
    first_match "L"%string (document (stored (sampleData [red; blue]))) i old /\
    document (snd (recordSpin (sampleEnv 1) "L"%string (stored (sampleData [red; blue])))) !! i
    = Some (Workspace.afterSpin old (spinOf (sampleEnv 1) blue (now (sampleEnv 1)))) /\
    length (document (snd (recordSpin (sampleEnv 1) "L"%string
                             (stored (sampleData [red; blue])))))
    = length (document (stored (sampleData [red; blue]))).
Proof.
  apply (client_spin_matches_server (sampleEnv 1) "L"%string
           (stored (sampleData [red; blue]))).
  reflexivity.
Defined.

(** ** The state of the client application *)

Lemma firstId_listed (ls : list WheelList) (id : string) :
  App.firstId ls = Some id -> exists wheel, wheel ∈ ls /\ list_id wheel = id.
Proof.
  destruct ls as [|wheel ls]; [discriminate|]. intros [= <-].
  exists wheel. split; [left|reflexivity].
Qed.

Lemma step_listed (st : App.State) (event : App.Event) :
  event <> App.Loaded [] ->
  (forall id, App.selectedId st = Some id ->
     exists wheel, wheel ∈ App.lists st /\ list_id wheel = id) ->
  forall id, App.selectedId (App.step st event) = Some id ->
    exists wheel, wheel ∈ App.lists (App.step st event) /\ list_id wheel = id.
Proof.
  intros Hevent Hst id. destruct event as [data|index|created|updated|deleted].
  - destruct data as [|wheel data]; [congruence|]. cbn. intros [= <-].
    exists wheel. split; [left|reflexivity].
  - cbn [App.step]. destruct (App.lists st !! index) as [wheel|] eqn:Hwheel.
    + cbn. intros [= <-]. exists wheel. split; [|reflexivity].
      eapply list_elem_of_lookup_2, Hwheel.
    + apply Hst.
  - cbn. intros [= <-]. exists created. split; [left|reflexivity].
  - cbn [App.step App.selectedId App.lists]. intros Hid.
    destruct (Hst id Hid) as (wheel & Hin & Hwheel).
    exists (if String.eqb (list_id wheel) (list_id updated) then updated else wheel).
    split.
    + apply list_elem_of_fmap. now exists wheel.
    + destruct (String.eqb_spec (list_id wheel) (list_id updated)); congruence.
  - cbn [App.step App.selectedId App.lists]. cbv zeta.
    destruct (App.selectedId st) as [selected|] eqn:Hselected; [|discriminate].
    destruct (String.eqb_spec selected deleted) as [->|Hother].
    + apply firstId_listed.
    + intros [= <-]. destruct (Hst selected eq_refl) as (wheel & Hin & Hwheel).
      exists wheel. split; [|exact Hwheel].
      apply list_elem_of_In, filter_In. split; [now apply list_elem_of_In|].
      rewrite Hwheel. now destruct (String.eqb_spec selected deleted).
Qed.

Lemma find_listed (ls : list WheelList) (id : string) (wheel : WheelList) :
  wheel ∈ ls -> list_id wheel = id ->
  exists found,
    List.find (fun wheel => String.eqb (list_id wheel) id) ls = Some found /\
    list_id found = id /\ found ∈ ls.
Proof.
  intros Hin Hid. induction Hin as [wheel ls|wheel other ls _ IH].
  - exists wheel. cbn [List.find]. rewrite Hid, String.eqb_refl.
    split; [reflexivity|]. split; [reflexivity|left].
  - cbn [List.find]. destruct (String.eqb_spec (list_id other) id) as [Hother|_].
    + exists other. split; [reflexivity|]. split; [exact Hother|left].
    + destruct (IH Hid) as (found & Hfind & Hfound & Hin'). exists found.
      split; [exact Hfind|]. split; [exact Hfound|now right].
Qed.

(** X27. The selection of the client never dangles.  Events are handled one
    at a time from the initial state of [App]: a load, a click on a list, a
    creation, a change and a deletion (from the sidebar or from the
    workspace).  As long as no load brings an empty array, a [selectedId]
    that is set is the id of a list of [lists], and [selectedList] is that
    list: the workspace is never shown empty while the sidebar highlights a
    list. *)
Theorem selection_is_listed (events : list App.Event) :
  Forall (fun event => event <> App.Loaded []) events ->
  let st := fold_left App.step events App.initial in
  forall id, App.selectedId st = Some id ->
    exists wheel,
      App.selectedList st = Some wheel /\ list_id wheel = id /\ wheel ∈ App.lists st.
Proof.
  intros Hevents st id Hid.
  assert (Hlisted : forall id, App.selectedId st = Some id ->
            exists wheel, wheel ∈ App.lists st /\ list_id wheel = id).
  { subst st. clear id Hid.
    assert (Hinitial : forall id, App.selectedId App.initial = Some id ->
              exists wheel, wheel ∈ App.lists App.initial /\ list_id wheel = id)
      by discriminate.
    revert Hinitial. generalize App.initial.
    induction Hevents as [|event events Hevent _ IH]; intros st0 Hst0; [exact Hst0|].
    cbn [fold_left]. apply IH. now apply step_listed. }
  destruct (Hlisted id Hid) as (wheel & Hin & Hwheel).
  unfold App.selectedList. rewrite Hid. now apply (find_listed _ _ wheel).
Qed.

Lemma selection_is_listed_witness :
  let st := fold_left App.step
              [App.Loaded [sampleList [red]];
               App.Created (sampleList []);
               App.Changed (sampleList [blue])]
              App.initial in
  exists wheel,
    App.selectedList st = Some wheel /\ list_id wheel = "L"%string /\ wheel ∈ App.lists st.
Proof.
  refine (selection_is_listed
            [App.Loaded [sampleList [red]];
             App.Created (sampleList []);
             App.Changed (sampleList [blue])] _ "L"%string _).
  - repeat constructor; discriminate.
  - reflexivity.
Defined.

(** The exception is real: a load that brings no list after a creation
    empties [lists] and leaves the selection on the created list. *)
Example load_after_creation (created : WheelList) :
  let st := fold_left App.step [App.Created created; App.Loaded []] App.initial in
  App.selectedId st = Some (list_id created) /\ App.selectedList st = None.
Proof. split; reflexivity. Qed.
